(** * go-serum-analyzer: the error-code contract analyzer

    A shallow embedding of [analysis/analyse.go] (the [reeverify] pass) and
    of the properties its specification states about it.  The pre-pass, the
    claims, the affector engine and the results of a component are those of
    the revision of the file that has the SCC state and the set of visited
    identifiers; the error-type analyzer ([analyseCodeMethod] and the
    functions around it) is that of the revision that holds it, as are the
    collection of the declarations, the cache of the facts of the error
    types, and the engine and the analysis across calls as they were
    before the set of visited identifiers and the SCC state.

    Go strings are byte sequences: they are modelled by [string] (a list of
    8-bit [ascii]).  Pointers to AST nodes are modelled by node numbers,
    [*ast.Object] pointers by object numbers resolved in a store.  The
    services of the hosting framework (type information, constant values,
    interface satisfaction, fact import) and the table of the upper-case
    letters of the library are the fields of a [Pass] record; interface
    satisfaction is also computed from the declarations of the three
    interfaces and the method sets of the types ([types_Implements]).
    Code that reports diagnostics or exports facts threads the list of
    diagnostics and facts explicitly; code that can panic returns an
    [outcome]. *)

From Stdlib Require Import ZArith String Ascii List Bool Lia.
From stdpp Require Import base gmap sets list strings pretty sorting.

Local Open Scope Z_scope.

(** ** Go strings: bytes and the runes of a [range] loop *)

Module GoString.

Definition byteZ (c : ascii) : Z := Z.of_N (N_of_ascii c).

(** [s[i]]: the byte at index [i], if any. *)
Definition index (s : string) (i : nat) : option Z :=
  byteZ <$> String.get i s.

Fixpoint bytes (s : string) : list ascii :=
  match s with
  | EmptyString => []
  | String c rest => c :: bytes rest
  end.

Fixpoint drop (n : nat) (s : string) : string :=
  match n, s with
  | O, _ => s
  | S n', EmptyString => EmptyString
  | S n', String _ rest => drop n' rest
  end.

Definition RuneError : Z := 0xFFFD.
Definition locb : Z := 0x80.
Definition hicb : Z := 0xBF.
Definition maskx : Z := 0x3F.
Definition mask2 : Z := 0x1F.
Definition mask3 : Z := 0x0F.
Definition mask4 : Z := 0x07.

(** The information of [unicode/utf8]'s table [first] about a leading
    byte: plain ASCII, not a leading byte, or the leader of a sequence of
    [size] bytes whose second byte lies in [lo..hi]. *)
Inductive firstInfo : Type :=
| ASCII
| Invalid
| Lead (size : nat) (lo hi : Z).

Definition first (b : Z) : firstInfo :=
  if b <? 0x80 then ASCII
  else if b <? 0xC2 then Invalid
  else if b <? 0xE0 then Lead 2 locb hicb
  else if b =? 0xE0 then Lead 3 0xA0 hicb
  else if b <? 0xED then Lead 3 locb hicb
  else if b =? 0xED then Lead 3 locb 0x9F
  else if b <? 0xF0 then Lead 3 locb hicb
  else if b =? 0xF0 then Lead 4 0x90 hicb
  else if b <? 0xF4 then Lead 4 locb hicb
  else if b =? 0xF4 then Lead 4 locb 0x8F
  else Invalid.

Definition contb (o : option Z) : option Z :=
  match o with
  | Some b => if (b <? locb) || (hicb <? b) then None else Some b
  | None => None
  end.

(** [utf8.DecodeRuneInString]: the first rune of [s] and its width in
    bytes; [(RuneError, 1)] on an encoding error. *)
Definition decodeRune (s : string) : Z * nat :=
  match index s 0 with
  | None => (RuneError, 0%nat)
  | Some s0 =>
    match first s0 with
    | ASCII => (s0, 1%nat)
    | Invalid => (RuneError, 1%nat)
    | Lead sz lo hi =>
      if (String.length s <? sz)%nat then (RuneError, 1%nat)
      else
        match index s 1 with
        | None => (RuneError, 1%nat)
        | Some s1 =>
          if (s1 <? lo) || (hi <? s1) then (RuneError, 1%nat)
          else if (sz <=? 2)%nat then
            (Z.lor (Z.shiftl (Z.land s0 mask2) 6) (Z.land s1 maskx), 2%nat)
          else
            match contb (index s 2) with
            | None => (RuneError, 1%nat)
            | Some s2 =>
              if (sz <=? 3)%nat then
                (Z.lor (Z.lor (Z.shiftl (Z.land s0 mask3) 12)
                              (Z.shiftl (Z.land s1 maskx) 6))
                       (Z.land s2 maskx), 3%nat)
              else
                match contb (index s 3) with
                | None => (RuneError, 1%nat)
                | Some s3 =>
                  (Z.lor (Z.lor (Z.lor (Z.shiftl (Z.land s0 mask4) 18)
                                       (Z.shiftl (Z.land s1 maskx) 12))
                                (Z.shiftl (Z.land s2 maskx) 6))
                         (Z.land s3 maskx), 4%nat)
                end
            end
        end
    end
  end.

(** The runes a [for _, c := range s] loop yields, in order.  Every step
    consumes at least one byte, so [String.length s] steps are enough. *)
Fixpoint rangeFrom (steps : nat) (s : string) : list Z :=
  match steps with
  | O => []
  | S steps' =>
    match s with
    | EmptyString => []
    | String _ _ =>
      let '(r, w) := decodeRune s in
      r :: rangeFrom steps' (drop w s)
    end
  end.

Definition range (s : string) : list Z := rangeFrom (String.length s) s.

End GoString.

(** ** Error codes *)

Definition rune (c : ascii) : Z := GoString.byteZ c.

(** The test of the loop body of [isErrorCodeValid]. *)
Definition isErrorCodeRune (c : Z) : bool :=
  (c =? rune "-") || ((rune "a" <=? c) && (c <=? rune "z"))
  || ((rune "A" <=? c) && (c <=? rune "Z"))
  || ((rune "0" <=? c) && (c <=? rune "9")).

(** [isErrorCodeValid] checks if the given error code is valid. *)
Definition isErrorCodeValid (code : string) : bool :=
  if (String.length code =? 0)%nat then false
  else
    match GoString.index code 0,
          GoString.index code (String.length code - 1) with
    | Some c0, Some cl =>
      if (c0 =? rune "-") || ((rune "0" <=? c0) && (c0 <=? rune "9")) then false
      else if cl =? rune "-" then false
      else forallb isErrorCodeRune (GoString.range code)
    | _, _ => false
    end.

(** The two regular expressions of the specification, over bytes. *)
Module Regex.

Inductive regex : Type :=
| Class (p : ascii → bool)
| Seq (r1 r2 : regex)
| Star (r : regex).

Inductive matches : regex → list ascii → Prop :=
| MClass p c : p c = true → matches (Class p) [c]
| MSeq r1 r2 w1 w2 :
    matches r1 w1 → matches r2 w2 → matches (Seq r1 r2) (w1 ++ w2)
| MStarNil r : matches (Star r) []
| MStarCons r w1 w2 :
    matches r w1 → matches (Star r) w2 → matches (Star r) (w1 ++ w2).

Definition between (lo hi c : ascii) : bool :=
  (rune lo <=? rune c) && (rune c <=? rune hi).

(** [[A-Za-z]] *)
Definition letter (c : ascii) : bool :=
  between "A" "Z" c || between "a" "z" c.
(** [[A-Za-z0-9]] *)
Definition alnum (c : ascii) : bool :=
  letter c || between "0" "9" c.
(** [[A-Za-z0-9-]] *)
Definition alnumDash (c : ascii) : bool :=
  alnum c || (rune c =? rune "-").

(** [^[A-Za-z]$] *)
Definition single : regex := Class letter.
(** [^[A-Za-z][A-Za-z0-9-]*[A-Za-z0-9]$] *)
Definition long : regex :=
  Seq (Class letter) (Seq (Star (Class alnumDash)) (Class alnum)).

Definition errorCode (s : string) : Prop :=
  matches single (GoString.bytes s) ∨ matches long (GoString.bytes s).

End Regex.

(** ** Outcomes of code that can panic *)

(** [OutOfFuel] is only produced by functions defined by recursion on a
    fuel argument; it is not a behaviour of the Go code. *)
Inductive outcome (A : Type) : Type :=
| Done (a : A)
| Panic (msg : string)
| OutOfFuel.
Arguments Done {A} a.
Arguments Panic {A} msg.
Arguments OutOfFuel {A}.

#[global] Instance outcome_ret : MRet outcome := λ A a, Done a.
#[global] Instance outcome_bind : MBind outcome := λ A B f m,
  match m with
  | Done a => f a
  | Panic msg => Panic msg
  | OutOfFuel => OutOfFuel
  end.

#[global] Instance outcome_fmap : FMap outcome := λ A B f m,
  match m with
  | Done a => Done (f a)
  | Panic msg => Panic msg
  | OutOfFuel => OutOfFuel
  end.

(** A loop over a slice whose body threads a state and may panic. *)
Definition forM {A S : Type} (body : A → S → outcome S) : list A → S → outcome S :=
  fix go (l : list A) (s : S) : outcome S :=
    match l with
    | [] => Done s
    | x :: l' =>
      match body x s with
      | Done s' => go l' s'
      | Panic msg => Panic msg
      | OutOfFuel => OutOfFuel
      end
    end.

(** ** Go types, as far as the analyzer inspects them *)

Inductive gotype : Type :=
| Named (typeName : nat)
| Pointer (elem : gotype)
| Basic (kind : string)
| OtherType (id : nat).

#[global] Instance gotype_eq_dec : EqDecision gotype.
Proof. solve_decision. Defined.

(** [types.Identical]: named types are identical when they come from the
    same declaration, pointer types when their element types are. *)
Definition Identical (x y : gotype) : bool := bool_decide (x = y).

(** [errorTypesSubset] checks if type1 is a subset of type2. *)
Definition errorTypesSubset (type1 type2 : gotype) : bool :=
  let pointer2 := match type2 with Pointer elem => Some elem | _ => None end in
  Identical type1 type2
  || match pointer2 with
     | Some elem => Identical type1 elem
     | None => false
     end.

(** The relation as the specification words it: the two types are identical,
    or one of them is the pointer type to the other. *)
Definition sameErrorType_spec (type1 type2 : gotype) : Prop :=
  type1 = type2 ∨ type2 = Pointer type1 ∨ type1 = Pointer type2.

(** The three interfaces the analyzer builds: [tError], the type of the
    predeclared [error]; [tReeError], [{Error() string; Code() string}];
    and [tReeErrorWithCause], the two methods of [tReeError] and a method
    [Cause]. *)
Inductive Interface : Type := tError | tReeError | tReeErrorWithCause.

#[global] Instance Interface_eq_dec : EqDecision Interface.
Proof. solve_decision. Defined.

(** The result of a method without parameters and with one result, as far
    as the three interfaces tell results apart: [string], the predeclared
    [error], the named type that the declaration of [tReeErrorWithCause]
    creates with [types.NewNamed] (its name is [error] and its underlying
    type is that of [tError]), or another type. *)
Inductive resultType : Type :=
| rString
| rError
| rNewNamedError
| rOtherResult (t : gotype).

#[global] Instance resultType_eq_dec : EqDecision resultType.
Proof. solve_decision. Defined.

(** The methods the declarations [tError], [tReeError] and
    [tReeErrorWithCause] give to [types.NewInterfaceType]: name and
    result.  The result of [Cause] is the type that [types.NewNamed]
    returns there, not the predeclared [error]. *)
Definition interfaceMethods (i : Interface) : list (string * resultType) :=
  match i with
  | tError => [("Error"%string, rString)]
  | tReeError => [("Error"%string, rString); ("Code"%string, rString)]
  | tReeErrorWithCause =>
    [("Error"%string, rString); ("Code"%string, rString);
     ("Cause"%string, rNewNamedError)]
  end.

(** [types.Implements] on the three interfaces: the method set of the type
    has every method of the interface, with an identical signature.
    [methodsOf] is the method set of a type: the methods without parameters
    and with one result, which are the ones that matter here.  Two named
    types are identical when they come from the same declaration, so the
    result [rNewNamedError] is identical to itself only. *)
Definition types_Implements (methodsOf : gotype → list (string * resultType))
    (t : gotype) (i : Interface) : bool :=
  forallb (λ m, bool_decide (m ∈ methodsOf t)) (interfaceMethods i).

(** ** The syntax tree ([go/ast]) *)

(** [token.Pos] *)
Definition Pos : Type := Z.

(** Operators of unary expressions ([token.Token]). *)
Inductive Token : Type := AND | ADD | SUB | NOT | XOR | ARROW | TILDE.

#[global] Instance Token_eq_dec : EqDecision Token.
Proof. solve_decision. Defined.

(** [*ast.Ident].  [identNode] stands for the address of the node: two
    occurrences of one name are two nodes.  [Obj] is the [*ast.Object] the
    parser resolved the name to, if any. *)
Record Ident : Type := mkIdent {
  identNode : nat;
  NamePos : Pos;
  Name : string;
  Obj : option nat;
}.

Set Warnings "-register-all".

(** Expressions, struct fields and statements.  [OtherExpr] and
    [OtherStmt] stand for the node kinds no function of the analyzer
    distinguishes; they keep their children, in the order [ast.Walk]
    visits them. *)
Inductive expr : Type :=
| IdentExpr (id : Ident)
| BasicLit (value : string)
| CompositeLit (type : option expr) (elts : list expr)
| FuncLit (body : list stmt)
| SelectorExpr (x : expr) (sel : Ident)
| CallExpr (fn : expr) (args : list expr)
| StarExpr (x : expr)
| UnaryExpr (op : Token) (x : expr)
| KeyValueExpr (key value : expr)
| StructType (fields : list field)
| OtherExpr (kind : string) (children : list expr)
with field : Type :=
| Field (pos : Pos) (names : list Ident) (type : expr)
with stmt : Type :=
| AssignStmt (lhs rhs : list expr)
| ReturnStmt (results : list expr)
| ExprStmt (x : expr)
| BlockStmt (stmts : list stmt)
| IfStmt (init : option stmt) (cond : expr) (body : list stmt)
         (els : option stmt)
| OtherStmt (kind : string) (children : list (expr + stmt)).

Definition fieldPos (f : field) : Pos := let 'Field p _ _ := f in p.
Definition fieldNames (f : field) : list Ident := let 'Field _ n _ := f in n.
Definition fieldType (f : field) : expr := let 'Field _ _ t := f in t.

(** [ast.Node], the argument of the function given to [ast.Inspect]. *)
Inductive node : Type :=
| NExpr (e : expr)
| NField (f : field)
| NStmt (s : stmt).

(** [*ast.FieldList]: [ListPos] is what its method [Pos] returns. *)
Record FieldList : Type := mkFieldList {
  ListPos : Pos;
  List : list field;
}.

(** The body of a function, [*ast.BlockStmt]. *)
Record Block : Type := mkBlock {
  Lbrace : Pos;
  Stmts : list stmt;
  Rbrace : Pos;
}.

(** [*ast.FuncDecl].  [funcNode] stands for the address of the declaration
    (the key of the maps indexed by [*ast.FuncDecl]); [Doc] is the text of
    the doc comment, [FuncPos] what the method [Pos] returns. *)
Record FuncDecl : Type := mkFuncDecl {
  funcNode : nat;
  Doc : option string;
  Recv : option (list field);
  FuncName : Ident;
  FuncPos : Pos;
  Results : option FieldList;
  Body : option Block;
}.

(** [*ast.Object] and the declaration it points to. *)
Inductive ObjKind : Type := Bad | Pkg | Con | Typ | Var | Fun | Lbl.

#[global] Instance ObjKind_eq_dec : EqDecision ObjKind.
Proof. solve_decision. Defined.

Inductive Decl : Type :=
| DeclField (f : field)
| DeclTypeSpec (type : expr)
| DeclFuncDecl (funcNode : nat)
| DeclOther.

Record Object : Type := mkObject {
  Kind : ObjKind;
  ObjName : string;
  ObjDecl : Decl;
  ObjPos : Pos;
}.

(** The objects of the package, by address. *)
Abbreviation Objects := (gmap nat Object).

(** *** [ast.Inspect] *)

(** [ast.Inspect] traverses the tree in depth-first order: it calls the
    visitor on a node, and on the children of the node when the visitor
    returned true.  The visitors of this file act on assignments, return
    statements and function literals only, which a declaration holds in its
    body, and return true without effect on every other node and on the nil
    that ends the visit of the children of a node.  The traversal of a
    declaration is therefore the traversal of the statements of its body;
    the calls of the visitor on the declaration, its signature and the
    block nodes (the body of a function, of a function literal, of an [if])
    are left out. *)
Section Inspect.
Context {S : Type}.
Variable visit : node → S → outcome (bool * S).

Definition walkOpt {A : Type} (walk : A → S → outcome S) (o : option A)
    (s : S) : outcome S :=
  match o with
  | Some x => walk x s
  | None => Done s
  end.

Fixpoint walkExpr (e : expr) (s : S) {struct e} : outcome S :=
  '(descend, s) ← visit (NExpr e) s;
  if descend : bool then
    match e with
    | IdentExpr _ | BasicLit _ => Done s
    | CompositeLit type elts =>
      s ← walkOpt walkExpr type s; forM walkExpr elts s
    | FuncLit body => forM walkStmt body s
    | SelectorExpr x sel =>
      s ← walkExpr x s;
      '(_, s) ← visit (NExpr (IdentExpr sel)) s; Done s
    | CallExpr fn args => s ← walkExpr fn s; forM walkExpr args s
    | StarExpr x => walkExpr x s
    | UnaryExpr _ x => walkExpr x s
    | KeyValueExpr key value => s ← walkExpr key s; walkExpr value s
    | StructType fields => forM walkField fields s
    | OtherExpr _ children => forM walkExpr children s
    end
  else Done s
with walkField (f : field) (s : S) {struct f} : outcome S :=
  '(descend, s) ← visit (NField f) s;
  if descend : bool then
    match f with
    | Field _ names type =>
      s ← forM (λ id s, '(_, s) ← visit (NExpr (IdentExpr id)) s; Done s)
               names s;
      walkExpr type s
    end
  else Done s
with walkStmt (st : stmt) (s : S) {struct st} : outcome S :=
  '(descend, s) ← visit (NStmt st) s;
  if descend : bool then
    match st with
    | AssignStmt lhs rhs => s ← forM walkExpr lhs s; forM walkExpr rhs s
    | ReturnStmt results => forM walkExpr results s
    | ExprStmt x => walkExpr x s
    | BlockStmt stmts => forM walkStmt stmts s
    | IfStmt init cond body els =>
      s ← walkOpt walkStmt init s;
      s ← walkExpr cond s;
      s ← forM walkStmt body s;
      walkOpt walkStmt els s
    | OtherStmt _ children =>
      forM (λ child s,
              match child with
              | inl e => walkExpr e s
              | inr st => walkStmt st s
              end) children s
    end
  else Done s.

Definition Inspect (d : FuncDecl) (s : S) : outcome S :=
  match Body d with
  | Some b => forM walkStmt (Stmts b) s
  | None => Done s
  end.

End Inspect.

(** ** Code sets, facts and diagnostics *)

(** [codeSet] is [map[string]struct{}].  A nil [codeSet] reads as the empty
    set, and nothing in the functions below compares one with nil or adds
    to one that can be nil. *)
Abbreviation codeSet := (gset string).

Definition strLe (a b : string) : Prop := String.leb a b = true.

#[global] Instance strLe_dec a b : Decision (strLe a b).
Proof. unfold strLe. apply _. Defined.

(** Modelled from the spec: [codeSet.slice], whose source is not in
    [analyse.go]; the specification (4.A) makes it the export of the set as
    a sorted slice. *)
Definition slice (s : codeSet) : list string := merge_sort strLe (elements s).

(** The fact [ErrorCodes] attached to a function. *)
Record ErrorCodes : Type := mkErrorCodes { Codes : list string }.

(** [ErrorCodeField] and the fact [ErrorType] attached to an error type. *)
Record ErrorCodeField : Type := mkErrorCodeField {
  FieldName : string;
  Position : Z;
}.

Record ErrorType : Type := mkErrorType {
  TypeCodes : list string;
  TypeField : option ErrorCodeField;
}.

(** Where a diagnostic is reported: [pass.Reportf] takes a position,
    [pass.ReportRangef] a node. *)
Inductive Range : Type :=
| AtPos (p : Pos)
| AtNode (n : node).

Record Diagnostic : Type := mkDiagnostic {
  Where : Range;
  Message : string;
}.

Definition Reportf (diags : list Diagnostic) (p : Pos) (msg : string)
  : list Diagnostic := diags ++ [mkDiagnostic (AtPos p) msg].

Definition ReportRangef (diags : list Diagnostic) (n : node) (msg : string)
  : list Diagnostic := diags ++ [mkDiagnostic (AtNode n) msg].

(** The verb [%q] on a name: the name between double quotes (names hold
    no character that [strconv.Quote] escapes). *)
Definition fmt_q (s : string) : string :=
  String "034" EmptyString ++ s ++ String "034" EmptyString.

(** ** The services of the analysis framework *)

(** [constant.Value], by the two methods the analyzer calls: its kind and
    its rendering [String()] (for a string, the quoted string, shortened
    when it is long). *)
Inductive ConstKind : Type := KUnknown | KBool | KString | KInt | KFloat | KComplex.

#[global] Instance ConstKind_eq_dec : EqDecision ConstKind.
Proof. solve_decision. Defined.

Record constant : Type := mkConstant {
  ValueKind : ConstKind;
  ValueString : string;
}.

(** What [pass.TypesInfo.Defs] maps the name of a declaration to. *)
Inductive TObject : Type :=
| TFunc (id : nat)
| TOther (id : nat).

Record Pass : Type := mkPass {
  (** [pass.TypesInfo.TypeOf], [pass.TypesInfo.Types[e].Type] *)
  TypeOf : expr → gotype;
  (** [pass.TypesInfo.Types[e].Value], nil when [e] is no constant *)
  ConstValue : expr → option constant;
  (** [types.Implements] *)
  Implements : gotype → Interface → bool;
  (** [pass.TypesInfo.Defs] *)
  Defs : Ident → option TObject;
  (** the range table [unicode.Upper] of the library, which
      [unicode.IsUpper] reads for the runes above Latin-1 *)
  Upper : Z → bool;
}.

(** The type checker's answers come from the method sets [methodsOf] of the
    package under analysis: [types.Implements] is computed from them, and no
    method of the package has the type created in the declaration of
    [tReeErrorWithCause] as its result, since no source text names it. *)
Definition typeChecked (pass : Pass)
    (methodsOf : gotype → list (string * resultType)) : Prop :=
  (∀ t i, Implements pass t i = types_Implements methodsOf t i)
  ∧ (∀ t name, (name, rNewNamedError) ∉ methodsOf t).

(** The upper-case letters of Latin-1, the runes whose entry in the table
    [properties] of the package [unicode] is [pLu]: A to Z, and the
    letters from U+00C0 to U+00DE but the multiplication sign U+00D7. *)
Definition latin1Upper (r : Z) : bool :=
  ((0x41 <=? r) && (r <=? 0x5A))
  || ((0xC0 <=? r) && (r <=? 0xD6))
  || ((0xD8 <=? r) && (r <=? 0xDE)).

Definition MaxLatin1 : Z := 0xFF.

(** [unicode.IsUpper]: the table [properties] up to [MaxLatin1], the range
    table [Upper] above.  The conversion [uint32(r)] changes no rune that
    [DecodeRuneInString] returns, none being negative. *)
Definition unicode_IsUpper (pass : Pass) (r : Z) : bool :=
  if r <=? MaxLatin1 then latin1Upper r else Upper pass r.

(** [Ident.IsExported]: the name starts with an upper-case letter. *)
Definition IsExported (pass : Pass) (id : Ident) : bool :=
  unicode_IsUpper pass (fst (GoString.decodeRune (Name id))).

(** [strconv.Unquote], on a double-quoted string without escape sequences
    (its fast path).  A rendering [String()] with an escape sequence comes
    from a string that holds a character no error code may hold; it is
    refused here, where Go unquotes it and [isErrorCodeValid] refuses the
    result. *)
Fixpoint plainTail (s : string) : option string :=
  match s with
  | EmptyString => None
  | String c EmptyString =>
    if Ascii.eqb c "034" then Some EmptyString else None
  | String c rest =>
    if Ascii.eqb c "034" || Ascii.eqb c "\" || Ascii.eqb c "010" then None
    else String c <$> plainTail rest
  end.

Definition strconv_Unquote (s : string) : option string :=
  match s with
  | String c rest => if Ascii.eqb c "034" then plainTail rest else None
  | EmptyString => None
  end.

(** ** The docstring parser *)

Module DocFormat.

Definition isSpace (c : ascii) : bool :=
  Ascii.eqb c " " || Ascii.eqb c "009" || Ascii.eqb c "013".

Fixpoint trimLeft (s : string) : string :=
  match s with
  | String c rest => if isSpace c then trimLeft rest else s
  | EmptyString => EmptyString
  end.

Fixpoint lines (cur : string) (s : string) : list string :=
  match s with
  | EmptyString => [cur]
  | String c rest =>
    if Ascii.eqb c "010" then cur :: lines EmptyString rest
    else lines (cur ++ String c EmptyString) rest
  end.

Inductive State : Type := outside | justOpened | expectCodes | afterBlock.

Record SM : Type := mkSM {
  state : State;
  seenIndicator : bool;
  seen : codeSet;
}.

Definition repeated : string := "repeated 'Errors:' block indicator".

(** One line of the doc comment. *)
Definition step (sm : SM) (line : string) : SM + string :=
  let line := trimLeft line in
  if String.eqb line "Errors:" then
    if seenIndicator sm then inr repeated
    else inl (mkSM justOpened true (seen sm))
  else if String.eqb line "Errors: none"
          || String.prefix "Errors: none -- " line then
    if seenIndicator sm then inr repeated
    else inl (mkSM afterBlock true (seen sm))
  else
    match state sm with
    | outside | afterBlock => inl sm
    | justOpened =>
      if String.eqb line "" then inl (mkSM expectCodes true (seen sm))
      else inr "need a blank line after the 'Errors:' block indicator"
    | expectCodes =>
      if String.prefix "- " line then
        match String.index 1 " -- " line with
        | None =>
          inr "mid block, a line leading with '- ' didnt contain a '--' to mark the end of the code name"
        | Some i =>
          let code := trimLeft (String.substring 1 (i - 1) line) in
          if String.eqb code "" then
            inr "an error code can't be purely whitespace"
          else if String.prefix "param:" code then
            inr "error code parameters are not supported"
          else if isErrorCodeValid code then
            inl (mkSM expectCodes true ({[code]} ∪ seen sm))
          else
            inr "declared error code has invalid format: should match [a-zA-Z][a-zA-Z0-9\-]*[a-zA-Z0-9]"
        end
      else inl (mkSM afterBlock true (seen sm))
    end.

Fixpoint steps (sm : SM) (ls : list string) : SM + string :=
  match ls with
  | [] => inl sm
  | l :: ls' =>
    match step sm l with
    | inl sm' => steps sm' ls'
    | inr err => inr err
    end
  end.

(** Modelled from the spec: [findErrorDocsSM.run], the parser of the
    "Errors:" block of a doc comment, whose source is not in [analyse.go].
    It follows the state machine of the specification (4.B): the declared
    code set, and nil or the error that makes the docstring malformed. *)
Definition run (doc : string) : codeSet * option string :=
  match steps (mkSM outside false ∅) (lines EmptyString doc) with
  | inl sm => (seen sm, None)
  | inr err => (∅, Some err)
  end.

End DocFormat.

Definition findErrorDocs (funcDecl : FuncDecl) : codeSet * option string :=
  match Doc funcDecl with
  | None => (∅, None)
  | Some text => DocFormat.run text
  end.

(** ** The function registry *)

(** [funcLookup] allows the lookup of function and method declarations in
    the current package by name. *)
Record funcLookup : Type := mkFuncLookup {
  functions : gmap string FuncDecl;
  methods : gmap string (list FuncDecl);
}.

(** [forEach] traverses all the functions and methods in the lookup.  The
    order of a [range] over a map is not specified; the model takes the
    order of [map_to_list]. *)
Definition forEach {S : Type} (lookup : funcLookup)
    (f : FuncDecl → S → outcome S) (s : S) : outcome S :=
  s ← forM f (snd <$> map_to_list (functions lookup)) s;
  forM (forM f) (snd <$> map_to_list (methods lookup)) s.

(** [isMethod] checks if funcDecl is a method by looking if it has a single
    receiver. *)
Definition isMethod (funcDecl : FuncDecl) : bool :=
  match Recv funcDecl with
  | Some l => (length l =? 1)%nat
  | None => false
  end.

(** ** The pre-pass and the claims *)

Section Verify.
Variable pass : Pass.

(** The function literal [findErrorReturningFunctions] gives to
    [forEach]; the state is the slice [funcsToAnalyse] and the
    diagnostics. *)
Definition findErrorReturningFunctions_visit (funcDecl : FuncDecl)
    (s : list FuncDecl * list Diagnostic)
  : outcome (list FuncDecl * list Diagnostic) :=
  let '(funcsToAnalyse, diags) := s in
  match Results funcDecl with
  | None => Done (funcsToAnalyse, diags)
  | Some resultsList =>
    match last (List resultsList) with
    | None => Panic "runtime error: index out of range [-1]"
    | Some lastResult =>
      let typ := TypeOf pass (fieldType lastResult) in
      if negb (Implements pass typ tError) then
        Done (funcsToAnalyse,
              foldl (λ diags result,
                       let typ := TypeOf pass (fieldType result) in
                       if Implements pass typ tError then
                         Reportf diags (fieldPos result)
                           "error should be returned as the last argument"
                       else diags)
                    diags (List resultsList))
      else Done (funcsToAnalyse ++ [funcDecl], diags)
    end
  end.

(** [findErrorReturningFunctions] looks for functions that return an error,
    and emits a diagnostic if a function returns an error, but not as the
    last argument. *)
Definition findErrorReturningFunctions (lookup : funcLookup)
    (diags : list Diagnostic) : outcome (list FuncDecl * list Diagnostic) :=
  forEach lookup findErrorReturningFunctions_visit ([], diags).

(** [funcCodes] is [map[*ast.FuncDecl]codeSet]: the key is the address of
    the declaration, kept with the declaration it is the address of. *)
Abbreviation funcCodes := (gmap nat (FuncDecl * codeSet)).

(** [findClaimedErrorCodes] finds the error codes claimed by the given
    functions, and emits diagnostics if a function does not claim error
    codes or if the format of the docstring does not match the expected
    format. *)
Definition findClaimedErrorCodes (funcsToAnalyse : list FuncDecl)
    (diags : list Diagnostic) : funcCodes * list Diagnostic :=
  foldl (λ '(result, diags) funcDecl,
    match findErrorDocs funcDecl with
    | (_, Some err) =>
      (result,
       Reportf diags (FuncPos funcDecl)
         ("function " ++ fmt_q (Name (FuncName funcDecl))
          ++ " has odd docstring: " ++ err))
    | (codes, None) =>
      if (size codes =? 0)%nat then
        let exempt :=
          isMethod funcDecl
          && match Recv funcDecl with
             | Some (recv :: _) =>
               Implements pass (TypeOf pass (fieldType recv)) tReeErrorWithCause
             | _ => false
             end in
        if exempt then (result, diags)
        else if IsExported pass (FuncName funcDecl) then
          (result,
           Reportf diags (FuncPos funcDecl)
             ("function " ++ fmt_q (Name (FuncName funcDecl))
              ++ " is exported, but does not declare any error codes"))
        else (result, diags)
      else (<[funcNode funcDecl := (funcDecl, codes)]> result, diags)
    end) (∅, diags) funcsToAnalyse.

(** [exportFunctionErrorCodes] exports all codes for each function in the
    given map as facts.  The facts of the pass are a map from the function
    object to its fact. *)
Definition exportFunctionErrorCodes (codes : funcCodes)
    (facts : gmap nat ErrorCodes) : gmap nat ErrorCodes :=
  map_fold (λ _ '(funcDecl, codeSet) facts,
    match Defs pass (FuncName funcDecl) with
    | Some (TFunc fn) => <[fn := mkErrorCodes (slice codeSet)]> facts
    | _ => facts
    end) facts codes.

End Verify.

(** ** The error-type analyzer *)

Definition invalidFormat : string :=
  "error code has invalid format: should match [a-zA-Z][a-zA-Z0-9\-]*[a-zA-Z0-9]".

(** [getErrorCodeFromConstant]: the code, or the error. *)
Definition getErrorCodeFromConstant (value : constant) : string + string :=
  if negb (bool_decide (ValueKind value = KString)) then
    inr "error code has to be of type string"
  else
    match strconv_Unquote (ValueString value) with
    | None => inr "problem unquoting string constant value: invalid syntax"
    | Some result =>
      if negb (isErrorCodeValid result) then inr invalidFormat
      else inl result
    end.

Section ErrorTypes.
Variable pass : Pass.
Variable objects : Objects.

(** The loop of [getFieldPositionUsingMethodReceiver] over the names of one
    field: the position found, or the counter after the field. *)
Fixpoint fieldNamesLoop (names : list Ident) (fieldName : string) (i : Z)
  : Z + Z :=
  match names with
  | [] => inr i
  | name :: names' =>
    if String.eqb (Name name) fieldName then inl i
    else fieldNamesLoop names' fieldName (i + 1)
  end.

Fixpoint fieldsLoop (fields : list field) (fieldName : string) (i : Z) : Z :=
  match fields with
  | [] => -1
  | fld :: fields' =>
    match fieldNames fld with
    | [] => fieldsLoop fields' fieldName (i + 1)
    | names =>
      match fieldNamesLoop names fieldName i with
      | inl found => found
      | inr i' => fieldsLoop fields' fieldName i'
      end
    end
  end.

(** [getFieldPositionUsingMethodReceiver] get the position of the given
    field in the error struct.  The receiver is used to dig up the error
    type definition. *)
Definition getFieldPositionUsingMethodReceiver (receiver : Ident)
    (fieldName : string) : outcome Z :=
  match Obj receiver ≫= (objects !!.) with
  | None => Panic "runtime error: invalid memory address or nil pointer dereference"
  | Some receiverObj =>
    match ObjDecl receiverObj with
    | DeclField receiverField =>
      match fieldType receiverField with
      | StarExpr x =>
        match x with
        | IdentExpr errorTypeIdent =>
          match Obj errorTypeIdent ≫= (objects !!.) with
          | None => Panic "can this happen?"
          | Some typeObj =>
            if negb (bool_decide (Kind typeObj = Typ)) then
              Panic "can this happen?"
            else
              match ObjDecl typeObj with
              | DeclTypeSpec (StructType fields) =>
                Done (fieldsLoop fields fieldName 0)
              | DeclTypeSpec _ => Done (-1)
              | _ => Panic "can this happen?"
              end
          end
        | _ => Panic "can this happen?"
        end
      | _ => Panic "not a *ast.StarExpr"
      end
    | _ => Panic "interface conversion: interface {} is not *ast.Field"
    end
  end.

(** The state of the traversal of [analyseCodeMethod]: the variables the
    function literal captures, and the diagnostics. *)
Record codeMethodState : Type := mkCodeMethodState {
  constants : codeSet;
  fieldName : string;
  codeDiags : list Diagnostic;
}.

(** The field [receiver.field] a return statement returns, if it
    does. *)
Definition returnedField (receiver : option Ident) (result : expr)
  : option Ident :=
  match receiver, result with
  | Some receiver, SelectorExpr (IdentExpr ident) sel =>
    if bool_decide (Obj ident = Obj receiver) then Some sel else None
  | _, _ => None
  end.

Definition analyseCodeMethod_visit (funcDecl : FuncDecl)
    (receiver : option Ident) (n : node) (st : codeMethodState)
  : outcome (bool * codeMethodState) :=
  match n with
  | NExpr (FuncLit _) => Done (false, st)
  | NStmt (ReturnStmt results) =>
    match results with
    | [result] =>
      match ConstValue pass result with
      | Some value =>
        match getErrorCodeFromConstant value with
        | inl code =>
          Done (false, mkCodeMethodState ({[code]} ∪ constants st)
                         (fieldName st) (codeDiags st))
        | inr err =>
          Done (false, mkCodeMethodState (constants st) (fieldName st)
                         (ReportRangef (codeDiags st) n err))
        end
      | None =>
        match returnedField receiver result with
        | Some sel =>
          if String.eqb (fieldName st) "" then
            Done (false, mkCodeMethodState (constants st) (Name sel)
                           (codeDiags st))
          else if negb (String.eqb (fieldName st) (Name sel)) then
            Done (false, mkCodeMethodState (constants st) (fieldName st)
                   (ReportRangef (codeDiags st) n
                      ("only single field allowed: cannot return field "
                       ++ fmt_q (Name sel) ++ " because field "
                       ++ fmt_q (fieldName st) ++ " was returned previously")))
          else Done (false, st)
        | None =>
          Done (true, mkCodeMethodState (constants st) (fieldName st)
                 (ReportRangef (codeDiags st) n
                    ("function " ++ fmt_q (Name (FuncName funcDecl))
                     ++ " should always return a string constant or a single field")))
        end
      end
    | _ =>
      Panic "Should be unreachable: we already know that the method returns a single value. Return statements that don't do so should lead to a compile time error."
    end
  | _ => Done (true, st)
  end.

(** [analyseCodeMethod] inspects the error type: the fact for it, or nil,
    and the diagnostics. *)
Definition analyseCodeMethod (funcDecl : FuncDecl) (receiver : option Ident)
    (diags : list Diagnostic) : outcome (option ErrorType * list Diagnostic) :=
  st ← Inspect (analyseCodeMethod_visit funcDecl receiver) funcDecl
         (mkCodeMethodState ∅ "" diags);
  '(field, diags) ←
    match receiver with
    | Some receiver =>
      if negb (String.eqb (fieldName st) "") then
        position ← getFieldPositionUsingMethodReceiver receiver (fieldName st);
        if 0 <=? position then
          Done (Some (mkErrorCodeField (fieldName st) position), codeDiags st)
        else
          Done (None,
                Reportf (codeDiags st) (FuncPos funcDecl)
                  ("returned field " ++ fmt_q (fieldName st)
                   ++ " is not a valid error code field (promoted fields are not supported currently, but might be added in the future)"))
      else Done (None, codeDiags st)
    | None => Done (None, codeDiags st)
    end;
  if (size (constants st) =? 0)%nat && bool_decide (field = None) then
    Done (None, diags)
  else Done (Some (mkErrorType (slice (constants st)) field), diags).

(** The loop of [getCodeFuncFromError] over the methods named "Code". *)
Fixpoint getCodeFuncLoop (methods : list FuncDecl) (err : gotype)
  : outcome (option (FuncDecl * option Ident)) :=
  match methods with
  | [] => Done None
  | funcDecl :: methods' =>
    match Recv funcDecl with
    | Some (receiverField :: _) =>
      if negb (errorTypesSubset (TypeOf pass (fieldType receiverField)) err)
      then getCodeFuncLoop methods' err
      else
        match fieldNames receiverField with
        | [name] => Done (Some (funcDecl, Some name))
        | _ => Done (Some (funcDecl, None))
        end
    | Some [] => Panic "runtime error: index out of range [0] with length 0"
    | None => Panic "runtime error: invalid memory address or nil pointer dereference"
    end
  end.

(** [getCodeFuncFromError] finds and returns the method declaration of
    "Code() string" for the given error type, and the identifier which is
    the receiver of the method, or nil if the receiver is unnamed. *)
Definition getCodeFuncFromError (lookup : funcLookup) (err : gotype)
  : outcome (option (FuncDecl * option Ident)) :=
  match methods lookup !! "Code"%string with
  | None => Done None
  | Some methods => getCodeFuncLoop methods err
  end.

End ErrorTypes.

(** ** The affector engine *)

(** The state the engine threads: the set [visited] of identifier nodes
    (a map the calls share) and the diagnostics reported. *)
Record taintState : Type := mkTaintState {
  visited : gset nat;
  taintDiags : list Diagnostic;
}.

Definition unsupportedNonLast : string :=
  "unsupported: tracking error codes for function call with error as non-last return argument".

Section Affectors.
Variable pass : Pass.
Variable objects : Objects.

Section Assignment.
(** The recursive call on a right-hand side, the identifier traced, and
    the two sides of the assignment. *)
Variable recur : expr → taintState → outcome (list expr * taintState).
Variable exprt : Ident.
Variable Lhs Rhs : list expr.

(** The loop [for i, clause := range assignment.Lhs], from index [i] on.
    The boolean is what the function literal returns to [ast.Inspect]. *)
Fixpoint assignLoop (i : nat) (clauses : list expr) (result : list expr)
    (st : taintState) : outcome (bool * (list expr * taintState)) :=
  match clauses with
  | [] => Done (true, (result, st))
  | clause :: clauses' =>
    match clause with
    | IdentExpr clauset =>
      if bool_decide (Obj clauset = Obj exprt) then
        if (length Rhs <? length Lhs)%nat then
          if negb (i =? length Lhs - 1)%nat then
            Done (false,
                  (result,
                   mkTaintState (visited st)
                     (ReportRangef (taintDiags st) (NExpr clause)
                        unsupportedNonLast)))
          else
            match Rhs !! 0%nat with
            | Some (CallExpr fn args) =>
              assignLoop (S i) clauses' (result ++ [CallExpr fn args]) st
            | Some _ => Panic "what?"
            | None => Panic "runtime error: index out of range [0] with length 0"
            end
        else
          match Rhs !! i with
          | Some rhs =>
            '(affectors, st) ← recur rhs st;
            assignLoop (S i) clauses' (result ++ affectors) st
          | None => Panic "runtime error: index out of range"
          end
      else assignLoop (S i) clauses' result st
    | _ => assignLoop (S i) clauses' result st
    end
  end.

End Assignment.

(** The function literal [findAffectorsInFunc] gives to [ast.Inspect]. *)
Definition findAffectors_visit
    (recur : expr → taintState → outcome (list expr * taintState))
    (exprt : Ident) (n : node) (s : list expr * taintState)
  : outcome (bool * (list expr * taintState)) :=
  match n with
  | NStmt (AssignStmt lhs rhs) =>
    assignLoop recur exprt lhs rhs 0 lhs (fst s) (snd s)
  | _ => Done (true, s)
  end.

(** The check that the identifier is a local variable. *)
Definition checkLocal (exprt : Ident) (within : FuncDecl) (st : taintState)
  : outcome taintState :=
  match Obj exprt with
  | None => Done st
  | Some o =>
    match Body within, objects !! o with
    | Some body, Some obj =>
      let withinPos :=
        match Results within with
        | Some results => ListPos results
        | None => Lbrace body
        end in
      if (ObjPos obj <=? withinPos) || (Rbrace body + 1 <=? ObjPos obj) then
        Done (mkTaintState (visited st)
                (ReportRangef (taintDiags st) (NExpr (IdentExpr exprt))
                   "returned error may not be a parameter, receiver or global variable"))
      else Done st
    | _, _ =>
      Panic "runtime error: invalid memory address or nil pointer dereference"
    end
  end.

(** [findAffectorsInFunc] looks up what can affect the given expression,
    and recurses in this until it hits either the creation of a value, or
    function call boundaries.  [fuel] bounds the depth of the recursion. *)
Fixpoint findAffectorsInFunc (fuel : nat) (e : expr) (within : FuncDecl)
    (st : taintState) : outcome (list expr * taintState) :=
  match fuel with
  | O => OutOfFuel
  | S fuel =>
    match e with
    | CallExpr _ _ => Done ([e], st)
    | IdentExpr exprt =>
      if bool_decide (identNode exprt ∈ visited st) then Done ([], st)
      else
        let st := mkTaintState ({[identNode exprt]} ∪ visited st)
                    (taintDiags st) in
        st ← checkLocal exprt within st;
        Inspect (findAffectors_visit
                   (λ rhs st, findAffectorsInFunc fuel rhs within st) exprt)
                within ([], st)
    | UnaryExpr op _ =>
      if bool_decide (op = AND) && Implements pass (TypeOf pass e) tError then
        Done ([e], st)
      else
        Done ([], mkTaintState (visited st)
                    (ReportRangef (taintDiags st) (NExpr e)
                       "expression does not implement valid error type"))
    | CompositeLit _ _ | BasicLit _ => Done ([e], st)
    | _ => Done ([], st)
    end
  end.

End Affectors.

(** ** The results of the analysis of a component *)

Section Components.
(** The keys of [affectors] are the addresses of expression nodes; the
    functions of this section only store and unite them. *)
Context {ExprPtr : Type} `{Countable ExprPtr}.

(** [funcAnalysisResult]: the affectors and the codes found for a
    function. *)
Record funcAnalysisResult : Type := mkFuncAnalysisResult {
  affectors : gset ExprPtr;
  codes : codeSet;
}.

(** Modelled from the spec: [funcAnalysisResult.combineInplace], whose
    source is not in [analyse.go]; the specification (4.F) makes the
    unified result the union of the affectors and of the codes. *)
Definition combineInplace (result other : funcAnalysisResult)
  : funcAnalysisResult :=
  mkFuncAnalysisResult (affectors result ∪ affectors other)
                       (codes result ∪ codes other).

(** [lookup.analysisResults[funcDecl]]: the zero value when the key is
    absent. *)
Definition analysisResultOf (analysisResults : gmap nat funcAnalysisResult)
    (funcDecl : FuncDecl) : funcAnalysisResult :=
  default (mkFuncAnalysisResult ∅ ∅) (analysisResults !! funcNode funcDecl).

(** [unifyAnalysisResultForComponent] sets the analysis result of each
    function in the given component to a combined result, containing all
    the error codes and affectors that result from the analysis of the
    individual functions. *)
Definition unifyAnalysisResultForComponent
    (analysisResults : gmap nat funcAnalysisResult)
    (component : list FuncDecl)
  : funcAnalysisResult * gmap nat funcAnalysisResult :=
  let result :=
    foldl (λ result funcDecl,
             combineInplace result (analysisResultOf analysisResults funcDecl))
          (mkFuncAnalysisResult ∅ ∅) component in
  let analysisResults :=
    foldl (λ analysisResults funcDecl,
             <[funcNode funcDecl := result]> analysisResults)
          analysisResults component in
  (result, analysisResults).

(** The end of [findAffectorsOfErrorReturnInFunc], after the return
    statements of [funcDecl] gave [result]: the result is stored, and
    unified with the results of the component that [scc.EndVisit] reports
    when [funcDecl] is the root of one. *)
Definition endOfVisit (analysisResults : gmap nat funcAnalysisResult)
    (funcDecl : FuncDecl) (result : funcAnalysisResult)
    (endVisit : bool * list FuncDecl)
  : funcAnalysisResult * gmap nat funcAnalysisResult :=
  let analysisResults := <[funcNode funcDecl := result]> analysisResults in
  let '(isComponentRoot, component) := endVisit in
  if isComponentRoot then
    unifyAnalysisResultForComponent analysisResults component
  else (result, analysisResults).

End Components.

(** ** The collection of the declarations *)

(** [collectFunctions] creates a [funcLookup].  [decls] are the function
    declarations of the package in the order the inspector yields them;
    the function literal given to [inspect.Nodes] is the step of the
    fold. *)
Definition collectFunctions (decls : list FuncDecl) : funcLookup :=
  foldl (λ result funcDecl,
    let name := Name (FuncName funcDecl) in
    match Recv funcDecl with
    | None | Some [] =>
      mkFuncLookup (<[name := funcDecl]> (functions result)) (methods result)
    | Some _ =>
      mkFuncLookup (functions result)
        (<[name := default [] (methods result !! name) ++ [funcDecl]]>
           (methods result))
    end) (mkFuncLookup ∅ ∅) decls.

(** ** The facts of the error types, and the codes of the affectors *)

(** [getNamedType] casts the given type to [*types.Named] if possible,
    unpacking pointers if they occur; it returns nil if said conversion
    fails.  A named type is given by its declaration, the object its
    method [Obj] returns. *)
Fixpoint getNamedType (typ : gotype) : option nat :=
  match typ with
  | Named typeName => Some typeName
  | Pointer elem => getNamedType elem
  | _ => None
  end.

Definition noCodeMethod : string :=
  ("found no method " ++ fmt_q "Code() string" ++ " for given error")%string.

Definition noFieldDefinition : string :=
  "cannot extract field error code without field definition".

Definition noConstantValue : string :=
  "error code field has to be instantiated by constant value".

Section AffectorCodes.
Variable pass : Pass.
Variable objects : Objects.
Variable lookup : funcLookup.

(** [getErrorTypeForError] gets the [ErrorType] for the given error from
    cache, or on a cache miss computes said [ErrorType] and stores it in the
    cache.  The cache is the object facts of the pass, a map from the
    declaration of a named type to its fact: [pass.ImportObjectFact] reads
    it, [pass.ExportObjectFact] writes it.  The result is the pair the
    function returns, and the cache and the diagnostics after the call. *)
Definition getErrorTypeForError (err : gotype) (facts : gmap nat ErrorType)
    (diags : list Diagnostic)
  : outcome ((option ErrorType * option string)
             * gmap nat ErrorType * list Diagnostic) :=
  match getNamedType err with
  | None =>
    Done ((None, Some "passed invalid err type to getErrorTypeForError"%string),
          facts, diags)
  | Some namedErr =>
    match facts !! namedErr with
    | Some errorType => Done ((Some errorType, None), facts, diags)
    | None =>
      found ← getCodeFuncFromError pass lookup err;
      match found with
      | None => Done ((None, Some noCodeMethod), facts, diags)
      | Some (funcDecl, receiver) =>
        '(errorType, diags) ←
          analyseCodeMethod pass objects funcDecl receiver diags;
        match errorType with
        | Some fact => Done ((errorType, None), <[namedErr := fact]> facts, diags)
        | None => Done ((None, None), facts, diags)
        end
      end
    end
  end.

(** [checkErrorTypeHasLegibleCode] makes sure that the [Code() string]
    function is present on the type of the expression. *)
Definition checkErrorTypeHasLegibleCode (seen : expr) : bool :=
  Implements pass (TypeOf pass seen) tReeError.

(** The loop of [extractFieldErrorCodes] over the elements of a key-based
    composite literal: what the loop returns, or [None] when it ends or
    breaks. *)
Fixpoint keyLoop (elts : list expr) (fieldName : string)
  : option (string + string) :=
  match elts with
  | KeyValueExpr (IdentExpr ident) value :: elts' =>
    if String.eqb fieldName (Name ident) then
      match ConstValue pass value with
      | Some value => Some (getErrorCodeFromConstant value)
      | None => keyLoop elts' fieldName
      end
    else keyLoop elts' fieldName
  | _ => None
  end.

(** [extractFieldErrorCodes] finds a possible error code from the given
    constructor expression: the code, or the error. *)
Fixpoint extractFieldErrorCodes (e : expr) (funcDecl : FuncDecl)
    (errorType : option ErrorType) {struct e} : outcome (string + string) :=
  match errorType ≫= TypeField with
  | None => Done (inr noFieldDefinition)
  | Some field =>
    match e with
    | CompositeLit _ elts =>
      match keyLoop elts (FieldName field) with
      | Some result => Done result
      | None =>
        let pos := Position field in
        if pos <? Z.of_nat (length elts) then
          if pos <? 0 then
            Panic ("runtime error: index out of range [" ++ pretty pos ++ "]")
          else
            match elts !! Z.to_nat pos ≫= ConstValue pass with
            | Some value => Done (getErrorCodeFromConstant value)
            | None => Done (inr noConstantValue)
            end
        else Done (inr noConstantValue)
      end
    | UnaryExpr op x =>
      if bool_decide (op = AND) then extractFieldErrorCodes x funcDecl errorType
      else Done (inr noConstantValue)
    | _ => Done (inr noConstantValue)
    end
  end.

(** Modelled from the spec: [sliceToSet], whose source is not in
    [analyse.go]; the specification (4.A) has a set of codes made from a
    slice. *)
Definition sliceToSet (l : list string) : codeSet := list_to_set l.

(** Modelled from the spec: [unionInplace], whose source is not in
    [analyse.go]; the specification (4.A) makes it the union of two sets
    of codes. *)
Definition unionInplace (s other : codeSet) : codeSet := s ∪ other.

(** Modelled from the spec: [codeSet.add], whose source is not in
    [analyse.go]; the set of the specification (4.A) with one more
    code. *)
Definition add (s : codeSet) (code : string) : codeSet := {[code]} ∪ s.

Definition notAValidError : string :=
  "expression is not a valid error: error types must return constant error codes or a single field".

(** The body of the loop of [extractErrorCodesFromAffectors] over the
    affectors; the state is the set [result], the facts of the error types
    and the diagnostics. *)
Definition extractErrorCodes_step (funcDecl : FuncDecl) (affector : expr)
    (s : codeSet * gmap nat ErrorType * list Diagnostic)
  : outcome (codeSet * gmap nat ErrorType * list Diagnostic) :=
  let '(result, facts, diags) := s in
  if negb (checkErrorTypeHasLegibleCode affector) then
    Done (result, facts,
          ReportRangef diags (NExpr affector)
            "expression does not define an error code")
  else
    '((errorType, err), facts, diags) ←
      getErrorTypeForError (TypeOf pass affector) facts diags;
    let diags :=
      match err, errorType with
      | None, Some _ => diags
      | _, _ => ReportRangef diags (NExpr affector) notAValidError
      end in
    match err, errorType with
    | None, Some fact =>
      let result :=
        if (0 <? length (TypeCodes fact))%nat
        then unionInplace result (sliceToSet (TypeCodes fact))
        else result in
      match TypeField fact with
      | Some _ =>
        extracted ← extractFieldErrorCodes affector funcDecl errorType;
        match extracted with
        | inl code => Done (add result code, facts, diags)
        | inr err => Done (result, facts, ReportRangef diags (NExpr affector) err)
        end
      | None => Done (result, facts, diags)
      end
    | _, _ => Done (result, facts, diags)
    end.

(** [extractErrorCodesFromAffectors] extracts all error codes from the given
    affectors and returns them.  [affectors] are the affectors in the order
    the loop ranges over them. *)
Definition extractErrorCodesFromAffectors (funcDecl : FuncDecl)
    (affectors : list expr) (facts : gmap nat ErrorType)
    (diags : list Diagnostic)
  : outcome (codeSet * gmap nat ErrorType * list Diagnostic) :=
  forM (extractErrorCodes_step funcDecl) affectors (∅, facts, diags).

End AffectorCodes.

(** ** The comparison of the codes found with the codes claimed *)

(** Modelled from the spec: [difference], whose source is not in
    [analyse.go]; the specification (4.A) makes it the difference of two
    sets of codes. *)
Definition difference (s other : codeSet) : codeSet := s ∖ other.

(** [sort.Strings]: the slice in increasing order. *)
Definition sort_Strings (l : list string) : list string := merge_sort strLe l.

(** [strings.Join] *)
Definition strings_Join (elems : list string) (sep : string) : string :=
  String.concat sep elems.

(** The verb [%v] on a slice of strings: the elements between brackets,
    separated by spaces. *)
Definition fmt_v (l : list string) : string :=
  ("[" ++ strings_Join l " " ++ "]")%string.

(** [reportIfCodesDoNotMatch] emits a diagnostic if the given code
    collections don't match. *)
Definition reportIfCodesDoNotMatch (funcDecl : FuncDecl)
    (foundCodes claimedCodes : codeSet) (diags : list Diagnostic)
  : list Diagnostic :=
  let missingCodes := slice (difference foundCodes claimedCodes) in
  let unusedCodes := slice (difference claimedCodes foundCodes) in
  let errorMessages : list string := [] in
  let errorMessages :=
    if negb (length missingCodes =? 0)%nat then
      errorMessages
      ++ [("missing codes: " ++ fmt_v (sort_Strings missingCodes))%string]
    else errorMessages in
  let errorMessages :=
    if negb (length unusedCodes =? 0)%nat then
      errorMessages
      ++ [("unused codes: " ++ fmt_v (sort_Strings unusedCodes))%string]
    else errorMessages in
  if negb (length errorMessages =? 0)%nat then
    let errorMessage := strings_Join errorMessages " " in
    Reportf diags (FuncPos funcDecl)
      ("function " ++ fmt_q (Name (FuncName funcDecl))
       ++ " has a mismatch of declared and actual error codes: "
       ++ errorMessage)%string
  else diags.

(** [ErrorCodes.String]: the rendering of the fact, and the fact after the
    call, which sorts its slice in place. *)
Definition ErrorCodes_String (e : ErrorCodes) : string * ErrorCodes :=
  let sorted := sort_Strings (Codes e) in
  (("ErrorCodes: " ++ strings_Join sorted " ")%string, mkErrorCodes sorted).

(** ** The affector engine before the set of visited identifiers *)

(** The revision of [findAffectorsInFunc] in [analysis/analyse.go], which
    has the same cases and the same function literal, and neither the set
    [visited] nor the check that the identifier is a local variable.  The
    component [visited] of the state is carried along unchanged. *)
Module Earlier.
Section Affectors.
Variable pass : Pass.

Fixpoint findAffectorsInFunc (fuel : nat) (e : expr) (within : FuncDecl)
    (st : taintState) : outcome (list expr * taintState) :=
  match fuel with
  | O => OutOfFuel
  | S fuel =>
    match e with
    | CallExpr _ _ => Done ([e], st)
    | IdentExpr exprt =>
      Inspect (findAffectors_visit
                 (λ rhs st, findAffectorsInFunc fuel rhs within st) exprt)
              within ([], st)
    | UnaryExpr op _ =>
      if bool_decide (op = AND) && Implements pass (TypeOf pass e) tError then
        Done ([e], st)
      else
        Done ([], mkTaintState (visited st)
                    (ReportRangef (taintDiags st) (NExpr e)
                       "expression does not implement valid error type"))
    | CompositeLit _ _ | BasicLit _ => Done ([e], st)
    | _ => Done ([], st)
    end
  end.

End Affectors.
End Earlier.

(** ** The affectors of the error a function returns, across calls *)

(** The services [findAffectors] asks of the type checker, besides those
    of [Pass]. *)
Record Resolver : Type := mkResolver {
  (** [typeutil.Callee], on a call: the function object called, or nil *)
  Callee : expr → option nat;
  (** [pass.TypesInfo.ObjectOf], when the object is a [*types.PkgName]:
      the name of the imported package *)
  PkgNameOf : Ident → option string;
  (** [pass.TypesInfo.ObjectOf], on the name of a declaration *)
  ObjectOf : Ident → option nat;
  (** [pass.TypesInfo.Selections[e].Recv()], for a selector [e] that is
      the selection of a field or of a method *)
  SelectionRecv : expr → gotype;
  (** [lookup.methodSet.MethodSet(t).Lookup(pass.Pkg, name)]: the object
      of the method found, or nil *)
  MethodSetLookup : gotype → string → option nat;
}.

(** Modelled from the spec: [union], whose source is not in [analyse.go];
    the specification (4.A) makes it the union of two sets of codes. *)
Definition union (s other : codeSet) : codeSet := s ∪ other.

Definition neitherIdentNorSelector : string :=
  "Fun of an ast.CallExpr which is neither an ast.Ident nor an ast.SelectorExpr".

Section AcrossCalls.
Variable pass : Pass.
Variable resolver : Resolver.
Variable objects : Objects.
(** The declaration at an address: what [funst.Obj.Decl] points to when it
    is a [*ast.FuncDecl]. *)
Variable funcDeclAt : nat → FuncDecl.
(** The facts [pass.ImportObjectFact] finds for function objects. *)
Variable funcFacts : gmap nat ErrorCodes.
Variable lookup : funcLookup.

(** What the functions of this section return: the affectors, the codes,
    and the diagnostics of the pass. *)
Definition found : Type := list expr * codeSet * list Diagnostic.

(** The loop of [findAffectors] over the methods of the name called: the
    declaration whose object is the method searched. *)
Definition searchMethod (methods : list FuncDecl) (searched : nat)
  : option FuncDecl :=
  head (filter (λ method, ObjectOf resolver (FuncName method) = Some searched)
               methods).

(** The declaration a call by selector [funst] (of [x.sel]) resolves
    to. *)
Definition calledMethod (funst : expr) (sel : Ident) : option FuncDecl :=
  match methods lookup !! Name sel with
  | Some (method :: methods') =>
    let recv := SelectionRecv resolver funst in
    let searchedMethodType := MethodSetLookup resolver recv (Name sel) in
    let searchedMethodType :=
      match searchedMethodType, recv with
      | None, Pointer _ => None
      | None, _ => MethodSetLookup resolver (Pointer recv) (Name sel)
      | Some _, _ => searchedMethodType
      end in
    searchedMethodType ≫= searchMethod (method :: methods')
  | _ => None
  end.

(** The body of the loop of [findAffectors] over the results of
    [findAffectorsInFunc].  [recur] is the call of
    [findAffectorsOfErrorReturnInFunc] on the function called. *)
Definition findAffectors_step
    (recur : FuncDecl → list Diagnostic → outcome found)
    (x : expr) (s : found) : outcome found :=
  let '(affectors, codes, diags) := s in
  let enter (calledFunc : option FuncDecl) (fn : expr) : outcome found :=
    match calledFunc with
    | Some calledFunc =>
      '(newAffectors, newCodes, diags) ← recur calledFunc diags;
      Done (affectors ++ newAffectors, union codes newCodes, diags)
    | None =>
      Done (affectors, codes,
            ReportRangef diags (NExpr fn)
              "called function does not declare error codes")
    end in
  match x with
  | CallExpr fn args =>
    match Callee resolver x ≫= (funcFacts !!.) with
    | Some fact => Done (affectors, union codes (sliceToSet (Codes fact)), diags)
    | None =>
      match fn with
      | IdentExpr funst =>
        match Obj funst ≫= (objects !!.) with
        | None =>
          Panic "runtime error: invalid memory address or nil pointer dereference"
        | Some obj =>
          match ObjDecl obj with
          | DeclFuncDecl funcNode => enter (Some (funcDeclAt funcNode)) fn
          | DeclTypeSpec _ => Done (affectors ++ [x], codes, diags)
          | _ => enter None fn
          end
        end
      | SelectorExpr target sel =>
        match match target with
              | IdentExpr target => PkgNameOf resolver target
              | _ => None
              end with
        | Some imported =>
          Done (affectors, codes,
                ReportRangef diags (NExpr fn)
                  ("function " ++ fmt_q (Name sel) ++ " in package "
                   ++ fmt_q imported ++ " does not declare error codes"))
        | None => enter (calledMethod fn sel) fn
        end
      | _ => Panic neitherIdentNorSelector
      end
    end
  | _ => Done (affectors ++ [x], codes, diags)
  end.

(** [findAffectors] applies [findAffectorsInFunc], and then keeps going
    until it has resolved everything.  [fuel] bounds the depth of the
    recursion of [findAffectorsInFunc]. *)
Definition findAffectors (fuel : nat)
    (recur : FuncDecl → list Diagnostic → outcome found)
    (e : expr) (startingFunc : FuncDecl) (diags : list Diagnostic)
  : outcome found :=
  '(stepResults, st) ←
    Earlier.findAffectorsInFunc pass fuel e startingFunc (mkTaintState ∅ diags);
  forM (findAffectors_step recur) stepResults ([], ∅, taintDiags st).

(** The expression a return statement returns for the error: its last
    result, or the last name of the last result of the function when the
    return statement has no result. *)
Definition resultExpression (funcDecl : FuncDecl) (results : list expr)
  : outcome expr :=
  match last results with
  | Some result => Done result
  | None =>
    match Results funcDecl with
    | None =>
      Panic "runtime error: invalid memory address or nil pointer dereference"
    | Some resultsList =>
      match last (List resultsList) with
      | None =>
        Panic "Should be unreachable: we already know that the function signature contains an error result."
      | Some resultType =>
        match last (fieldNames resultType) with
        | None =>
          Panic "Should be unreachable: an empty return statement requires either empty result list or named results."
        | Some name => Done (IdentExpr name)
        end
      end
    end
  end.

(** The function literal [findAffectorsOfErrorReturnInFunc] gives to
    [ast.Inspect]. *)
Definition errorReturn_visit
    (findAffectors : expr → FuncDecl → list Diagnostic → outcome found)
    (funcDecl : FuncDecl) (n : node) (s : found) : outcome (bool * found) :=
  match n with
  | NExpr (FuncLit _) => Done (false, s)
  | NStmt (ReturnStmt results) =>
    let '(affectors, codes, diags) := s in
    resultExpression ← resultExpression funcDecl results;
    '(newAffectors, newCodes, diags) ←
      findAffectors resultExpression funcDecl diags;
    Done (false, (affectors ++ newAffectors, union codes newCodes, diags))
  | _ => Done (true, s)
  end.

(** [findAffectorsOfErrorReturnInFunc]: the affectors and the codes of the
    error the function returns.  [fuel] bounds the depth of the calls the
    analysis follows, and of the recursion of [findAffectorsInFunc]. *)
Fixpoint findAffectorsOfErrorReturnInFunc (fuel : nat) (funcDecl : FuncDecl)
    (diags : list Diagnostic) : outcome found :=
  match fuel with
  | O => OutOfFuel
  | S fuel =>
    Inspect (errorReturn_visit
               (findAffectors fuel (findAffectorsOfErrorReturnInFunc fuel))
               funcDecl)
            funcDecl ([], ∅, diags)
  end.

(** The body of the last loop of [runVerify], for the function [funcDecl]
    that claims the codes [claimedCodes]: the diagnostics, and the facts
    of the error types, after it. *)
Definition verifyClaim (fuel : nat) (funcDecl : FuncDecl)
    (claimedCodes : codeSet) (typeFacts : gmap nat ErrorType)
    (diags : list Diagnostic)
  : outcome (gmap nat ErrorType * list Diagnostic) :=
  '(affectOrigins, foundCodes, diags) ←
    findAffectorsOfErrorReturnInFunc fuel funcDecl diags;
  '(affectorCodes, typeFacts, diags) ←
    extractErrorCodesFromAffectors pass objects lookup funcDecl affectOrigins
      typeFacts diags;
  let foundCodes := union foundCodes affectorCodes in
  Done (typeFacts, reportIfCodesDoNotMatch funcDecl foundCodes claimedCodes diags).

End AcrossCalls.

(** ** Notions the properties are stated with *)

(** What a computation establishes when it runs out of fuel in no case: it
    returns a value that satisfies [I], or it panics. *)
Definition post {A : Type} (I : A → Prop) (o : outcome A) : Prop :=
  match o with
  | Done a => I a
  | Panic _ => True
  | OutOfFuel => False
  end.

(** The identifier nodes of an expression, a field, a statement. *)
Fixpoint exprIdents (e : expr) : gset nat :=
  match e with
  | IdentExpr id => {[identNode id]}
  | BasicLit _ => ∅
  | CompositeLit type elts =>
    from_option exprIdents ∅ type ∪ ⋃ (exprIdents <$> elts)
  | FuncLit body => ⋃ (stmtIdents <$> body)
  | SelectorExpr x sel => exprIdents x ∪ {[identNode sel]}
  | CallExpr fn args => exprIdents fn ∪ ⋃ (exprIdents <$> args)
  | StarExpr x => exprIdents x
  | UnaryExpr _ x => exprIdents x
  | KeyValueExpr key value => exprIdents key ∪ exprIdents value
  | StructType fields => ⋃ (fieldIdents <$> fields)
  | OtherExpr _ children => ⋃ (exprIdents <$> children)
  end
with fieldIdents (f : field) : gset nat :=
  match f with
  | Field _ names type => list_to_set (identNode <$> names) ∪ exprIdents type
  end
with stmtIdents (s : stmt) : gset nat :=
  match s with
  | AssignStmt lhs rhs => ⋃ (exprIdents <$> lhs) ∪ ⋃ (exprIdents <$> rhs)
  | ReturnStmt results => ⋃ (exprIdents <$> results)
  | ExprStmt x => exprIdents x
  | BlockStmt stmts => ⋃ (stmtIdents <$> stmts)
  | IfStmt init cond body els =>
    from_option stmtIdents ∅ init ∪ exprIdents cond
    ∪ ⋃ (stmtIdents <$> body) ∪ from_option stmtIdents ∅ els
  | OtherStmt _ children =>
    ⋃ ((λ child, match child with
                 | inl e => exprIdents e
                 | inr s => stmtIdents s
                 end) <$> children)
  end.

Definition nodeIdents (n : node) : gset nat :=
  match n with
  | NExpr e => exprIdents e
  | NField f => fieldIdents f
  | NStmt s => stmtIdents s
  end.

(** The identifier nodes of the body of a declaration. *)
Definition bodyIdents (d : FuncDecl) : gset nat :=
  match Body d with
  | Some b => ⋃ (stmtIdents <$> Stmts b)
  | None => ∅
  end.

(** The fuel that is enough for [findAffectorsInFunc]: one call for each
    identifier node of the body that is not visited yet, and two more. *)
Definition enoughFuel (within : FuncDecl) (st : taintState) : nat :=
  S (S (size (bodyIdents within ∖ visited st))).


Definition Forall_all {A : Type} {P : A → Prop} (f : ∀ x, P x)
  : ∀ l, Forall P l :=
  fix go l :=
    match l with
    | [] => Stdlib.Lists.List.Forall_nil P
    | x :: l' => Stdlib.Lists.List.Forall_cons P x l' (f x) (go l')
    end.

Definition option_all {A : Type} {P : A → Prop} (f : ∀ x, P x)
  : ∀ o, from_option P True o :=
  λ o, match o with Some x => f x | None => I end.

(** The declarations [forEach] calls its argument on, in order. *)
Definition allFuncs (lookup : funcLookup) : list FuncDecl :=
  (snd <$> map_to_list (functions lookup))
  ++ concat (snd <$> map_to_list (methods lookup)).

(** The test of [isErrorCodeValid] on a byte. *)
Definition codeByte (c : ascii) : bool := isErrorCodeRune (GoString.byteZ c).

Section PrePassNotions.
Variable pass : Pass.







End PrePassNotions.

(** What a computation establishes whenever it returns. *)
Definition ensures {A : Type} (I : A → Prop) (o : outcome A) : Prop :=
  match o with
  | Done a => I a
  | _ => True
  end.

(** A fact of an error type is well formed: its codes are valid, the
    position of its field is an index, and it has a code or a field. *)
Definition wellFormed (fact : ErrorType) : Prop :=
  Forall (λ code, isErrorCodeValid code = true) (TypeCodes fact) ∧
  (∀ field, TypeField fact = Some field → 0 ≤ Position field) ∧
  (TypeCodes fact ≠ [] ∨ TypeField fact ≠ None).

(** The positions of the fields of a struct type: one for each name of a
    field, and one for a field without a name (an embedded field). *)
Definition slots (fields : list field) : list (option string) :=
  fields ≫= λ fld,
    match fieldNames fld with
    | [] => [None]
    | names => (Some ∘ Name) <$> names
    end.

(** A declaration with a receiver, which [collectFunctions] files under
    the methods. *)
Definition hasReceiver (f : FuncDecl) : bool :=
  match Recv f with
  | Some (_ :: _) => true
  | _ => false
  end.

(** The methods, and the functions, of the name [name] among [decls]. *)
Definition methodsNamed (name : string) (decls : list FuncDecl)
  : list FuncDecl :=
  filter (λ f, hasReceiver f = true ∧ Name (FuncName f) = name) decls.

Definition functionsNamed (name : string) (decls : list FuncDecl)
  : list FuncDecl :=
  filter (λ f, hasReceiver f = false ∧ Name (FuncName f) = name) decls.

(** The receiver of a method, when it has one name. *)
Definition receiverOf (f : FuncDecl) : option Ident :=
  match Recv f with
  | Some (Field _ [name] _ :: _) => Some name
  | _ => None
  end.

(** The type of the receiver of the method [f] is the type [err], or the
    type [err] is the pointer to. *)
Definition receiverMatches (pass : Pass) (err : gotype) (f : FuncDecl)
  : bool :=
  match Recv f with
  | Some (receiverField :: _) =>
    errorTypesSubset (TypeOf pass (fieldType receiverField)) err
  | _ => false
  end.

(** The expressions at which [findAffectorsInFunc] stops: a call, a
    composite or basic literal, and the address of a value when the
    pointer implements [error]. *)
Definition boundary (pass : Pass) (e : expr) : bool :=
  match e with
  | CallExpr _ _ | CompositeLit _ _ | BasicLit _ => true
  | UnaryExpr op _ =>
    bool_decide (op = AND) && Implements pass (TypeOf pass e) tError
  | _ => false
  end.

(** From the state [st0] on, the engine has found expressions at which it
    stops only, and it has kept the visited identifiers and the
    diagnostics of [st0]. *)
Definition tainted (pass : Pass) (st0 : taintState)
    (s : list expr * taintState) : Prop :=
  Forall (λ a, boundary pass a = true) s.1 ∧
  visited st0 ⊆ visited s.2 ∧
  taintDiags st0 `prefix_of` taintDiags s.2.


(** Every code of [codes] is a code of a fact of a function. *)
Definition fromFacts (funcFacts : gmap nat ErrorCodes) (codes : codeSet)
  : Prop :=
  ∀ code, code ∈ codes →
    ∃ fn fact, funcFacts !! fn = Some fact ∧ code ∈ Codes fact.

(** What the analysis across calls has found, from the diagnostics
    [diags0] on: affectors at which the engine stops, codes of the facts
    of functions, and the diagnostics [diags0] first. *)
Definition sound (pass : Pass) (funcFacts : gmap nat ErrorCodes)
    (diags0 : list Diagnostic) (s : found) : Prop :=
  Forall (λ a, boundary pass a = true) s.1.1 ∧
  fromFacts funcFacts s.1.2 ∧
  diags0 `prefix_of` s.2.

(** The capability the specification names: the methods [Error() string],
    [Code() string] and [Cause() error] are in the method set of the type,
    the result of [Cause] being the predeclared [error]. *)
Definition codedErrorWithCause
    (methodsOf : gotype → list (string * resultType)) (t : gotype) : bool :=
  forallb (λ m, bool_decide (m ∈ methodsOf t))
    [("Error"%string, rString); ("Code"%string, rString);
     ("Cause"%string, rError)].

(** The result lists of the return statements of a statement, in the order
    [ast.Inspect] reaches them.  The return statements of a function
    literal are not among them: they are inside an expression. *)
Fixpoint returnStmts (s : stmt) : list (list expr) :=
  match s with
  | ReturnStmt results => [results]
  | AssignStmt _ _ | ExprStmt _ => []
  | BlockStmt stmts => stmts ≫= returnStmts
  | IfStmt init _ body els =>
    from_option returnStmts [] init
    ++ (body ≫= returnStmts)
    ++ from_option returnStmts [] els
  | OtherStmt _ children =>
    children ≫= λ child,
      match child with
      | inl _ => []
      | inr s => returnStmts s
      end
  end.

(** What the function literal of [analyseCodeMethod] does to the state at
    a return statement with the results [results]. *)
Definition visitReturn (pass : Pass) (funcDecl : FuncDecl)
    (receiver : option Ident) (results : list expr) (st : codeMethodState)
  : outcome codeMethodState :=
  '(_, st) ←
    analyseCodeMethod_visit pass funcDecl receiver
      (NStmt (ReturnStmt results)) st;
  Done st.

(** The return statement returns one value, and this value is a constant
    or is no field selected from the receiver. *)
Definition returnsNoField (pass : Pass) (receiver : Ident)
    (results : list expr) : Prop :=
  ∃ result, results = [result] ∧
    (is_Some (ConstValue pass result)
     ∨ returnedField (Some receiver) result = None).

(** The diagnostic at a return statement that returns the field [sel]
    after the field [first] has been returned. *)
Definition onlySingleField (results : list expr) (sel first : string)
  : Diagnostic :=
  mkDiagnostic (AtNode (NStmt (ReturnStmt results)))
    ("only single field allowed: cannot return field "
     ++ fmt_q sel ++ " because field "
     ++ fmt_q first ++ " was returned previously").

(** The diagnostic at the declaration of a method [Code] whose field
    [name] has no position in the struct of the receiver. *)
Definition notAValidField (funcDecl : FuncDecl) (name : string) : Diagnostic :=
  mkDiagnostic (AtPos (FuncPos funcDecl))
    ("returned field " ++ fmt_q name
     ++ " is not a valid error code field (promoted fields are not supported currently, but might be added in the future)").

(** ** Programs the properties are checked on *)

Module Sample.

Definition nl : string := String "010" EmptyString.

Definition ident (n : nat) (name : string) (obj : option nat) : Ident :=
  mkIdent n 0 name obj.

(** The types of the examples: the predeclared [error], the struct types
    [Error] (methods on [*Error]) and [E] (methods on [E]). *)
Definition errorT : gotype := Named 1.
Definition ErrorT : gotype := Named 2.
Definition ET : gotype := Named 3.

Definition typeOfName (name : string) : gotype :=
  if String.eqb name "error" then errorT
  else if String.eqb name "Error" then ErrorT
  else if String.eqb name "E" then ET
  else Basic name.

Fixpoint typeOf (e : expr) : gotype :=
  match e with
  | IdentExpr id => typeOfName (Name id)
  | StarExpr x => Pointer (typeOf x)
  | UnaryExpr AND x => Pointer (typeOf x)
  | CompositeLit (Some t) _ => typeOf t
  | BasicLit _ => Basic "string"
  | _ => OtherType 0
  end.

(** The method sets: [error] has [Error() string]; [*Error] has the
    methods [Error() string], [Code() string] and [Cause() error]; [E] and
    [*E] have [Error() string] and [Code() string]. *)
Definition methodsOf (t : gotype) : list (string * resultType) :=
  match t with
  | Named 1 => [("Error"%string, rString)]
  | Pointer (Named 2) =>
    [("Error"%string, rString); ("Code"%string, rString);
     ("Cause"%string, rError)]
  | Named 3 | Pointer (Named 3) =>
    [("Error"%string, rString); ("Code"%string, rString)]
  | _ => []
  end.

Definition implements : gotype → Interface → bool := types_Implements methodsOf.

Definition pass : Pass := {|
  TypeOf := typeOf;
  ConstValue := λ e,
    match e with
    | BasicLit v => Some (mkConstant KString v)
    | _ => None
    end;
  Implements := implements;
  Defs := λ id, Some (TFunc (identNode id));
  Upper := λ _, false;
|}.

Definition errorResult (p : Pos) (n : nat) : FieldList :=
  mkFieldList p [Field p [] (IdentExpr (ident n "error" None))].

Definition returnNil (n : nat) : stmt :=
  ReturnStmt [IdentExpr (ident n "nil" None)].

(** [// CorrectNoErrors1 returns no errors and correctly declares that.
     //
     // Errors: none
     func CorrectNoErrors1() error { return nil }] *)
Definition CorrectNoErrors1 : FuncDecl := {|
  funcNode := 1;
  Doc := Some ("CorrectNoErrors1 returns no errors and correctly declares that."
               ++ nl ++ nl ++ "Errors: none" ++ nl)%string;
  Recv := None;
  FuncName := ident 100 "CorrectNoErrors1" None;
  FuncPos := 90;
  Results := Some (errorResult 115 101);
  Body := Some (mkBlock 121 [returnNil 102] 134);
|}.

(** The objects of [type Error struct { TheCode string; Other string }] and
    of the receiver [e] of its methods, declared [(e *Error)]. *)
Definition receiver : Ident := ident 110 "e" (Some 10%nat).

Definition receiverField : field :=
  Field 205 [receiver] (StarExpr (IdentExpr (ident 111 "Error" (Some 11%nat)))).

Definition ErrorStruct : expr :=
  StructType [Field 20 [ident 112 "TheCode" None]
                (IdentExpr (ident 113 "string" None));
              Field 21 [ident 114 "Other" None]
                (IdentExpr (ident 115 "string" None))].

(** The objects of [type E struct { TheCode string }] and of the receiver
    [e] of its methods, declared [(e E)]. *)
Definition valueReceiver : Ident := ident 120 "e" (Some 20%nat).

Definition valueReceiverField : field :=
  Field 305 [valueReceiver] (IdentExpr (ident 121 "E" (Some 21%nat))).

Definition EStruct : expr :=
  StructType [Field 30 [ident 122 "TheCode" None]
                (IdentExpr (ident 123 "string" None))].

Definition objects : Objects :=
  {[ 10%nat := mkObject Var "e" (DeclField receiverField) 206;
     11%nat := mkObject Typ "Error" (DeclTypeSpec ErrorStruct) 15;
     20%nat := mkObject Var "e" (DeclField valueReceiverField) 306;
     21%nat := mkObject Typ "E" (DeclTypeSpec EStruct) 25;
     30%nat := mkObject Var "x" DeclOther 1010;
     31%nat := mkObject Var "err" DeclOther 1013;
     40%nat := mkObject Var "err" DeclOther 810;
     50%nat := mkObject Var "a" DeclOther 1110;
     51%nat := mkObject Var "b" DeclOther 1113 ]}.

Definition selector (n : nat) (recv : Ident) (m : nat) (name : string) : expr :=
  SelectorExpr (IdentExpr (mkIdent n 0 (Name recv) (Obj recv)))
               (ident m name None).

Definition returnTheCode : stmt := ReturnStmt [selector 143 receiver 144 "TheCode"].
Definition returnOther : stmt := ReturnStmt [selector 141 receiver 142 "Other"].

(** [func (e *Error) Code() string {
       if e.Other != "" { return e.Other }
       return e.TheCode
     }] *)
Definition CodeTwoFields : FuncDecl := {|
  funcNode := 3;
  Doc := None;
  Recv := Some [receiverField];
  FuncName := ident 140 "Code" None;
  FuncPos := 400;
  Results := Some (mkFieldList 425 [Field 425 [] (IdentExpr (ident 145 "string" None))]);
  Body := Some (mkBlock 432
    [IfStmt None
       (OtherExpr "BinaryExpr" [selector 146 receiver 147 "Other"; BasicLit (fmt_q "")])
       [returnOther] None;
     returnTheCode] 490);
|}.

(** [func (e E) Code() string { return e.TheCode }] *)
Definition CodeValueReceiver : FuncDecl := {|
  funcNode := 4;
  Doc := None;
  Recv := Some [valueReceiverField];
  FuncName := ident 150 "Code" None;
  FuncPos := 500;
  Results := Some (mkFieldList 525 [Field 525 [] (IdentExpr (ident 151 "string" None))]);
  Body := Some (mkBlock 532
    [ReturnStmt [selector 152 valueReceiver 153 "TheCode"]] 560);
|}.

(** [func Good() (int, error)] and [func Bad() (error, int)] *)
Definition intField (p : Pos) (n : nat) : field :=
  Field p [] (IdentExpr (ident n "int" None)).
Definition errorField (p : Pos) (n : nat) : field :=
  Field p [] (IdentExpr (ident n "error" None)).

Definition Good : FuncDecl := {|
  funcNode := 5;
  Doc := None;
  Recv := None;
  FuncName := ident 160 "Good" None;
  FuncPos := 600;
  Results := Some (mkFieldList 612 [intField 613 161; errorField 618 162]);
  Body := Some (mkBlock 625 [] 626);
|}.

Definition Bad : FuncDecl := {|
  funcNode := 6;
  Doc := None;
  Recv := None;
  FuncName := ident 170 "Bad" None;
  FuncPos := 700;
  Results := Some (mkFieldList 711 [errorField 712 171; intField 719 172]);
  Body := Some (mkBlock 724 [] 725);
|}.

Definition lookup : funcLookup := {|
  functions := {[ "Good"%string := Good; "Bad"%string := Bad ]};
  methods := {[ "Code"%string := [CodeTwoFields] ]};
|}.

Definition call (n : nat) (name : string) (args : list expr) : expr :=
  CallExpr (IdentExpr (ident n name None)) args.

(** [func Destructure() (int, error) {
       x, err := f()
       return x, err
     }] *)
Definition xDef : Ident := ident 180 "x" (Some 30%nat).
Definition errDef : Ident := ident 181 "err" (Some 31%nat).
Definition xUse : Ident := ident 183 "x" (Some 30%nat).
Definition errUse : Ident := ident 184 "err" (Some 31%nat).

Definition destructuring : stmt :=
  AssignStmt [IdentExpr xDef; IdentExpr errDef] [call 182 "f" []].

Definition Destructure : FuncDecl := {|
  funcNode := 7;
  Doc := None;
  Recv := None;
  FuncName := ident 185 "Destructure" None;
  FuncPos := 980;
  Results := Some (mkFieldList 999 [intField 1000 186; errorField 1005 187]);
  Body := Some (mkBlock 1008
    [destructuring; ReturnStmt [IdentExpr xUse; IdentExpr errUse]] 1050);
|}.

(** [func SelfAssign() error {
       err := create()
       err = modify(err)
       return err
     }] *)
Definition errAt (n : nat) : Ident := ident n "err" (Some 40%nat).

Definition SelfAssign : FuncDecl := {|
  funcNode := 8;
  Doc := None;
  Recv := None;
  FuncName := ident 190 "SelfAssign" None;
  FuncPos := 780;
  Results := Some (errorResult 798 191);
  Body := Some (mkBlock 800
    [AssignStmt [IdentExpr (errAt 192)] [call 193 "create" []];
     AssignStmt [IdentExpr (errAt 194)]
                [call 195 "modify" [IdentExpr (errAt 196)]];
     ReturnStmt [IdentExpr (errAt 197)]] 900);
|}.

(** [func Cycle() error {
       var a, b error
       a = b
       b = a
       a = &Error{"x"}
       return a
     }] *)
Definition aAt (n : nat) : Ident := ident n "a" (Some 50%nat).
Definition bAt (n : nat) : Ident := ident n "b" (Some 51%nat).

Definition newError : expr :=
  UnaryExpr AND
    (CompositeLit (Some (IdentExpr (ident 206 "Error" (Some 11%nat))))
                  [BasicLit (fmt_q "x")]).

Definition Cycle : FuncDecl := {|
  funcNode := 9;
  Doc := None;
  Recv := None;
  FuncName := ident 199 "Cycle" None;
  FuncPos := 1080;
  Results := Some (errorResult 1098 198);
  Body := Some (mkBlock 1100
    [OtherStmt "DeclStmt" [inl (IdentExpr (aAt 207));
                           inl (IdentExpr (bAt 208));
                           inl (IdentExpr (ident 209 "error" None))];
     AssignStmt [IdentExpr (aAt 200)] [IdentExpr (bAt 201)];
     AssignStmt [IdentExpr (bAt 202)] [IdentExpr (aAt 203)];
     AssignStmt [IdentExpr (aAt 204)] [newError];
     ReturnStmt [IdentExpr (aAt 205)]] 1200);
|}.

(** Two functions that call each other, and the results of their
    analysis before the component they form is completed: the affectors
    are the addresses of the expressions. *)
Definition funcA : FuncDecl := {|
  funcNode := 10;
  Doc := None;
  Recv := None;
  FuncName := ident 210 "A" None;
  FuncPos := 1300;
  Results := Some (errorResult 1310 211);
  Body := None;
|}.

Definition funcB : FuncDecl := {|
  funcNode := 11;
  Doc := None;
  Recv := None;
  FuncName := ident 212 "B" None;
  FuncPos := 1400;
  Results := Some (errorResult 1410 213);
  Body := None;
|}.

Definition resultA : @funcAnalysisResult nat _ _ :=
  mkFuncAnalysisResult {[ 1%nat ]} {[ "x"%string ]}.
Definition resultB : @funcAnalysisResult nat _ _ :=
  mkFuncAnalysisResult {[ 2%nat ]} {[ "y"%string ]}.

(** [func Nothing() () { }], whose result list is empty and not nil. *)
Definition Nothing : FuncDecl := {|
  funcNode := 14;
  Doc := None;
  Recv := None;
  FuncName := ident 300 "Nothing" None;
  FuncPos := 1600;
  Results := Some (mkFieldList 1615 []);
  Body := Some (mkBlock 1618 [] 1620);
|}.

Definition lookupNothing : funcLookup := {|
  functions := {[ "Good"%string := Good; "Nothing"%string := Nothing ]};
  methods := ∅;
|}.

(** [// Declared returns an error.
     //
     // Errors:
     //
     //    - sample-error -- always
     func Declared() error { return &Error{"sample-error", ""} }] *)
Definition newSampleError : expr :=
  UnaryExpr AND
    (CompositeLit (Some (IdentExpr (ident 312 "Error" (Some 11%nat))))
       [BasicLit (fmt_q "sample-error"); BasicLit (fmt_q "")]).

Definition Declared : FuncDecl := {|
  funcNode := 12;
  Doc := Some ("Declared returns an error." ++ nl ++ nl ++ "Errors:" ++ nl
               ++ nl ++ "   - sample-error -- always" ++ nl)%string;
  Recv := None;
  FuncName := ident 310 "Declared" None;
  FuncPos := 1700;
  Results := Some (errorResult 1716 311);
  Body := Some (mkBlock 1722 [ReturnStmt [newSampleError]] 1770);
|}.

(** [func (e *Error) Code() string { return e.TheCode }], and the fact of
    [Error] it gives. *)
Definition CodeOneField : FuncDecl := {|
  funcNode := 13;
  Doc := None;
  Recv := Some [receiverField];
  FuncName := ident 320 "Code" None;
  FuncPos := 1500;
  Results := Some (mkFieldList 1525 [Field 1525 [] (IdentExpr (ident 323 "string" None))]);
  Body := Some (mkBlock 1532 [ReturnStmt [selector 321 receiver 322 "TheCode"]] 1560);
|}.

Definition lookupCode : funcLookup := {|
  functions := {[ "Declared"%string := Declared ]};
  methods := {[ "Code"%string := [CodeOneField] ]};
|}.

Definition factOfError : ErrorType :=
  mkErrorType [] (Some (mkErrorCodeField "TheCode" 0)).

(** [Error{Other: "", TheCode: "sample-error"}] *)
Definition keyedError : expr :=
  CompositeLit (Some (IdentExpr (ident 330 "Error" (Some 11%nat))))
    [KeyValueExpr (IdentExpr (ident 331 "Other" None)) (BasicLit (fmt_q ""));
     KeyValueExpr (IdentExpr (ident 332 "TheCode" None))
                  (BasicLit (fmt_q "sample-error"))].


(** [func Caller() error { return Declared() }], in a package where the
    fact of [Declared] holds its code. *)
Definition Caller : FuncDecl := {|
  funcNode := 16;
  Doc := None;
  Recv := None;
  FuncName := ident 350 "Caller" None;
  FuncPos := 1900;
  Results := Some (errorResult 1914 352);
  Body := Some (mkBlock 1920 [ReturnStmt [call 351 "Declared" []]] 1945);
|}.

Definition resolver : Resolver := {|
  Callee := λ e,
    match e with
    | CallExpr (IdentExpr id) _ =>
      if String.eqb (Name id) "Declared" then Some 310%nat else None
    | _ => None
    end;
  PkgNameOf := λ id,
    if String.eqb (Name id) "errors" then Some "errors"%string else None;
  ObjectOf := λ id, Some (identNode id);
  SelectionRecv := λ e,
    match e with
    | SelectorExpr x _ => typeOf x
    | _ => OtherType 0
    end;
  MethodSetLookup := λ _ _, None;
|}.

Definition funcFacts : gmap nat ErrorCodes :=
  {[ 310%nat := mkErrorCodes ["sample-error"%string] ]}.

(** [func recursive(n int) error { return recursive(n - 1) }] *)
Definition recursiveCall : expr :=
  CallExpr (IdentExpr (ident 361 "recursive" (Some 60%nat)))
           [OtherExpr "BinaryExpr" [IdentExpr (ident 362 "n" None);
                                    BasicLit "1"]].

Definition Recursive : FuncDecl := {|
  funcNode := 17;
  Doc := None;
  Recv := None;
  FuncName := ident 360 "recursive" (Some 60%nat);
  FuncPos := 2000;
  Results := Some (errorResult 2023 363);
  Body := Some (mkBlock 2029 [ReturnStmt [recursiveCall]] 2060);
|}.

Definition objectsRecursive : Objects :=
  {[ 60%nat := mkObject Fun "recursive" (DeclFuncDecl 17) 2005 ]}.

(** [func (e *Error) Cause() error { return nil }] *)
Definition Cause : FuncDecl := {|
  funcNode := 18;
  Doc := None;
  Recv := Some [receiverField];
  FuncName := ident 370 "Cause" None;
  FuncPos := 2100;
  Results := Some (errorResult 2124 371);
  Body := Some (mkBlock 2130 [returnNil 372] 2143);
|}.





(** [func (e *Error) Code() string {
       if e.Other == "" {
         return "fixed-code"
       } else if e.TheCode != "" {
         return e.TheCode
       } else {
         return e.Other
       }
     }] *)
Definition returnFixed : list expr := [BasicLit (fmt_q "fixed-code")].
Definition returnsTheCode : list expr := [selector 393 receiver 394 "TheCode"].
Definition returnsOther : list expr := [selector 395 receiver 396 "Other"].

Definition CodeIfElse : FuncDecl := {|
  funcNode := 20;
  Doc := None;
  Recv := Some [receiverField];
  FuncName := ident 390 "Code" None;
  FuncPos := 2300;
  Results := Some (mkFieldList 2325 [Field 2325 [] (IdentExpr (ident 391 "string" None))]);
  Body := Some (mkBlock 2332
    [IfStmt None
       (OtherExpr "BinaryExpr" [selector 397 receiver 398 "Other"; BasicLit (fmt_q "")])
       [ReturnStmt returnFixed]
       (Some (IfStmt None
                (OtherExpr "BinaryExpr" [selector 399 receiver 400 "TheCode"; BasicLit (fmt_q "")])
                [ReturnStmt returnsTheCode]
                (Some (BlockStmt [ReturnStmt returnsOther]))))] 2460);
|}.

End Sample.

(** * Properties *)

(** ** The error-code validator *)

Section ErrorCodeFacts.
Import GoString.

Lemma byteZ_range c : 0 <= byteZ c < 256.
Proof.
  unfold byteZ. pose proof (N_ascii_bounded c) as H. lia.
Qed.

Lemma isErrorCodeRune_spec r :
  isErrorCodeRune r = true ↔
  (r = 45 ∨ 97 <= r <= 122 ∨ 65 <= r <= 90 ∨ 48 <= r <= 57).
Proof.
  unfold isErrorCodeRune.
  change (rune "-") with 45. change (rune "a") with 97.
  change (rune "z") with 122. change (rune "A") with 65.
  change (rune "Z") with 90. change (rune "0") with 48.
  change (rune "9") with 57.
  rewrite !orb_true_iff, !andb_true_iff, Z.eqb_eq, !Z.leb_le. lia.
Qed.

Lemma isErrorCodeRune_high r : 128 <= r → isErrorCodeRune r = false.
Proof.
  intros H. destruct (isErrorCodeRune r) eqn:E; [|done].
  apply isErrorCodeRune_spec in E. lia.
Qed.

Lemma lor_high a b : 0 <= a → 0 <= b → 128 <= a → 128 <= Z.lor a b.
Proof.
  intros Ha Hb H.
  assert (7 <= Z.log2 a) as Hl by (apply (Z.log2_le_pow2 a 7); lia).
  pose proof (Z.log2_lor a b Ha Hb) as Hm.
  assert (0 <= Z.lor a b) as Hn by (apply Z.lor_nonneg; lia).
  assert (Z.lor a b ≠ 0) as Hz.
  { intros E. rewrite E in Hm. cbn in Hm. lia. }
  change 128 with (2 ^ 7). apply Z.log2_le_pow2; lia.
Qed.

Lemma lor_high_r a b : 0 <= a → 0 <= b → 128 <= b → 128 <= Z.lor a b.
Proof. intros. rewrite Z.lor_comm. by apply lor_high. Qed.

Lemma land_mask_bound (b m : Z) : 0 <= b → 0 <= m → 0 <= Z.land b m.
Proof. intros. apply Z.land_nonneg. lia. Qed.

Lemma mask_mod b : 
  Z.land b mask2 = b mod 32 ∧ Z.land b mask3 = b mod 16 ∧
  Z.land b mask4 = b mod 8 ∧ Z.land b maskx = b mod 64.
Proof.
  change mask2 with (Z.ones 5). change mask3 with (Z.ones 4).
  change mask4 with (Z.ones 3). change maskx with (Z.ones 6).
  rewrite !Z.land_ones by lia. done.
Qed.

Lemma index_range s i b : index s i = Some b → 0 <= b < 256.
Proof.
  unfold index. destruct (String.get i s) as [c|]; [|done].
  intros [= <-]. apply byteZ_range.
Qed.

Lemma contb_range o b : contb o = Some b → 128 <= b < 192.
Proof.
  destruct o as [x|]; cbn; [|done]. unfold locb, hicb.
  destruct (_ || _) eqn:E; [done|]. intros [= <-].
  apply orb_false_iff in E as [?%Z.ltb_ge ?%Z.ltb_ge]. lia.
Qed.

Ltac nonneg :=
  repeat first
    [ apply Z.lor_nonneg; split
    | apply Z.shiftl_nonneg
    | apply Z.land_nonneg; left ];
  lia.

Lemma decodeRune_head c rest :
  let '(r, w) := decodeRune (String c rest) in
  (1 ≤ w)%nat ∧ if byteZ c <? 128 then r = byteZ c ∧ w = 1%nat else 128 <= r.
Proof.
  unfold decodeRune.
  change (index (String c rest) 0) with (Some (byteZ c)).
  pose proof (byteZ_range c) as Hc.
  set (s := String c rest). set (s0 := byteZ c) in *.
  unfold first.
  repeat match goal with
  | |- context [if ?b then _ else _] => destruct b eqn:?
  | |- context [match index s ?i with _ => _ end] =>
      destruct (index s i) as [?|] eqn:?
  | |- context [match contb ?i with _ => _ end] =>
      destruct (contb i) as [?|] eqn:?
  end; try (split; [lia|]; unfold RuneError; lia);
  try match goal with
  | H : (_ <=? _)%nat = _ |- _ => by vm_compute in H
  end.
  all: split; [lia|].
  all: repeat match goal with
  | H : index _ _ = Some _ |- _ => apply index_range in H
  | H : contb _ = Some _ |- _ => apply contb_range in H
  | H : _ || _ = false |- _ => apply orb_false_iff in H as [? ?]
  | H : (_ <? _) = false |- _ => apply Z.ltb_ge in H
  | H : (_ <? _) = true |- _ => apply Z.ltb_lt in H
  | H : (_ =? _) = false |- _ => apply Z.eqb_neq in H
  | H : (_ =? _) = true |- _ => apply Z.eqb_eq in H
  end.
  all: unfold locb, hicb in *.
  all: repeat match goal with
  | |- 128 <= Z.lor (Z.lor _ _) _ => apply lor_high; [nonneg | nonneg |]
  end.
  all: match goal with
  | |- 128 <= Z.lor (Z.shiftl (Z.land ?a ?m) ?k) ?y =>
      destruct (Z_le_dec 128 (Z.shiftl (Z.land a m) k));
      [ apply lor_high; [nonneg | nonneg | done]
      | apply lor_high_r; [nonneg | nonneg |] ]
  end.
  all: clearbody s0.
  all: change mask2 with (Z.ones 5) in *; change mask3 with (Z.ones 4) in *.
  all: change mask4 with (Z.ones 3) in *; change maskx with (Z.ones 6) in *.
  all: rewrite ?Z.land_ones in * by lia.
  all: rewrite ?Z.shiftl_mul_pow2 in * by lia.
  all: try (Z.div_mod_to_equations; lia).
Qed.

Lemma drop_1 c s : drop 1 (String c s) = s.
Proof. done. Qed.

Lemma range_bytes n s :
  (String.length s ≤ n)%nat →
  forallb isErrorCodeRune (rangeFrom n s) = forallb codeByte (bytes s).
Proof.
  revert s. induction n as [|n IH]; intros [|c s] Hlen; cbn in Hlen; try done; try lia.
  cbn [rangeFrom bytes forallb].
  pose proof (decodeRune_head c s) as Hd.
  destruct (decodeRune (String c s)) as [r w]. destruct Hd as [Hw Hd].
  cbn [forallb]. unfold codeByte at 1.
  destruct (byteZ c <? 128) eqn:E.
  - destruct Hd as [-> ->]. rewrite drop_1, IH by lia. done.
  - apply Z.ltb_ge in E.
    rewrite (isErrorCodeRune_high r), (isErrorCodeRune_high (byteZ c)) by lia.
    done.
Qed.

Lemma length_bytes s : length (bytes s) = String.length s.
Proof. induction s; cbn; congruence. Qed.

Lemma get_bytes s i : String.get i s = bytes s !! i.
Proof.
  revert i. induction s as [|c s IH]; intros [|i]; cbn; try done.
Qed.

Lemma bytes_inj s t : bytes s = bytes t → s = t.
Proof.
  revert t. induction s as [|c s IH]; intros [|d t]; cbn; try done.
  intros [= -> H]. f_equal. by apply IH.
Qed.

Lemma isErrorCodeValid_bytes s :
  isErrorCodeValid s = true ↔
  ∃ c l cl, bytes s = c :: l ∧ last (c :: l) = Some cl ∧
    byteZ c ≠ 45 ∧ ¬ (48 <= byteZ c <= 57) ∧ byteZ cl ≠ 45 ∧
    Forall (λ b, codeByte b = true) (c :: l).
Proof.
  unfold isErrorCodeValid, range, index.
  rewrite !get_bytes, range_bytes by done. rewrite <- length_bytes.
  change (rune "-") with 45. change (rune "0") with 48. change (rune "9") with 57.
  destruct (bytes s) as [|c l] eqn:Hb.
  { cbn. split; [done|]. by intros (? & ? & ? & ? & _). }
  replace (length (c :: l) - 1)%nat with (Init.Nat.pred (length (c :: l))) by (cbn; lia).
  rewrite <- last_lookup.
  destruct (last (c :: l)) as [cl|] eqn:Hl.
  2:{ by apply last_None in Hl. }
  cbn [length Nat.eqb lookup list_lookup fmap option_fmap option_map].
  destruct (_ || _) eqn:E1.
  { split; [done|]. intros (? & ? & ? & [= <- <-] & _ & Hd & Hg & _).
    apply orb_true_iff in E1 as [?%Z.eqb_eq | [?%Z.leb_le ?%Z.leb_le]%andb_true_iff]; lia. }
  apply orb_false_iff in E1 as [Hd%Z.eqb_neq Hg%andb_false_iff].
  destruct (byteZ cl =? 45) eqn:E2.
  { split; [done|]. intros (? & ? & ? & [= <- <-] & HB & _ & _ & Hcl & _).
    rewrite Hl in HB. injection HB as <-. apply Z.eqb_eq in E2. lia. }
  apply Z.eqb_neq in E2.
  rewrite forallb_forall, <- Stdlib.Lists.List.Forall_forall.
  split.
  - intros HF. exists c, l, cl. repeat split; try done.
    rewrite !Z.leb_gt in Hg. lia.
  - intros (? & ? & ? & [= <- <-] & _ & _ & _ & _ & HF). done.
Qed.

Import Regex.

Lemma between_spec lo hi c :
  between lo hi c = true ↔ byteZ lo <= byteZ c <= byteZ hi.
Proof.
  unfold between, rune. rewrite andb_true_iff, !Z.leb_le. done.
Qed.

Lemma letter_spec c :
  letter c = true ↔ 65 <= byteZ c <= 90 ∨ 97 <= byteZ c <= 122.
Proof.
  unfold letter. rewrite orb_true_iff, !between_spec. done.
Qed.

Lemma alnum_spec c :
  alnum c = true ↔
  65 <= byteZ c <= 90 ∨ 97 <= byteZ c <= 122 ∨ 48 <= byteZ c <= 57.
Proof.
  unfold alnum. rewrite orb_true_iff, letter_spec, between_spec.
  change (byteZ "0") with 48. change (byteZ "9") with 57. tauto.
Qed.

Lemma alnumDash_spec c :
  alnumDash c = true ↔
  65 <= byteZ c <= 90 ∨ 97 <= byteZ c <= 122 ∨ 48 <= byteZ c <= 57 ∨
  byteZ c = 45.
Proof.
  unfold alnumDash, rune. rewrite orb_true_iff, alnum_spec, Z.eqb_eq.
  change (byteZ "-") with 45. tauto.
Qed.

Lemma codeByte_alnumDash c : codeByte c = true ↔ alnumDash c = true.
Proof.
  unfold codeByte. rewrite isErrorCodeRune_spec, alnumDash_spec. lia.
Qed.

Lemma star_class p l :
  Forall (λ c, p c = true) l → matches (Star (Class p)) l.
Proof.
  induction 1 as [|c l Hc _ IH]; [constructor|].
  change (c :: l) with ([c] ++ l). constructor; [by constructor | done].
Qed.

Lemma star_class_inv p l :
  matches (Star (Class p)) l → Forall (λ c, p c = true) l.
Proof.
  intros H. remember (Star (Class p)) as r eqn:Er.
  induction H as [| | |r w1 w2 H1 _ H2 IH]; try done.
  injection Er as ->. inversion H1; subst. constructor; [done|]. by apply IH.
Qed.

Lemma errorCode_bytes s :
  errorCode s ↔
  ∃ c l cl, bytes s = c :: l ∧ last (c :: l) = Some cl ∧
    letter c = true ∧ alnum cl = true ∧
    Forall (λ b, alnumDash b = true) (c :: l).
Proof.
  unfold errorCode, single, long. split.
  - intros [H|H].
    + inversion H as [p c Hc| | |]; subst. exists c, [], c.
      pose proof Hc as Hc'%letter_spec.
      split_and!; try done.
      * apply alnum_spec. lia.
      * constructor; [|done]. apply alnumDash_spec. lia.
    + inversion H as [|r1 r2 w1 w2 H1 H2 E1 E2| |]; subst.
      inversion H1 as [p c Hc| | |]; subst.
      inversion H2 as [|r1 r2 w3 w4 H3 H4| |]; subst.
      inversion H4 as [p d Hd| | |]; subst.
      apply star_class_inv in H3.
      exists c, (w3 ++ [d]), d. split_and!; try done.
      * cbn [app]. rewrite last_cons, last_snoc. done.
      * constructor.
        { apply alnumDash_spec. apply letter_spec in Hc. lia. }
        apply Forall_app. split; [done|]. constructor; [|done].
        apply alnumDash_spec. apply alnum_spec in Hd. lia.
  - intros (c & l & cl & -> & Hl & Hc & Hcl & HF).
    apply Forall_cons in HF as [_ HF].
    destruct l as [|x l' _] using rev_ind.
    + left. by constructor.
    + right. rewrite last_cons, last_snoc in Hl. injection Hl as ->.
      apply Forall_app in HF as [HF _].
      change (c :: l' ++ [cl]) with ([c] ++ (l' ++ [cl])).
      constructor; [by constructor|].
      constructor; [by apply star_class | by constructor].
Qed.

(** C3: the validator accepts a string exactly when the string matches
    [^[A-Za-z]$] or [^[A-Za-z][A-Za-z0-9-]*[A-Za-z0-9]$]; it accepts "a",
    "ValidError" and "some-2-error", and rejects the empty string, "-",
    "-x", "x-", "0x", "x y" and "x$". *)
Theorem isErrorCodeValid_regex :
  (∀ s, isErrorCodeValid s = true ↔ errorCode s) ∧
  isErrorCodeValid "a" = true ∧
  isErrorCodeValid "ValidError" = true ∧
  isErrorCodeValid "some-2-error" = true ∧
  isErrorCodeValid "" = false ∧
  isErrorCodeValid "-" = false ∧
  isErrorCodeValid "-x" = false ∧
  isErrorCodeValid "x-" = false ∧
  isErrorCodeValid "0x" = false ∧
  isErrorCodeValid "x y" = false ∧
  isErrorCodeValid "x$" = false.
Proof.
  split; [|by vm_compute].
  intros s. rewrite isErrorCodeValid_bytes, errorCode_bytes.
  split; intros (c & l & cl & Hb & Hl & H); exists c, l, cl;
    (split; [done|]); (split; [done|]).
  - destruct H as (Hd & Hg & Hcl & HF).
    assert (HF' : Forall (λ b, alnumDash b = true) (c :: l)).
    { eapply Forall_impl; [exact HF|]. intros ?. apply codeByte_alnumDash. }
    assert (Hcl' : alnumDash cl = true).
    { eapply Forall_forall in HF'; [done|]. by apply last_Some_elem_of. }
    apply Forall_cons in HF' as [Hc' HF''].
    repeat split.
    + apply letter_spec. apply alnumDash_spec in Hc'. lia.
    + apply alnum_spec. apply alnumDash_spec in Hcl'. lia.
    + by constructor.
  - destruct H as (Hc & Hcl & HF).
    apply letter_spec in Hc. apply alnum_spec in Hcl.
    repeat split; try lia.
    eapply Forall_impl; [exact HF|]. intros ?. apply codeByte_alnumDash.
Qed.

End ErrorCodeFacts.
(** ** The relation between the receiver of [Code()] and an error type *)

Lemma Pointer_neq (t : gotype) : Pointer t ≠ t.
Proof. induction t; congruence. Qed.

Lemma Pointer_Pointer_neq (t : gotype) : Pointer (Pointer t) ≠ t.
Proof. induction t; congruence. Qed.

Lemma errorTypesSubset_iff (type1 type2 : gotype) :
  errorTypesSubset type1 type2 = true ↔
  type1 = type2 ∨ type2 = Pointer type1.
Proof.
  unfold errorTypesSubset, Identical.
  rewrite orb_true_iff, bool_decide_eq_true.
  destruct type2; rewrite ?bool_decide_eq_true; intuition congruence.
Qed.

(** C6, as stated: a receiver of type [*T] would match a value of type
    [T]; the code refuses it. *)
Lemma errorTypesSubset_pointer_receiver_refused :
  sameErrorType_spec (Pointer (Named 0)) (Named 0) ∧
  errorTypesSubset (Pointer (Named 0)) (Named 0) = false.
Proof. split; [right; right; reflexivity | reflexivity]. Qed.

(** C6, amended: the relation holds exactly when the two types are
    identical or the type of the error value is the pointer type to the
    type of the receiver.  A receiver of type [T] matches a value of type
    [*T]; a receiver of type [*T] does not match a value of type [T]. *)
Theorem errorTypesSubset_exact :
  (∀ type1 type2,
     errorTypesSubset type1 type2 = true ↔
     type1 = type2 ∨ type2 = Pointer type1) ∧
  (∀ T, errorTypesSubset T (Pointer T) = true) ∧
  (∀ T, errorTypesSubset (Pointer T) T = false).
Proof.
  split; [exact errorTypesSubset_iff|]. split; intros T.
  - apply errorTypesSubset_iff. by right.
  - apply not_true_is_false. rewrite errorTypesSubset_iff.
    intros [E|E]; [by apply Pointer_neq in E|].
    symmetry in E. by apply Pointer_Pointer_neq in E.
Qed.

(** ** Loops *)

Lemma forM_app {A S} (body : A → S → outcome S) l k s :
  forM body (l ++ k) s = (s' ← forM body l s; forM body k s').
Proof.
  revert s. induction l as [|x l IH]; intros s; cbn; [done|].
  destruct (body x s); cbn; [apply IH | done | done].
Qed.

Lemma forM_concat {A S} (body : A → S → outcome S) ls s :
  forM (forM body) ls s = forM body (concat ls) s.
Proof.
  revert s. induction ls as [|l ls IH]; intros s; cbn; [done|].
  rewrite forM_app. destruct (forM body l s); cbn; [apply IH | done | done].
Qed.

Lemma forEach_allFuncs {S} lookup (f : FuncDecl → S → outcome S) s :
  forEach lookup f s = forM f (allFuncs lookup) s.
Proof.
  unfold forEach, allFuncs. rewrite forM_app.
  destruct (forM f _ s); cbn; [apply forM_concat | done | done].
Qed.

(** ** The pre-pass *)

Section PrePass.
Variable pass : Pass.






End PrePass.




(** ** The claims of the docstrings and the exported facts *)

(** A function whose docstring declares no code is left out of the claims,
    whether the block is missing or says [Errors: none]; nothing is then
    exported for it. *)
Lemma findClaimedErrorCodes_empty_set pass f diags :
  size (findErrorDocs f).1 = 0%nat →
  (findClaimedErrorCodes pass [f] diags).1 = ∅.
Proof.
  intros Hsize. unfold findClaimedErrorCodes. cbn [foldl].
  destruct (findErrorDocs f) as [codes [err|]]; [done|].
  cbn [fst] in Hsize. rewrite Hsize. cbn [Nat.eqb].
  destruct (_ && _); [done|]. by destruct (IsExported _ _).
Qed.

Lemma exportFunctionErrorCodes_empty pass facts :
  exportFunctionErrorCodes pass ∅ facts = facts.
Proof. unfold exportFunctionErrorCodes. apply map_fold_empty. Qed.

(** A function that declares codes is stored with them. *)
Lemma findClaimedErrorCodes_declared pass f codes diags :
  findErrorDocs f = (codes, None) → size codes ≠ 0%nat →
  findClaimedErrorCodes pass [f] diags = ({[funcNode f := (f, codes)]}, diags).
Proof.
  intros Hdocs Hsize. unfold findClaimedErrorCodes. cbn [foldl].
  rewrite Hdocs. apply Nat.eqb_neq in Hsize. rewrite Hsize.
  by rewrite insert_empty.
Qed.

(** A function whose docstring is malformed is reported and not stored. *)
Lemma findClaimedErrorCodes_odd pass f codes err diags :
  findErrorDocs f = (codes, Some err) →
  (findClaimedErrorCodes pass [f] diags).1 = ∅.
Proof.
  intros Hdocs. unfold findClaimedErrorCodes. cbn [foldl]. by rewrite Hdocs.
Qed.

(** The fact exported for the only function of the claims is the sorted
    slice of its declared codes. *)
Lemma exportFunctionErrorCodes_singleton pass f codes fn :
  Defs pass (FuncName f) = Some (TFunc fn) →
  exportFunctionErrorCodes pass {[funcNode f := (f, codes)]} ∅
  = {[fn := mkErrorCodes (slice codes)]}.
Proof.
  intros Hdef. unfold exportFunctionErrorCodes.
  rewrite map_fold_singleton. rewrite Hdef. by rewrite insert_empty.
Qed.

(** The interface [tReeErrorWithCause] is implemented by no type of a
    package: its method [Cause] returns the type created in its
    declaration, which no method of the package can return. *)
Lemma Implements_tReeErrorWithCause pass methodsOf t :
  typeChecked pass methodsOf →
  Implements pass t tReeErrorWithCause = false.
Proof.
  intros [Himpl Hno]. rewrite Himpl. unfold types_Implements.
  cbn [interfaceMethods forallb].
  rewrite (bool_decide_eq_false_2 _ (Hno t "Cause"%string)).
  by rewrite !andb_false_r.
Qed.

(** An exported function or method whose docstring declares no code is
    reported, whatever it is a method of. *)
Lemma findClaimedErrorCodes_exported pass methodsOf f codes diags :
  typeChecked pass methodsOf →
  findErrorDocs f = (codes, None) → size codes = 0%nat →
  IsExported pass (FuncName f) = true →
  findClaimedErrorCodes pass [f] diags
  = (∅, Reportf diags (FuncPos f)
          ("function " ++ fmt_q (Name (FuncName f))
           ++ " is exported, but does not declare any error codes")).
Proof.
  intros Htc Hdocs Hsize Hexp. unfold findClaimedErrorCodes. cbn [foldl].
  rewrite Hdocs, Hsize. cbn [Nat.eqb].
  assert (isMethod f
          && match Recv f with
             | Some (recv :: _) =>
               Implements pass (TypeOf pass (fieldType recv)) tReeErrorWithCause
             | _ => false
             end = false) as ->.
  { destruct (Recv f) as [[|recv ?]|]; rewrite ?andb_false_r; try done.
    by rewrite (Implements_tReeErrorWithCause pass methodsOf), andb_false_r. }
  by rewrite Hexp.
Qed.

Lemma Sample_typeChecked : typeChecked Sample.pass Sample.methodsOf.
Proof.
  split; [done|]. intros t name Hin%list_elem_of_In.
  unfold Sample.methodsOf in Hin.
  destruct t as [[|[|[|[|n]]]]|[[|[|[|[|n]]]]| | | ]| | ]; cbn in Hin;
    intuition discriminate.
Qed.

(** C1: a function that declares [Errors: none] parses to the empty code
    set without error, and the pass exports no fact for it: it is left out
    of the claims, and reported as not declaring any error codes. *)
Theorem errors_none_exports_no_fact :
  findErrorDocs Sample.CorrectNoErrors1 = (∅, None) ∧
  findClaimedErrorCodes Sample.pass [Sample.CorrectNoErrors1] []
    = (∅, [mkDiagnostic (AtPos 90)
             ("function " ++ fmt_q "CorrectNoErrors1"
              ++ " is exported, but does not declare any error codes")]) ∧
  exportFunctionErrorCodes Sample.pass
    (findClaimedErrorCodes Sample.pass [Sample.CorrectNoErrors1] []).1 ∅
    = ∅.
Proof. by vm_compute. Qed.

(** C4: the exception for [Cause()] never applies.  The type [*Error] has
    the methods [Error() string], [Code() string] and [Cause() error], and
    yet [types.Implements] answers no for [tReeErrorWithCause], as it does
    for every type; so the exported method [Cause] of [*Error], whose
    docstring declares no code, is reported as every other exported
    function is. *)
Theorem exported_Cause_method_reported :
  typeChecked Sample.pass Sample.methodsOf ∧
  codedErrorWithCause Sample.methodsOf
    (TypeOf Sample.pass (fieldType Sample.receiverField)) = true ∧
  Implements Sample.pass
    (TypeOf Sample.pass (fieldType Sample.receiverField))
    tReeErrorWithCause = false ∧
  Recv Sample.Cause = Some [Sample.receiverField] ∧
  isMethod Sample.Cause = true ∧
  Name (FuncName Sample.Cause) = "Cause"%string ∧
  IsExported Sample.pass (FuncName Sample.Cause) = true ∧
  findErrorDocs Sample.Cause = (∅, None) ∧
  findClaimedErrorCodes Sample.pass [Sample.Cause] []
  = (∅, [mkDiagnostic (AtPos 2100)
           ("function " ++ fmt_q "Cause"
            ++ " is exported, but does not declare any error codes")]) ∧
  (∀ pass methodsOf t,
     typeChecked pass methodsOf →
     Implements pass t tReeErrorWithCause = false) ∧
  (∀ pass methodsOf f codes diags,
     typeChecked pass methodsOf →
     findErrorDocs f = (codes, None) → size codes = 0%nat →
     IsExported pass (FuncName f) = true →
     findClaimedErrorCodes pass [f] diags
     = (∅, Reportf diags (FuncPos f)
             ("function " ++ fmt_q (Name (FuncName f))
              ++ " is exported, but does not declare any error codes"))).
Proof.
  split; [exact Sample_typeChecked|].
  split_and!; try (by vm_compute).
  - exact Implements_tReeErrorWithCause.
  - exact findClaimedErrorCodes_exported.
Qed.

(** The position of a field is not resolved for any receiver whose
    declared type is not written [*T]. *)
Lemma getFieldPosition_not_star objects receiver o obj fld fieldName :
  Obj receiver = Some o → objects !! o = Some obj →
  ObjDecl obj = DeclField fld →
  (∀ x, fieldType fld ≠ StarExpr x) →
  getFieldPositionUsingMethodReceiver objects receiver fieldName
  = Panic "not a *ast.StarExpr".
Proof.
  intros Hobj Ho Hdecl Hstar. unfold getFieldPositionUsingMethodReceiver.
  rewrite Hobj. cbn. rewrite Ho, Hdecl.
  destruct (fieldType fld) as [| | | | | |x| | | |] eqn:E; try done.
  by destruct (Hstar x).
Qed.

(** C10: the position of the field a [Code()] method returns is not
    resolved for a value receiver; the analysis of the method panics. *)
Theorem value_receiver_panics :
  getFieldPositionUsingMethodReceiver Sample.objects
    Sample.valueReceiver "TheCode" = Panic "not a *ast.StarExpr" ∧
  analyseCodeMethod Sample.pass Sample.objects Sample.CodeValueReceiver
    (Some Sample.valueReceiver) [] = Panic "not a *ast.StarExpr".
Proof. by vm_compute. Qed.

(** ** Induction on the syntax tree *)

Section AstInd.
Variables (P : expr → Prop) (Q : field → Prop) (R : stmt → Prop).
Hypothesis HIdent : ∀ id, P (IdentExpr id).
Hypothesis HBasic : ∀ v, P (BasicLit v).
Hypothesis HComposite : ∀ t elts,
  from_option P True t → Forall P elts → P (CompositeLit t elts).
Hypothesis HFuncLit : ∀ body, Forall R body → P (FuncLit body).
Hypothesis HSelector : ∀ x sel, P x → P (SelectorExpr x sel).
Hypothesis HCall : ∀ fn args, P fn → Forall P args → P (CallExpr fn args).
Hypothesis HStar : ∀ x, P x → P (StarExpr x).
Hypothesis HUnary : ∀ op x, P x → P (UnaryExpr op x).
Hypothesis HKeyValue : ∀ k v, P k → P v → P (KeyValueExpr k v).
Hypothesis HStruct : ∀ fields, Forall Q fields → P (StructType fields).
Hypothesis HOther : ∀ kind children,
  Forall P children → P (OtherExpr kind children).
Hypothesis HField : ∀ pos names type, P type → Q (Field pos names type).
Hypothesis HAssign : ∀ lhs rhs,
  Forall P lhs → Forall P rhs → R (AssignStmt lhs rhs).
Hypothesis HReturn : ∀ results, Forall P results → R (ReturnStmt results).
Hypothesis HExprStmt : ∀ x, P x → R (ExprStmt x).
Hypothesis HBlock : ∀ l, Forall R l → R (BlockStmt l).
Hypothesis HIf : ∀ init cond body els,
  from_option R True init → P cond → Forall R body →
  from_option R True els → R (IfStmt init cond body els).
Hypothesis HOtherStmt : ∀ kind children,
  Forall (λ child, match child with inl e => P e | inr s => R s end) children →
  R (OtherStmt kind children).

Lemma expr_ast_ind : ∀ e, P e
with field_ast_ind : ∀ f, Q f
with stmt_ast_ind : ∀ s, R s.
Proof.
  - intros [id|v|t elts|body|x sel|fn args|x|op x|k v|fields|kind children].
    + apply HIdent.
    + apply HBasic.
    + apply HComposite;
        [apply (option_all expr_ast_ind) | apply (Forall_all expr_ast_ind)].
    + apply HFuncLit, (Forall_all stmt_ast_ind).
    + apply HSelector, expr_ast_ind.
    + apply HCall; [apply expr_ast_ind | apply (Forall_all expr_ast_ind)].
    + apply HStar, expr_ast_ind.
    + apply HUnary, expr_ast_ind.
    + apply HKeyValue; apply expr_ast_ind.
    + apply HStruct, (Forall_all field_ast_ind).
    + apply HOther, (Forall_all expr_ast_ind).
  - intros [pos names type]. apply HField, expr_ast_ind.
  - intros [lhs rhs|results|x|l|init cond body els|kind children].
    + apply HAssign; apply (Forall_all expr_ast_ind).
    + apply HReturn, (Forall_all expr_ast_ind).
    + apply HExprStmt, expr_ast_ind.
    + apply HBlock, (Forall_all stmt_ast_ind).
    + apply HIf;
        [ apply (option_all stmt_ast_ind) | apply expr_ast_ind
        | apply (Forall_all stmt_ast_ind) | apply (option_all stmt_ast_ind) ].
    + apply HOtherStmt.
      exact (Forall_all
               (λ child,
                  match child as c
                    return match c with inl e => P e | inr s => R s end
                  with
                  | inl e => expr_ast_ind e
                  | inr s => stmt_ast_ind s
                  end) children).
Qed.

Lemma ast_ind : (∀ e, P e) ∧ (∀ f, Q f) ∧ (∀ s, R s).
Proof.
  split; [exact expr_ast_ind|]. split; [exact field_ast_ind | exact stmt_ast_ind].
Qed.
End AstInd.

(** ** Traversals *)

Lemma post_bind {A B} (J : A → Prop) (I : B → Prop) (m : outcome A)
    (f : A → outcome B) :
  post J m → (∀ a, J a → post I (f a)) → post I (m ≫= f).
Proof. destruct m; cbn; auto. Qed.

Lemma post_impl {A} (I J : A → Prop) (o : outcome A) :
  post I o → (∀ a, I a → J a) → post J o.
Proof. destruct o; cbn; auto. Qed.

Lemma forM_post {A S} (body : A → S → outcome S) (I : S → Prop) l s :
  Forall (λ x, ∀ s, I s → post I (body x s)) l →
  I s → post I (forM body l s).
Proof.
  intros Hl. revert s. induction Hl as [|x l Hx _ IH]; intros s Hs; cbn; [done|].
  specialize (Hx s Hs). destruct (body x s); cbn in *; auto.
Qed.

Lemma union_list_subseteq {A} (f : A → gset nat) (l : list A) (N : gset nat) :
  ⋃ (f <$> l) ⊆ N → Forall (λ x, f x ⊆ N) l.
Proof.
  induction l as [|x l IH]; cbn; [constructor|].
  intros Hs. constructor; [set_solver|]. apply IH. set_solver.
Qed.

Section WalkUnfold.
Context {S : Type}.
Variable visit : node → S → outcome (bool * S).

Lemma walkExpr_unfold e s :
  walkExpr visit e s =
  '(descend, s) ← visit (NExpr e) s;
  if descend : bool then
    match e with
    | IdentExpr _ | BasicLit _ => Done s
    | CompositeLit type elts =>
      s ← walkOpt (walkExpr visit) type s; forM (walkExpr visit) elts s
    | FuncLit body => forM (walkStmt visit) body s
    | SelectorExpr x sel =>
      s ← walkExpr visit x s;
      '(_, s) ← visit (NExpr (IdentExpr sel)) s; Done s
    | CallExpr fn args =>
      s ← walkExpr visit fn s; forM (walkExpr visit) args s
    | StarExpr x => walkExpr visit x s
    | UnaryExpr _ x => walkExpr visit x s
    | KeyValueExpr key value =>
      s ← walkExpr visit key s; walkExpr visit value s
    | StructType fields => forM (walkField visit) fields s
    | OtherExpr _ children => forM (walkExpr visit) children s
    end
  else Done s.
Proof. destruct e; reflexivity. Qed.

Lemma walkField_unfold f s :
  walkField visit f s =
  '(descend, s) ← visit (NField f) s;
  if descend : bool then
    match f with
    | Field _ names type =>
      s ← forM (λ id s, '(_, s) ← visit (NExpr (IdentExpr id)) s; Done s)
               names s;
      walkExpr visit type s
    end
  else Done s.
Proof. destruct f; reflexivity. Qed.

Lemma walkStmt_unfold st s :
  walkStmt visit st s =
  '(descend, s) ← visit (NStmt st) s;
  if descend : bool then
    match st with
    | AssignStmt lhs rhs =>
      s ← forM (walkExpr visit) lhs s; forM (walkExpr visit) rhs s
    | ReturnStmt results => forM (walkExpr visit) results s
    | ExprStmt x => walkExpr visit x s
    | BlockStmt stmts => forM (walkStmt visit) stmts s
    | IfStmt init cond body els =>
      s ← walkOpt (walkStmt visit) init s;
      s ← walkExpr visit cond s;
      s ← forM (walkStmt visit) body s;
      walkOpt (walkStmt visit) els s
    | OtherStmt _ children =>
      forM (λ child s,
              match child with
              | inl e => walkExpr visit e s
              | inr st => walkStmt visit st s
              end) children s
    end
  else Done s.
Proof. destruct st; reflexivity. Qed.

End WalkUnfold.

Section WalkPost.
Context {S : Type}.
Variable visit : node → S → outcome (bool * S).
Variable I : S → Prop.
Variable N : gset nat.
Hypothesis Hvisit :
  ∀ n s, nodeIdents n ⊆ N → I s → post (λ r, I r.2) (visit n s).

Lemma visit_ident_post id s :
  identNode id ∈ N → I s →
  post I (visit (NExpr (IdentExpr id)) s ≫= λ '(_, s), Done s).
Proof.
  intros Hid Hs. eapply (post_bind (λ r, I r.2)).
  - apply Hvisit; [cbn; set_solver | done].
  - by intros [? ?] ?.
Qed.

Lemma Forall_walk {A} (w : A → S → outcome S) (ids : A → gset nat) l :
  Forall (λ x, ids x ⊆ N → ∀ s, I s → post I (w x s)) l →
  ⋃ (ids <$> l) ⊆ N →
  Forall (λ x, ∀ s, I s → post I (w x s)) l.
Proof.
  intros Hl Hs%union_list_subseteq.
  induction Hl as [|x l Hx _ IH]; [constructor|].
  apply Forall_cons in Hs as [? ?]. constructor; auto.
Qed.

Local Ltac child :=
  match goal with
  | |- post I (Done _) => done
  | |- post I (walkOpt _ ?o _) => destruct o; cbn [walkOpt from_option] in *
  | |- post I (visit (NExpr (IdentExpr _)) _ ≫= _) =>
      apply visit_ident_post; [set_solver | done]
  | |- post I (_ ≫= _) => eapply (post_bind I); [|intros ? ?]
  | |- post I (forM _ _ _) => apply forM_post; [|done]
  | H : _ → ∀ s, I s → post I (?w ?x s) |- post I (?w ?x _) =>
      apply H; [set_solver | done]
  | H : Forall _ ?l |- Forall _ ?l =>
      eapply (Forall_walk _ _ l H); set_solver
  | |- Forall _ _ =>
      apply Forall_forall; intros ? ? ? ?;
      apply visit_ident_post; [|done];
      set_solver
  end.

Lemma walk_post :
  (∀ e, exprIdents e ⊆ N → ∀ s, I s → post I (walkExpr visit e s)) ∧
  (∀ f, fieldIdents f ⊆ N → ∀ s, I s → post I (walkField visit f s)) ∧
  (∀ st, stmtIdents st ⊆ N → ∀ s, I s → post I (walkStmt visit st s)).
Proof.
  apply ast_ind; intros;
    rewrite ?walkExpr_unfold, ?walkField_unfold, ?walkStmt_unfold;
    (eapply (post_bind (λ r, I r.2));
     [ by apply Hvisit
     | intros [[] s'] Hs'; cbn [snd] in Hs'; [|done] ]).
  all: cbn [exprIdents fieldIdents stmtIdents] in *.
  all: try done.
  all: repeat child.
  eapply (Forall_walk _ (λ child, match child with
                                  | inl e => exprIdents e
                                  | inr s => stmtIdents s
                                  end)); [|eassumption].
  eapply Forall_impl; [eassumption|]. intros [e|st]; cbn; auto.
Qed.
End WalkPost.

(** ** Termination of the affector engine *)

Section Terminates.
Variable pass : Pass.
Variable objects : Objects.
Variable within : FuncDecl.

Lemma Inspect_post {S} (visit : node → S → outcome (bool * S))
    (I : S → Prop) s :
  (∀ n s, nodeIdents n ⊆ bodyIdents within → I s →
          post (λ r, I r.2) (visit n s)) →
  I s → post I (Inspect visit within s).
Proof.
  intros Hvisit Hs. unfold Inspect, bodyIdents in *.
  destruct (Body within) as [b|]; [|done].
  apply forM_post; [|done].
  pose proof (walk_post visit I _ Hvisit) as (_ & _ & Hstmt).
  eapply Forall_impl; [apply (union_list_subseteq stmtIdents); reflexivity|].
  cbn. auto.
Qed.

Lemma checkLocal_post exprt st :
  post (λ st', visited st' = visited st) (checkLocal objects exprt within st).
Proof.
  unfold checkLocal.
  destruct (Obj exprt); [|done].
  destruct (Body within); [|done]. destruct (objects !! _); [|done].
  by destruct (_ || _).
Qed.

Lemma size_unvisited_mono (N V V' : gset nat) :
  V ⊆ V' → (size (N ∖ V') ≤ size (N ∖ V))%nat.
Proof. intros. apply subseteq_size. set_solver. Qed.

Lemma size_unvisited_mark (N V : gset nat) n :
  n ∈ N → n ∉ V → (size (N ∖ ({[n]} ∪ V)) < size (N ∖ V))%nat.
Proof.
  intros. apply subset_size. split; [set_solver|].
  intros Hs. assert (n ∈ N ∖ ({[n]} ∪ V)) by set_solver. set_solver.
Qed.

Section Loop.
Variable recur : expr → taintState → outcome (list expr * taintState).
Variable exprt : Ident.
Variable V : gset nat.
Variable Lhs Rhs : list expr.
Hypothesis Hrecur : ∀ rhs st,
  rhs ∈ Rhs → V ⊆ visited st →
  post (λ r, visited st ⊆ visited r.2) (recur rhs st).

Lemma assignLoop_post clauses i result st :
  V ⊆ visited st →
  post (λ r, V ⊆ visited r.2.2)
       (assignLoop recur exprt Lhs Rhs i clauses result st).
Proof.
  revert i result st.
  induction clauses as [|clause clauses IH]; intros i result st HV;
    cbn [assignLoop]; [done|].
  destruct clause; try by apply IH.
  case_bool_decide; [|by apply IH].
  destruct (_ <? _)%nat.
  - destruct (negb _); [done|].
    destruct (Rhs !! 0%nat) as [[]|]; try done. by apply IH.
  - destruct (Rhs !! i) as [rhs|] eqn:Hi; [|done].
    eapply post_bind.
    + apply Hrecur; [by eapply list_elem_of_lookup_2 | done].
    + intros [affectors st'] Hst'. cbn [snd] in Hst'. apply IH. set_solver.
Qed.
End Loop.

(** The branch of [findAffectorsInFunc] for an identifier that is not
    visited yet, when the recursive calls establish [post]. *)
Lemma ident_post recur exprt st :
  (∀ rhs st', exprIdents rhs ⊆ bodyIdents within →
     {[identNode exprt]} ∪ visited st ⊆ visited st' →
     post (λ r, visited st' ⊆ visited r.2) (recur rhs st')) →
  post (λ r, {[identNode exprt]} ∪ visited st ⊆ visited r.2)
    (st1 ← checkLocal objects exprt within
             (mkTaintState ({[identNode exprt]} ∪ visited st) (taintDiags st));
     Inspect (findAffectors_visit recur exprt) within ([], st1)).
Proof.
  intros Hrecur. eapply post_bind; [apply checkLocal_post|].
  intros st1 Hst1. cbn [visited] in Hst1.
  apply (Inspect_post _ (λ s, {[identNode exprt]} ∪ visited st ⊆ visited s.2));
    [|cbn; by rewrite Hst1].
  intros n [result st2] Hn HI. cbn [snd] in HI.
  destruct n as [| |[lhs rhs| | | | |]]; try done.
  unfold findAffectors_visit. cbn [fst snd].
  apply assignLoop_post; [|done].
  intros rhs' st' Hin Hsub. apply Hrecur; [|done].
  cbn [nodeIdents stmtIdents] in Hn.
  assert (exprIdents rhs' ⊆ ⋃ (exprIdents <$> rhs)) as Hsub'; [|set_solver].
  assert (Forall (λ x, exprIdents x ⊆ ⋃ (exprIdents <$> rhs)) rhs) as HF
    by (by apply union_list_subseteq).
  rewrite Forall_forall in HF. by apply HF.
Qed.

Lemma findAffectorsInFunc_inner fuel : ∀ e st,
  exprIdents e ⊆ bodyIdents within →
  (size (bodyIdents within ∖ visited st) < fuel)%nat →
  post (λ r, visited st ⊆ visited r.2)
       (findAffectorsInFunc pass objects fuel e within st).
Proof.
  induction fuel as [|fuel IH]; intros e st He Hfuel; [lia|].
  destruct e; cbn [findAffectorsInFunc]; try (cbn; reflexivity).
  - case_bool_decide as Hv; [cbn; reflexivity|].
    eapply post_impl.
    + apply ident_post. intros rhs st' Hrhs Hst'. apply IH; [done|].
      cbn [exprIdents] in He.
      pose proof (size_unvisited_mark (bodyIdents within) (visited st)
                    (identNode id)) as Hm.
      pose proof (size_unvisited_mono (bodyIdents within) _ _ Hst') as Hle.
      assert (identNode id ∈ bodyIdents within) by set_solver.
      specialize (Hm ltac:(done) Hv). lia.
    + intros r Hr. cbn in Hr. set_solver.
  - destruct (_ && _); cbn; reflexivity.
Qed.

Lemma findAffectorsInFunc_top fuel e st :
  (size (bodyIdents within ∖ visited st) < fuel)%nat →
  post (λ r, visited st ⊆ visited r.2)
       (findAffectorsInFunc pass objects (S fuel) e within st).
Proof.
  intros Hfuel.
  destruct e; cbn [findAffectorsInFunc]; try (cbn; reflexivity).
  - case_bool_decide as Hv; [cbn; reflexivity|].
    eapply post_impl.
    + apply ident_post. intros rhs st' Hrhs Hst'.
      apply findAffectorsInFunc_inner; [done|].
      assert (visited st ⊆ visited st') as Hle%(size_unvisited_mono (bodyIdents within))
        by set_solver.
      lia.
    + intros r Hr. cbn in Hr. set_solver.
  - destruct (_ && _); cbn; reflexivity.
Qed.

Lemma findAffectorsInFunc_outer e st k :
  post (λ r, visited st ⊆ visited r.2)
       (findAffectorsInFunc pass objects (enoughFuel within st + k) e within st).
Proof.
  unfold enoughFuel.
  change (S (S (size (bodyIdents within ∖ visited st))) + k)%nat
    with (S (S (size (bodyIdents within ∖ visited st) + k))).
  apply findAffectorsInFunc_top. lia.
Qed.

End Terminates.

Section Marked.
Variable pass : Pass.
Variable objects : Objects.
Variable within : FuncDecl.

Lemma findAffectorsInFunc_marks_top fuel id st :
  (size (bodyIdents within ∖ visited st) < fuel)%nat →
  post (λ r, identNode id ∈ visited r.2 ∧ visited st ⊆ visited r.2)
       (findAffectorsInFunc pass objects (S fuel) (IdentExpr id) within st).
Proof.
  intros Hfuel. cbn [findAffectorsInFunc].
  case_bool_decide as Hv; [cbn; by split|].
  eapply post_impl.
  - apply ident_post. intros rhs st' Hrhs Hst'.
    apply findAffectorsInFunc_inner; [done|].
    assert (visited st ⊆ visited st') as Hle%(size_unvisited_mono (bodyIdents within))
      by set_solver.
    lia.
  - intros r Hr. cbn in Hr. set_solver.
Qed.

Lemma findAffectorsInFunc_marks id st k :
  post (λ r, identNode id ∈ visited r.2 ∧ visited st ⊆ visited r.2)
       (findAffectorsInFunc pass objects (enoughFuel within st + k)
          (IdentExpr id) within st).
Proof.
  unfold enoughFuel.
  change (S (S (size (bodyIdents within ∖ visited st))) + k)%nat
    with (S (S (size (bodyIdents within ∖ visited st) + k))).
  apply findAffectorsInFunc_marks_top. lia.
Qed.

Lemma post_not_OutOfFuel {A} (I : A → Prop) (o : outcome A) :
  post I o → o ≠ OutOfFuel.
Proof. by destruct o. Qed.

End Marked.

(** C8: with the fuel [enoughFuel], or more, the engine never runs out of
    fuel: the recursion ends on every expression, function and state, with
    a result or a panic of the code.  An identifier node that is visited
    already yields nothing and leaves the state as it is; an identifier
    node is visited after the call on it, and no node leaves the visited
    set.  On [err = modify(err)] the engine stops at the call; on the cycle
    [a = b; b = a] it stops at the identifiers it has visited. *)
Theorem findAffectorsInFunc_terminates :
  (∀ pass objects e within st k,
     findAffectorsInFunc pass objects (enoughFuel within st + k) e within st
       ≠ OutOfFuel) ∧
  (∀ pass objects id within V diags fuel,
     findAffectorsInFunc pass objects (S fuel) (IdentExpr id) within
       (mkTaintState ({[identNode id]} ∪ V) diags)
     = Done ([], mkTaintState ({[identNode id]} ∪ V) diags)) ∧
  (∀ pass objects id within st k,
     post (λ r, identNode id ∈ visited r.2 ∧ visited st ⊆ visited r.2)
          (findAffectorsInFunc pass objects (enoughFuel within st + k)
             (IdentExpr id) within st)) ∧
  (fst <$> findAffectorsInFunc Sample.pass Sample.objects
             (enoughFuel Sample.SelfAssign (mkTaintState ∅ []))
             (IdentExpr (Sample.errAt 197)) Sample.SelfAssign
             (mkTaintState ∅ [])
   = Done [Sample.call 193 "create" [];
           Sample.call 195 "modify" [IdentExpr (Sample.errAt 196)]]) ∧
  (fst <$> findAffectorsInFunc Sample.pass Sample.objects
             (enoughFuel Sample.Cycle (mkTaintState ∅ []))
             (IdentExpr (Sample.aAt 205)) Sample.Cycle (mkTaintState ∅ [])
   = Done [Sample.newError; Sample.newError]).
Proof.
  split_and!.
  - intros. eapply post_not_OutOfFuel, findAffectorsInFunc_outer.
  - intros. cbn [findAffectorsInFunc visited].
    rewrite bool_decide_eq_true_2 by set_solver. done.
  - intros. apply findAffectorsInFunc_marks.
  - by vm_compute.
  - by vm_compute.
Qed.

(** ** Destructuring assignments *)

Section Destructuring.
Variable recur : expr → taintState → outcome (list expr * taintState).
Variable exprt : Ident.
Variable Lhs Rhs : list expr.



End Destructuring.




(** ** The analysis of [Code()] *)

Lemma forM_Done {A S} (body : A → S → outcome S) l s :
  Forall (λ x, ∀ s, body x s = Done s) l → forM body l s = Done s.
Proof.
  intros Hl. revert s. induction Hl as [|x l Hx _ IH]; intros s; cbn; [done|].
  by rewrite Hx.
Qed.

Section CodeMethod.
Variable pass : Pass.
Variable objects : Objects.
Variable funcDecl : FuncDecl.
Variable receiver : option Ident.

Local Abbreviation visit := (analyseCodeMethod_visit pass funcDecl receiver).

(** The traversal of an expression changes nothing: the visitor acts on
    return statements, and does not enter function literals. *)
Lemma walkExpr_codeMethod :
  (∀ e st, walkExpr visit e st = Done st) ∧
  (∀ f st, walkField visit f st = Done st) ∧
  (∀ s : stmt, True).
Proof.
  apply ast_ind; try done; intros;
    rewrite ?walkExpr_unfold, ?walkField_unfold; cbn [analyseCodeMethod_visit mbind outcome_bind];
    repeat match goal with
    | H : ∀ st, _ = Done st |- _ => rewrite H
    | |- context [walkOpt _ ?o _] => destruct o; cbn [walkOpt from_option] in *
    | |- context [forM ?b ?l ?s] => rewrite (forM_Done b l s) by done
    | |- _ => progress cbn [mbind outcome_bind]
    end; try done.
  rewrite forM_Done; [apply H|]. apply Forall_forall. by intros.
Qed.

Lemma returnedField_receiver r x sel :
  receiver = Some r → Obj x = Obj r →
  returnedField receiver (SelectorExpr (IdentExpr x) sel) = Some sel.
Proof.
  intros -> Hobj. cbn. by rewrite bool_decide_eq_true_2.
Qed.

End CodeMethod.

(** C5, as stated: the method returns [e.Other] in a branch and
    [e.TheCode] after it; the fact records a field. *)
Lemma two_fields_record_a_field :
  ∃ fact diags,
    analyseCodeMethod Sample.pass Sample.objects Sample.CodeTwoFields
      (Some Sample.receiver) [] = Done (Some fact, diags) ∧
    TypeField fact ≠ None.
Proof.
  eexists _, _. split; [by vm_compute|]. done.
Qed.

Section CodeMethodReturns.
Variable pass : Pass.
Variable objects : Objects.
Variable funcDecl : FuncDecl.
Variable receiver : Ident.

Local Abbreviation visit := (analyseCodeMethod_visit pass funcDecl (Some receiver)).
Local Abbreviation atReturn := (visitReturn pass funcDecl (Some receiver)).

(** The traversal of a statement is the visit of its return statements,
    in order. *)
Lemma walkStmt_returnStmts :
  (∀ e : expr, True) ∧ (∀ f : field, True) ∧
  (∀ s st, walkStmt visit s st = forM atReturn (returnStmts s) st).
Proof.
  pose proof (walkExpr_codeMethod pass funcDecl (Some receiver)) as (Hexpr & _).
  assert (Hexprs : ∀ l st, forM (walkExpr visit) l st = Done st).
  { intros l st. apply forM_Done, Forall_forall. by intros. }
  assert (Hlist : ∀ l st,
    Forall (λ s, ∀ st, walkStmt visit s st = forM atReturn (returnStmts s) st) l →
    forM (walkStmt visit) l st = forM atReturn (l ≫= returnStmts) st).
  { intros l st Hl. revert st. induction Hl as [|s l Hs _ IH]; intros st; [done|].
    cbn [forM mbind list_bind]. change (list_bind _ _ returnStmts l) with (l ≫= returnStmts).
    rewrite forM_app, Hs. destruct (forM atReturn (returnStmts s) st); cbn; [apply IH|done|done]. }
  assert (Hopt : ∀ o st,
    from_option (λ s, ∀ st, walkStmt visit s st = forM atReturn (returnStmts s) st) True o →
    walkOpt (walkStmt visit) o st = forM atReturn (from_option returnStmts [] o) st).
  { intros [s|] st Ho; cbn; [apply Ho|done]. }
  apply ast_ind; try done.
  - intros. rewrite walkStmt_unfold. cbn [analyseCodeMethod_visit mbind outcome_bind returnStmts forM].
    rewrite Hexprs. cbn [mbind outcome_bind]. apply Hexprs.
  - intros results _ st. rewrite walkStmt_unfold. unfold visitReturn.
    cbn [returnStmts forM].
    destruct (visit (NStmt (ReturnStmt results)) st) as [[[] st']| |]; cbn; done.
  - intros. rewrite walkStmt_unfold. cbn [analyseCodeMethod_visit mbind outcome_bind returnStmts forM].
    by rewrite Hexpr.
  - intros stmts Hstmts st. rewrite walkStmt_unfold. cbn [analyseCodeMethod_visit mbind outcome_bind returnStmts].
    by apply Hlist.
  - intros init cond body els Hinit _ Hbody Hels st. rewrite walkStmt_unfold.
    cbn [analyseCodeMethod_visit mbind outcome_bind returnStmts].
    rewrite !forM_app, Hopt by done.
    destruct (forM atReturn (from_option returnStmts [] init) st) as [st1| |]; cbn [mbind outcome_bind]; try done.
    rewrite Hexpr. cbn [mbind outcome_bind]. rewrite forM_app, Hlist by done.
    destruct (forM atReturn (body ≫= returnStmts) st1) as [st2| |]; cbn [mbind outcome_bind]; try done.
    by apply Hopt.
  - intros kind children Hch st. rewrite walkStmt_unfold.
    cbn [analyseCodeMethod_visit mbind outcome_bind returnStmts].
    revert st. induction Hch as [|child children Hc _ IH]; intros st; [done|].
    cbn [forM mbind list_bind]. rewrite forM_app.
    destruct child as [e|s].
    + rewrite Hexpr. cbn [forM mbind outcome_bind]. apply IH.
    + rewrite Hc. destruct (forM atReturn (returnStmts s) st); cbn; [apply IH|done|done].
Qed.

Lemma Inspect_returnStmts body st :
  Body funcDecl = Some body →
  Inspect visit funcDecl st = forM atReturn (Stmts body ≫= returnStmts) st.
Proof.
  intros Hbody. unfold Inspect. rewrite Hbody.
  destruct walkStmt_returnStmts as (_ & _ & Hwalk).
  revert st. induction (Stmts body) as [|s l IH]; intros st; [done|].
  cbn [forM mbind list_bind]. rewrite forM_app, Hwalk.
  destruct (forM atReturn (returnStmts s) st); cbn; [apply IH|done|done].
Qed.

(** The return statements before a field is returned record no field. *)
Lemma atReturn_no_field l st :
  Forall (returnsNoField pass receiver) l → fieldName st = ""%string →
  ∃ st', forM atReturn l st = Done st' ∧ fieldName st' = ""%string ∧
         codeDiags st `prefix_of` codeDiags st'.
Proof.
  intros Hl. revert st. induction Hl as [|results l (result & -> & Hres) _ IH]; intros st Hst.
  { by exists st. }
  cbn [forM]. unfold visitReturn at 1. cbn [analyseCodeMethod_visit].
  destruct (ConstValue pass result) as [value|] eqn:Hv.
  - destruct (getErrorCodeFromConstant value) as [code|err]; cbn [mbind outcome_bind].
    + destruct (IH (mkCodeMethodState ({[code]} ∪ constants st) (fieldName st) (codeDiags st)) Hst) as (st' & -> & ? & ?).
      by exists st'.
    + destruct (IH (mkCodeMethodState (constants st) (fieldName st) (ReportRangef (codeDiags st) (NStmt (ReturnStmt [result])) err)) Hst) as (st' & -> & ? & Hp).
      exists st'. split_and!; try done. etrans; [|exact Hp]. by apply prefix_app_r.
  - destruct Hres as [[? [=]]|Hres]. rewrite Hres. cbn [mbind outcome_bind].
    match goal with |- context [forM _ l ?s] => destruct (IH s Hst) as (st' & -> & ? & Hp) end.
    exists st'. split_and!; try done. etrans; [|exact Hp]. by apply prefix_app_r.
Qed.

(** Once a field is returned, it is kept, and the diagnostics are
    kept. *)
Lemma atReturn_keeps l st :
  Forall (λ results : list expr, length results = 1%nat) l →
  fieldName st ≠ ""%string →
  ∃ st', forM atReturn l st = Done st' ∧ fieldName st' = fieldName st ∧
         codeDiags st `prefix_of` codeDiags st'.
Proof.
  intros Hl. revert st. induction Hl as [|results l Hlen _ IH]; intros st Hst.
  { by exists st. }
  destruct results as [|result [|]]; try done.
  cbn [forM]. unfold visitReturn at 1. cbn [analyseCodeMethod_visit].
  apply String.eqb_neq in Hst as Hst'.
  assert (Hgo : ∀ st1, fieldName st1 = fieldName st →
            codeDiags st `prefix_of` codeDiags st1 →
            ∃ st', forM atReturn l st1 = Done st' ∧ fieldName st' = fieldName st
                   ∧ codeDiags st `prefix_of` codeDiags st').
  { intros st1 Hf Hp. destruct (IH st1) as (st' & -> & ? & Hp'); [congruence|].
    exists st'. split_and!; [done|congruence|by etrans]. }
  destruct (ConstValue pass result) as [value|].
  - destruct (getErrorCodeFromConstant value) as [code|err]; cbn [mbind outcome_bind];
      apply Hgo; cbn; try done. by apply prefix_app_r.
  - destruct (returnedField (Some receiver) result) as [sel|]; cbn [mbind outcome_bind].
    + rewrite Hst'. destruct (negb _); cbn [mbind outcome_bind]; apply Hgo; cbn; try done.
      by apply prefix_app_r.
    + apply Hgo; cbn; try done. by apply prefix_app_r.
Qed.

(** The traversal of a method that returns a field of the receiver and
    then another one ends with the first field, and with the diagnostic at
    the second return statement. *)
Lemma Inspect_first_field body pre mid post x1 sel1 x2 sel2 diags :
  Body funcDecl = Some body →
  Stmts body ≫= returnStmts
  = pre ++ [SelectorExpr (IdentExpr x1) sel1]
        :: mid ++ [SelectorExpr (IdentExpr x2) sel2] :: post →
  Forall (returnsNoField pass receiver) pre →
  Forall (λ results : list expr, length results = 1%nat) (mid ++ post) →
  Obj x1 = Obj receiver → Obj x2 = Obj receiver →
  ConstValue pass (SelectorExpr (IdentExpr x1) sel1) = None →
  ConstValue pass (SelectorExpr (IdentExpr x2) sel2) = None →
  Name sel1 ≠ ""%string → Name sel2 ≠ Name sel1 →
  ∃ st,
    Inspect visit funcDecl (mkCodeMethodState ∅ "" diags) = Done st ∧
    fieldName st = Name sel1 ∧
    diags `prefix_of` codeDiags st ∧
    onlySingleField [SelectorExpr (IdentExpr x2) sel2] (Name sel2) (Name sel1)
      ∈ codeDiags st.
Proof.
  intros Hbody Hret Hpre Hrest Hx1 Hx2 Hc1 Hc2 Hne Hdiff.
  apply Forall_app in Hrest as [Hmid Hpost].
  rewrite (Inspect_returnStmts body) by done. rewrite Hret, forM_app.
  destruct (atReturn_no_field pre (mkCodeMethodState ∅ "" diags) Hpre eq_refl)
    as (st0 & -> & Hf0 & Hp0).
  cbn [mbind outcome_bind forM]. unfold visitReturn at 1.
  cbn [analyseCodeMethod_visit]. rewrite Hc1.
  rewrite (returnedField_receiver (Some receiver) receiver) by done.
  rewrite Hf0. cbn [String.eqb mbind outcome_bind].
  rewrite forM_app.
  destruct (atReturn_keeps mid
              (mkCodeMethodState (constants st0) (Name sel1) (codeDiags st0))
              Hmid Hne) as (st1 & -> & Hf1 & Hp1).
  cbn [mbind outcome_bind forM fieldName codeDiags] in *.
  unfold visitReturn at 1. cbn [analyseCodeMethod_visit].
  rewrite Hc2, (returnedField_receiver (Some receiver) receiver) by done.
  rewrite Hf1. apply String.eqb_neq in Hne as Hne'. rewrite Hne'.
  assert (String.eqb (Name sel1) (Name sel2) = false) as ->
    by (apply String.eqb_neq; congruence).
  cbn [negb mbind outcome_bind].
  match goal with |- context [forM _ post ?s] =>
    destruct (atReturn_keeps post s Hpost) as (st2 & -> & Hf2 & Hp2) end.
  { cbn. congruence. }
  cbn [fieldName codeDiags] in *.
  exists st2. split_and!; [done|congruence| |].
  - etrans; [exact Hp0|]. etrans; [exact Hp1|]. etrans; [|exact Hp2].
    by apply prefix_app_r.
  - eapply elem_of_prefix; [|exact Hp2]. unfold ReportRangef.
    apply elem_of_app. right. by left.
Qed.

End CodeMethodReturns.

(** C5, amended: in a method [Code] whose return statements, function
    literals apart, return one value each, let the first return statement
    that returns a field of the receiver return the field [sel1], the
    return statements before it returning constants or expressions that do
    not select from the receiver, and let a later return statement return
    another field [sel2] of the receiver.  The analyzer reports "only
    single field allowed" at this later return statement and keeps the
    first field, then looks up the position of [sel1] in the struct of the
    receiver: it panics when this lookup panics; when the position is not
    negative, the fact records the field [sel1] at this position; when it
    is negative, the field is reported as not valid and the fact, if any,
    records no field. *)
Theorem analyseCodeMethod_keeps_first_field pass objects funcDecl receiver
    body pre mid post x1 sel1 x2 sel2 diags :
  Body funcDecl = Some body →
  Stmts body ≫= returnStmts
  = pre ++ [SelectorExpr (IdentExpr x1) sel1]
        :: mid ++ [SelectorExpr (IdentExpr x2) sel2] :: post →
  Forall (returnsNoField pass receiver) pre →
  Forall (λ results : list expr, length results = 1%nat) (mid ++ post) →
  Obj x1 = Obj receiver → Obj x2 = Obj receiver →
  ConstValue pass (SelectorExpr (IdentExpr x1) sel1) = None →
  ConstValue pass (SelectorExpr (IdentExpr x2) sel2) = None →
  Name sel1 ≠ ""%string → Name sel2 ≠ Name sel1 →
  ∃ st,
    Inspect (analyseCodeMethod_visit pass funcDecl (Some receiver)) funcDecl
      (mkCodeMethodState ∅ "" diags) = Done st ∧
    fieldName st = Name sel1 ∧
    diags `prefix_of` codeDiags st ∧
    onlySingleField [SelectorExpr (IdentExpr x2) sel2] (Name sel2) (Name sel1)
      ∈ codeDiags st ∧
    (∀ msg,
       getFieldPositionUsingMethodReceiver objects receiver (Name sel1)
         = Panic msg →
       analyseCodeMethod pass objects funcDecl (Some receiver) diags
       = Panic msg) ∧
    (∀ position,
       getFieldPositionUsingMethodReceiver objects receiver (Name sel1)
         = Done position →
       0 ≤ position →
       analyseCodeMethod pass objects funcDecl (Some receiver) diags
       = Done (Some (mkErrorType (slice (constants st))
                       (Some (mkErrorCodeField (Name sel1) position))),
               codeDiags st)) ∧
    (∀ position,
       getFieldPositionUsingMethodReceiver objects receiver (Name sel1)
         = Done position →
       position < 0 →
       analyseCodeMethod pass objects funcDecl (Some receiver) diags
       = Done (if (size (constants st) =? 0)%nat then None
               else Some (mkErrorType (slice (constants st)) None),
               codeDiags st ++ [notAValidField funcDecl (Name sel1)])).
Proof.
  intros Hbody Hret Hpre Hrest Hx1 Hx2 Hc1 Hc2 Hne Hdiff.
  destruct (Inspect_first_field pass funcDecl receiver body pre mid post
              x1 sel1 x2 sel2 diags) as (st & Hrun & Hfield & Hprefix & Hdiag);
    try done.
  exists st. split_and!; try done.
  - intros msg Hpos. unfold analyseCodeMethod. rewrite Hrun.
    cbn [mbind outcome_bind]. rewrite Hfield.
    apply String.eqb_neq in Hne. rewrite Hne. cbn [negb]. by rewrite Hpos.
  - intros position Hpos Hge. unfold analyseCodeMethod. rewrite Hrun.
    cbn [mbind outcome_bind]. rewrite Hfield.
    apply String.eqb_neq in Hne. rewrite Hne. cbn [negb]. rewrite Hpos.
    cbn [mbind outcome_bind]. apply Z.leb_le in Hge. rewrite Hge.
    cbn [mbind outcome_bind]. by rewrite andb_false_r.
  - intros position Hpos Hlt. unfold analyseCodeMethod. rewrite Hrun.
    cbn [mbind outcome_bind]. rewrite Hfield.
    apply String.eqb_neq in Hne. rewrite Hne. cbn [negb]. rewrite Hpos.
    cbn [mbind outcome_bind]. apply Z.leb_gt in Hlt. rewrite Hlt.
    cbn [mbind outcome_bind].
    rewrite bool_decide_eq_true_2, andb_true_r by done.
    by destruct (size (constants st) =? 0)%nat.
Qed.

Lemma analyseCodeMethod_keeps_first_field_witness :
  analyseCodeMethod Sample.pass Sample.objects Sample.CodeIfElse
    (Some Sample.receiver) []
  = Done (Some (mkErrorType ["fixed-code"%string]
                  (Some (mkErrorCodeField "TheCode" 0))),
          [onlySingleField Sample.returnsOther "Other" "TheCode"]).
Proof.
  assert (Forall (returnsNoField Sample.pass Sample.receiver)
            [Sample.returnFixed]) as Hpre.
  { constructor; [|constructor]. eexists. split; [reflexivity|].
    left. by eexists. }
  assert (Forall (λ results : list expr, length results = 1%nat)
            ([] ++ [])) as Hrest by constructor.
  assert ("TheCode"%string ≠ ""%string) as Hne by done.
  assert ("Other"%string ≠ "TheCode"%string) as Hdiff by done.
  destruct (analyseCodeMethod_keeps_first_field Sample.pass Sample.objects
              Sample.CodeIfElse Sample.receiver
              (mkBlock 2332 (Stmts (default (mkBlock 0 [] 0)
                                      (Body Sample.CodeIfElse))) 2460)
              [Sample.returnFixed] [] []
              (mkIdent 393 0 "e" (Some 10%nat)) (Sample.ident 394 "TheCode" None)
              (mkIdent 395 0 "e" (Some 10%nat)) (Sample.ident 396 "Other" None)
              [] eq_refl eq_refl Hpre Hrest eq_refl eq_refl eq_refl eq_refl
              Hne Hdiff)
    as (st & Hrun & _ & _ & _ & _ & Hfact & _).
  vm_compute in Hrun. injection Hrun as <-.
  rewrite (Hfact 0); [by vm_compute|by vm_compute|done].
Defined.

(** ** The results of a component *)

Section Unify.
Context {ExprPtr : Type} `{Countable ExprPtr}.
Implicit Types (r result : @funcAnalysisResult ExprPtr _ _).
Implicit Types (m : gmap nat (@funcAnalysisResult ExprPtr _ _)).

Lemma combine_all (F : FuncDecl → @funcAnalysisResult ExprPtr _ _) l r :
  foldl (λ result funcDecl, combineInplace result (F funcDecl)) r l
  = mkFuncAnalysisResult
      (affectors r ∪ ⋃ ((λ g, affectors (F g)) <$> l))
      (codes r ∪ ⋃ ((λ g, codes (F g)) <$> l)).
Proof.
  revert r. induction l as [|g l IH]; intros r; cbn [foldl fmap list_fmap].
  - destruct r. cbn. f_equal; set_solver.
  - rewrite IH. unfold combineInplace. cbn. f_equal; set_solver.
Qed.

Lemma assign_all result l m k :
  foldl (λ m funcDecl, <[funcNode funcDecl := result]> m) m l !! k
  = if bool_decide (k ∈ funcNode <$> l) then Some result else m !! k.
Proof.
  revert m. induction l as [|g l IH]; intros m; cbn [foldl fmap list_fmap].
  - by rewrite bool_decide_eq_false_2 by set_solver.
  - rewrite IH. case_bool_decide as Hl.
    + by rewrite bool_decide_eq_true_2 by set_solver.
    + destruct (decide (k = funcNode g)) as [->|Hne].
      * rewrite bool_decide_eq_true_2 by set_solver.
        by rewrite lookup_insert_eq.
      * rewrite bool_decide_eq_false_2 by set_solver.
        by rewrite lookup_insert_ne.
Qed.

Lemma unifyAnalysisResultForComponent_spec m component f :
  f ∈ component →
  (unifyAnalysisResultForComponent m component).2 !! funcNode f
    = Some (unifyAnalysisResultForComponent m component).1 ∧
  (unifyAnalysisResultForComponent m component).1
    = mkFuncAnalysisResult
        (⋃ ((λ g, affectors (analysisResultOf m g)) <$> component))
        (⋃ ((λ g, codes (analysisResultOf m g)) <$> component)).
Proof.
  intros Hf. unfold unifyAnalysisResultForComponent. cbn [fst snd]. split.
  - rewrite assign_all. rewrite bool_decide_eq_true_2; [done|].
    by apply list_elem_of_fmap_2.
  - rewrite combine_all. cbn. f_equal; set_solver.
Qed.

End Unify.

(** C2: when the visit of [funcDecl] ends as the root of a component, every
    function of the component has the same analysis result, which is the
    union of the affectors and of the codes of the results the functions
    of the component had. *)
Theorem component_results_unified {ExprPtr : Type} `{Countable ExprPtr}
    (analysisResults : gmap nat (@funcAnalysisResult ExprPtr _ _))
    funcDecl result component f :
  f ∈ component →
  let before := <[funcNode funcDecl := result]> analysisResults in
  let after := endOfVisit analysisResults funcDecl result (true, component) in
  after.2 !! funcNode f = Some after.1 ∧
  after.1 = mkFuncAnalysisResult
              (⋃ ((λ g, affectors (analysisResultOf before g)) <$> component))
              (⋃ ((λ g, codes (analysisResultOf before g)) <$> component)).
Proof.
  intros Hf before after. subst after. unfold endOfVisit.
  by apply unifyAnalysisResultForComponent_spec.
Qed.

Lemma component_results_unified_witness :
  let after :=
    endOfVisit {[ 11%nat := Sample.resultB ]} Sample.funcA Sample.resultA
      (true, [Sample.funcB; Sample.funcA]) in
  after.2 !! 11%nat = Some after.1 ∧
  after.1 = mkFuncAnalysisResult
              (⋃ ((λ g, affectors
                          (analysisResultOf
                             (<[10%nat := Sample.resultA]>
                                {[ 11%nat := Sample.resultB ]}) g))
                    <$> [Sample.funcB; Sample.funcA]))
              (⋃ ((λ g, codes
                          (analysisResultOf
                             (<[10%nat := Sample.resultA]>
                                {[ 11%nat := Sample.resultB ]}) g))
                    <$> [Sample.funcB; Sample.funcA])).
Proof.
  apply (component_results_unified {[ 11%nat := Sample.resultB ]}
           Sample.funcA Sample.resultA
           [Sample.funcB; Sample.funcA] Sample.funcB).
  by left.
Defined.

(** * Further properties *)

(** ** Invariants of the traversals *)

Lemma ensures_bind {A B} (J : A → Prop) (I : B → Prop) (m : outcome A)
    (f : A → outcome B) :
  ensures J m → (∀ a, J a → ensures I (f a)) → ensures I (m ≫= f).
Proof. destruct m; cbn; auto. Qed.

Lemma ensures_impl {A} (I J : A → Prop) (o : outcome A) :
  ensures I o → (∀ a, I a → J a) → ensures J o.
Proof. destruct o; cbn; auto. Qed.

Lemma ensures_Done {A} (I : A → Prop) (o : outcome A) a :
  ensures I o → o = Done a → I a.
Proof. by intros Ho ->. Qed.

Lemma forM_ensures {A S} (body : A → S → outcome S) (I : S → Prop) l s :
  (∀ x s, x ∈ l → I s → ensures I (body x s)) →
  I s → ensures I (forM body l s).
Proof.
  revert s. induction l as [|x l IH]; intros s Hl Hs; cbn; [done|].
  pose proof (Hl x s ltac:(left) Hs) as Hx.
  destruct (body x s); cbn in *; auto.
  apply IH; [|done]. intros. apply Hl; [by right|done].
Qed.

Section WalkEnsures.
Context {S : Type}.
Variable visit : node → S → outcome (bool * S).
Variable I : S → Prop.
Hypothesis Hvisit : ∀ n s, I s → ensures (λ r, I r.2) (visit n s).

Lemma visit_ident_ensures id s :
  I s → ensures I (visit (NExpr (IdentExpr id)) s ≫= λ '(_, s), Done s).
Proof.
  intros Hs. eapply (ensures_bind (λ r, I r.2)); [by apply Hvisit|].
  by intros [? ?] ?.
Qed.

Lemma Forall_forM_ensures {A} (w : A → S → outcome S) l s :
  Forall (λ x, ∀ s, I s → ensures I (w x s)) l →
  I s → ensures I (forM w l s).
Proof.
  intros Hl. apply forM_ensures. rewrite Forall_forall in Hl. auto.
Qed.

Local Ltac child :=
  match goal with
  | |- ensures I (Done _) => done
  | |- ensures I (walkOpt _ ?o _) => destruct o; cbn [walkOpt from_option] in *
  | |- ensures I (visit (NExpr (IdentExpr _)) _ ≫= _) =>
      by apply visit_ident_ensures
  | |- ensures I (_ ≫= _) => eapply (ensures_bind I); [|intros ? ?]
  | |- ensures I (forM _ _ _) => apply Forall_forM_ensures; [|done]
  | H : ∀ s, I s → ensures I (?w ?x s) |- ensures I (?w ?x _) => by apply H
  | H : Forall _ ?l |- Forall _ ?l => exact H
  | |- Forall _ _ =>
      apply Forall_forall; intros ? ? ? ?; by apply visit_ident_ensures
  end.

Lemma walk_ensures :
  (∀ e s, I s → ensures I (walkExpr visit e s)) ∧
  (∀ f s, I s → ensures I (walkField visit f s)) ∧
  (∀ st s, I s → ensures I (walkStmt visit st s)).
Proof.
  apply ast_ind; intros;
    rewrite ?walkExpr_unfold, ?walkField_unfold, ?walkStmt_unfold;
    (eapply (ensures_bind (λ r, I r.2));
     [ by apply Hvisit
     | intros [[] s'] Hs'; cbn [snd] in Hs'; [|done] ]).
  all: try done.
  all: repeat child.
  eapply Forall_impl; [eassumption|]. intros [e|st]; cbn; auto.
Qed.

Lemma Inspect_ensures d s : I s → ensures I (Inspect visit d s).
Proof.
  intros Hs. unfold Inspect. destruct (Body d) as [b|]; [|done].
  apply forM_ensures; [|done]. intros. by apply walk_ensures.
Qed.

End WalkEnsures.

Lemma elem_of_slice (s : codeSet) x : x ∈ slice s ↔ x ∈ s.
Proof.
  unfold slice. rewrite merge_sort_Permutation. apply elem_of_elements.
Qed.

Lemma length_slice (s : codeSet) : length (slice s) = size s.
Proof. unfold slice. by rewrite merge_sort_Permutation. Qed.

Lemma getErrorCodeFromConstant_valid value code :
  getErrorCodeFromConstant value = inl code → isErrorCodeValid code = true.
Proof.
  unfold getErrorCodeFromConstant. destruct (negb _); [done|].
  destruct (strconv_Unquote _) as [result|]; [|done].
  destruct (isErrorCodeValid result) eqn:Hv; cbn; [|done]. by intros [= <-].
Qed.

Section Facts.
Variable pass : Pass.
Variable objects : Objects.

Lemma analyseCodeMethod_visit_valid funcDecl receiver n st :
  set_Forall (λ code, isErrorCodeValid code = true) (constants st) →
  ensures (λ r, set_Forall (λ code, isErrorCodeValid code = true)
                  (constants r.2))
    (analyseCodeMethod_visit pass funcDecl receiver n st).
Proof.
  intros Hst. destruct n as [[]| |[]]; try done. cbn.
  destruct results as [|result [|]]; try done.
  destruct (ConstValue pass result) as [value|].
  - destruct (getErrorCodeFromConstant value) as [code|] eqn:Hc; [|done].
    cbn. apply getErrorCodeFromConstant_valid in Hc.
    apply set_Forall_union; [by apply set_Forall_singleton|done].
  - destruct (returnedField _ _); [|done].
    destruct (String.eqb _ _); [done|]. by destruct (negb _).
Qed.

Lemma analyseCodeMethod_fact funcDecl receiver diags fact diags' :
  analyseCodeMethod pass objects funcDecl receiver diags
    = Done (Some fact, diags') →
  wellFormed fact.
Proof.
  unfold analyseCodeMethod. intros Hrun.
  pose proof (Inspect_ensures (analyseCodeMethod_visit pass funcDecl receiver)
                _ (analyseCodeMethod_visit_valid funcDecl receiver)
                funcDecl (mkCodeMethodState ∅ "" diags)) as Hins.
  destruct (Inspect _ _ _) as [st| |]; [|done..].
  cbn in Hins. specialize (Hins ltac:(by apply set_Forall_empty)).
  cbn [mbind outcome_bind] in Hrun.
  assert (∀ field d,
    match receiver with
    | Some receiver =>
      if negb (String.eqb (fieldName st) "") then
        position ← getFieldPositionUsingMethodReceiver objects receiver (fieldName st);
        if 0 <=? position then
          Done (Some (mkErrorCodeField (fieldName st) position), codeDiags st)
        else
          Done (None,
                Reportf (codeDiags st) (FuncPos funcDecl)
                  ("returned field " ++ fmt_q (fieldName st)
                   ++ " is not a valid error code field (promoted fields are not supported currently, but might be added in the future)"))
      else Done (None, codeDiags st)
    | None => Done (None, codeDiags st)
    end = Done (Some field, d) → 0 ≤ Position field) as Hpos.
  { intros field d. destruct receiver; [|done].
    destruct (negb _); [|done].
    destruct (getFieldPositionUsingMethodReceiver _ _ _) as [position| |]; [|done..].
    cbn. destruct (0 <=? position) eqn:Hp; [|done].
    intros [= <- _]. cbn. lia. }
  destruct (match receiver with Some _ => _ | None => _ end)
    as [[field d]| |]; [|done..].
  cbn [mbind outcome_bind] in Hrun.
  destruct (_ && _) eqn:Hnil; [done|]. injection Hrun as <- _.
  split_and!; cbn.
  - apply Forall_forall. intros code Hc%elem_of_slice. by apply Hins.
  - intros f ->. by eapply Hpos.
  - apply andb_false_iff in Hnil as [Hs|Hf].
    + left. intros Hnil%(f_equal length). rewrite length_slice in Hnil.
      cbn in Hnil. rewrite Hnil in Hs. done.
    + right. intros ->. by rewrite bool_decide_eq_true_2 in Hf.
Qed.
(** X1: every fact [analyseCodeMethod] returns is well formed: each of its
    codes passes [isErrorCodeValid], the position of its field is not
    negative, and it has a code or a field. *)
Theorem analyseCodeMethod_well_formed funcDecl receiver diags fact diags' :
  analyseCodeMethod pass objects funcDecl receiver diags
    = Done (Some fact, diags') →
  wellFormed fact.
Proof. apply analyseCodeMethod_fact. Qed.

End Facts.

Lemma analyseCodeMethod_well_formed_witness :
  wellFormed (mkErrorType [] (Some (mkErrorCodeField "Other" 1))).
Proof.
  eapply (analyseCodeMethod_well_formed Sample.pass Sample.objects
            Sample.CodeTwoFields (Some Sample.receiver) []).
  reflexivity.
Defined.


(** ** The position of the field of an error type *)

Lemma fieldNamesLoop_find names fieldName i :
  fieldNamesLoop names fieldName i
  = match list_find (λ s, s = Some fieldName) ((Some ∘ Name) <$> names) with
    | Some (k, _) => inl (i + Z.of_nat k)
    | None => inr (i + Z.of_nat (length names))
    end.
Proof.
  revert i. induction names as [|name names IH]; intros i;
    cbn [fieldNamesLoop fmap list_fmap list_find length].
  - f_equal. lia.
  - destruct (String.eqb_spec (Name name) fieldName) as [Heq|Hne].
    + rewrite decide_True by (cbn; congruence). f_equal. lia.
    + rewrite decide_False by (cbn; congruence).
      rewrite IH. destruct (list_find _ _) as [[k ?]|]; cbn; f_equal; lia.
Qed.

(** X2: the loop of [getFieldPositionUsingMethodReceiver] returns the index
    of the first position of the struct that has the name [fieldName],
    counted from [i], where each name of a field takes one position and a
    field without a name takes one; it returns -1 when no position has the
    name. *)
Theorem fieldsLoop_first_slot fields fieldName i :
  fieldsLoop fields fieldName i
  = match list_find (λ s, s = Some fieldName) (slots fields) with
    | Some (k, _) => i + Z.of_nat k
    | None => -1
    end.
Proof.
  unfold slots. revert i. induction fields as [|[pos names type] fields IH]; intros i;
    cbn [fieldsLoop mbind list_bind fieldNames]; [done|].
  destruct names as [|name names].
  - cbn [app list_find]. rewrite decide_False by done. rewrite IH.
    destruct (list_find _ _) as [[k ?]|]; cbn; [lia|done].
  - rewrite fieldNamesLoop_find.
    destruct (list_find _ ((Some ∘ Name) <$> name :: names)) as [[k x]|] eqn:Hf.
    + erewrite list_find_app_l by done. done.
    + rewrite list_find_app_r by done. rewrite IH.
      destruct (list_find _ (_ ≫= _)) as [[k ?]|]; cbn; [|done].
      rewrite length_fmap. lia.
Qed.

(** ** String constants *)

Lemma plainTail_quote s :
  Forall (λ c, codeByte c = true) (GoString.bytes s) →
  plainTail (s ++ String "034" EmptyString) = Some s.
Proof.
  induction s as [|c s IH]; intros Hs; [done|].
  cbn [GoString.bytes] in Hs. apply Forall_cons in Hs as [Hc Hs].
  assert (Ascii.eqb c "034" || Ascii.eqb c "\" || Ascii.eqb c "010" = false)
    as Hplain.
  { apply codeByte_alnumDash in Hc.
    destruct (Ascii.eqb_spec c "034") as [->|]; [done|].
    destruct (Ascii.eqb_spec c "\") as [->|]; [done|].
    by destruct (Ascii.eqb_spec c "010") as [->|]. }
  specialize (IH Hs). destruct s as [|c' s].
  - change (plainTail (String c (String "034" EmptyString)) = Some (String c "")).
    cbn [plainTail]. by rewrite Hplain.
  - change (plainTail (String c (String c' (s ++ String "034" EmptyString)))
            = Some (String c (String c' s))).
    change (plainTail (String c' (s ++ String "034" EmptyString))
            = Some (String c' s)) in IH.
    cbn [plainTail] in *. rewrite Hplain. by rewrite IH.
Qed.

(** X3: a string constant that renders as the code between double quotes
    is accepted exactly when the code passes [isErrorCodeValid], and the
    code is returned as it is. *)
Theorem getErrorCodeFromConstant_quoted code :
  getErrorCodeFromConstant (mkConstant KString (fmt_q code)) = inl code
  ↔ isErrorCodeValid code = true.
Proof.
  split; [apply getErrorCodeFromConstant_valid|].
  intros Hv. unfold getErrorCodeFromConstant, fmt_q, strconv_Unquote.
  cbn [ValueKind ValueString]. rewrite bool_decide_eq_true_2 by done.
  change (String "034" EmptyString ++ code ++ String "034" EmptyString)%string
    with (String "034" (code ++ String "034" EmptyString)).
  cbn [negb]. change (Ascii.eqb "034" "034") with true. cbn match.
  pose proof Hv as (c & l & cl & Hb & _ & _ & _ & _ & Hall)%isErrorCodeValid_bytes.
  rewrite <- Hb in Hall. rewrite plainTail_quote by done. by rewrite Hv.
Qed.

(** ** The registry *)

Lemma collectFunctions_snoc decls f :
  collectFunctions (decls ++ [f])
  = let result := collectFunctions decls in
    let name := Name (FuncName f) in
    if hasReceiver f then
      mkFuncLookup (functions result)
        (<[name := default [] (methods result !! name) ++ [f]]>
           (methods result))
    else
      mkFuncLookup (<[name := f]> (functions result)) (methods result).
Proof.
  unfold collectFunctions at 1. rewrite foldl_app. cbn [foldl].
  fold (collectFunctions decls). unfold hasReceiver.
  by destruct (Recv f) as [[|? ?]|].
Qed.

Lemma collectFunctions_methods decls name :
  methods (collectFunctions decls) !! name
  = match methodsNamed name decls with
    | [] => None
    | ms => Some ms
    end.
Proof.
  unfold methodsNamed.
  induction decls as [|f decls IH] using rev_ind; [done|].
  rewrite collectFunctions_snoc, filter_app. cbn zeta.
  rewrite filter_cons, filter_nil.
  destruct (hasReceiver f) eqn:Hr; cbn [methods].
  - destruct (decide (Name (FuncName f) = name)) as [<-|Hne].
    + rewrite lookup_insert_eq, decide_True by done. rewrite IH.
      by destruct (filter _ decls).
    + rewrite lookup_insert_ne, decide_False by tauto.
      by rewrite app_nil_r.
  - rewrite decide_False by (intros [? _]; congruence).
    by rewrite app_nil_r.
Qed.

Lemma collectFunctions_functions decls name :
  functions (collectFunctions decls) !! name
  = last (functionsNamed name decls).
Proof.
  unfold functionsNamed.
  induction decls as [|f decls IH] using rev_ind; [done|].
  rewrite collectFunctions_snoc, filter_app. cbn zeta.
  rewrite filter_cons, filter_nil.
  destruct (hasReceiver f) eqn:Hr; cbn [functions].
  - rewrite decide_False by (intros [? _]; congruence).
    by rewrite app_nil_r.
  - destruct (decide (Name (FuncName f) = name)) as [<-|Hne].
    + rewrite lookup_insert_eq, decide_True by done. by rewrite last_snoc.
    + rewrite lookup_insert_ne, decide_False by tauto.
      by rewrite app_nil_r.
Qed.

(** X4: in the registry [collectFunctions] builds, a name is mapped to the
    last declaration without a receiver that has the name, and to all the
    declarations with a receiver that have the name, in the order of the
    declarations. *)
Theorem collectFunctions_registry decls name :
  functions (collectFunctions decls) !! name
    = last (functionsNamed name decls) ∧
  default [] (methods (collectFunctions decls) !! name)
    = methodsNamed name decls.
Proof.
  split; [apply collectFunctions_functions|].
  rewrite collectFunctions_methods. by destruct (methodsNamed _ _).
Qed.

Lemma elem_of_allFuncs lookup f :
  f ∈ allFuncs lookup ↔
  (∃ name, functions lookup !! name = Some f) ∨
  (∃ name ms, methods lookup !! name = Some ms ∧ f ∈ ms).
Proof.
  unfold allFuncs. rewrite elem_of_app.
  assert (∀ A B C D : Prop, (A ↔ C) → (B ↔ D) → (A ∨ B ↔ C ∨ D)) as Hor
    by tauto.
  apply Hor.
  - rewrite list_elem_of_fmap. split.
    + intros ([name g] & -> & Hin%elem_of_map_to_list). by exists name.
    + intros (name & Hin). exists (name, f). by rewrite elem_of_map_to_list.
  - rewrite list_elem_of_In, in_concat. split.
    + intros (ms & Hms & Hf). rewrite <- list_elem_of_In in Hms. rewrite <- list_elem_of_In in Hf.
      apply list_elem_of_fmap in Hms as ([name ms'] & -> & Hin%elem_of_map_to_list).
      by exists name, ms'.
    + intros (name & ms & Hl & Hf). exists ms.
      rewrite <- !list_elem_of_In. split; [|done].
      apply list_elem_of_fmap. exists (name, ms). by rewrite elem_of_map_to_list.
Qed.

(** X5: [forEach] on the registry of [collectFunctions] reaches every
    declaration with a receiver, and a declaration without a receiver when
    no later declaration without a receiver has its name; it reaches no
    other declaration. *)
Theorem forEach_collectFunctions decls f :
  f ∈ allFuncs (collectFunctions decls) ↔
  f ∈ decls ∧
  (hasReceiver f = true ∨
   last (functionsNamed (Name (FuncName f)) decls) = Some f).
Proof.
  rewrite elem_of_allFuncs. split.
  - intros [(name & Hf)|(name & ms & Hms & Hf)].
    + rewrite collectFunctions_functions in Hf.
      pose proof Hf as Hin%last_Some_elem_of.
      apply list_elem_of_filter in Hin as [[_ <-] Hin]. tauto.
    + rewrite collectFunctions_methods in Hms.
      assert (ms = methodsNamed name decls) as ->
        by (destruct (methodsNamed name decls); congruence).
      apply list_elem_of_filter in Hf as [[? _] ?]. tauto.
  - intros [Hin [Hr|Hl]].
    + right. exists (Name (FuncName f)), (methodsNamed (Name (FuncName f)) decls).
      assert (f ∈ methodsNamed (Name (FuncName f)) decls) as Hf
        by (by apply list_elem_of_filter).
      split; [|done]. rewrite collectFunctions_methods.
      destruct (methodsNamed _ _); [by apply elem_of_nil in Hf|done].
    + left. exists (Name (FuncName f)). by rewrite collectFunctions_functions.
Qed.

(** ** The method [Code] of an error type *)

Lemma getCodeFuncLoop_find pass ms err :
  Forall (λ f, hasReceiver f = true) ms →
  getCodeFuncLoop pass ms err
  = Done ((λ f, (f, receiverOf f))
            <$> head (filter (λ f, receiverMatches pass err f = true) ms)).
Proof.
  induction 1 as [|f ms Hf _ IH]; [done|].
  cbn [getCodeFuncLoop]. rewrite filter_cons.
  unfold hasReceiver, receiverMatches, receiverOf in *.
  destruct (Recv f) as [[|[pos names type] ?]|] eqn:HR; try done.
  cbn [fieldType fieldNames]. destruct (errorTypesSubset _ _); cbn [negb].
  - rewrite decide_True by done. cbn. rewrite HR.
    by destruct names as [|? [|]].
  - rewrite decide_False by congruence. exact IH.
Qed.

(** X6: on the registry of [collectFunctions], [getCodeFuncFromError]
    does not panic: it returns the first declaration named [Code] whose
    receiver type is [err] or the type [err] points to, with the name of
    the receiver when it has one name, and nil when there is no such
    declaration. *)
Theorem getCodeFuncFromError_collectFunctions pass decls err :
  getCodeFuncFromError pass (collectFunctions decls) err
  = Done ((λ f, (f, receiverOf f))
            <$> head (filter (λ f, Name (FuncName f) = "Code"%string
                                   ∧ receiverMatches pass err f = true)
                             decls)).
Proof.
  assert (filter (λ f, Name (FuncName f) = "Code"%string
                       ∧ receiverMatches pass err f = true) decls
          = filter (λ f, receiverMatches pass err f = true)
                   (methodsNamed "Code" decls)) as ->.
  { unfold methodsNamed. rewrite list_filter_filter. apply list_filter_iff.
    intros f. unfold receiverMatches, hasReceiver.
    destruct (Recv f) as [[|? ?]|]; intuition congruence. }
  unfold getCodeFuncFromError. rewrite collectFunctions_methods.
  destruct (methodsNamed "Code" decls) as [|m ms] eqn:Hms; [done|].
  apply getCodeFuncLoop_find. rewrite <- Hms. unfold methodsNamed.
  apply Forall_forall. by intros f [[? _] _]%list_elem_of_filter.
Qed.

(** ** The pre-pass on an empty result list *)

Lemma forM_Panic {A S} (body : A → S → outcome S) msg l x s :
  x ∈ l →
  (∀ s, body x s = Panic msg) →
  (∀ y s, y ∈ l → body y s = Panic msg ∨ ∃ s', body y s = Done s') →
  forM body l s = Panic msg.
Proof.
  intros Hx Hpanic Hall. revert s.
  induction l as [|y l IH]; intros s; [by apply elem_of_nil in Hx|].
  cbn [forM]. apply elem_of_cons in Hx as [<-|Hx]; [by rewrite Hpanic|].
  destruct (Hall y s ltac:(left)) as [->|[s' ->]]; [done|].
  apply IH; [done|]. intros. apply Hall. by right.
Qed.

(** X7: when a declaration of the registry has a result list that is not
    nil and has no element, as in [func f() ()], the pre-pass panics on
    the index of the last result: no candidate and no diagnostic comes out
    of it. *)
Theorem findErrorReturningFunctions_empty_results pass lookup diags f rs :
  f ∈ allFuncs lookup → Results f = Some rs → List rs = [] →
  findErrorReturningFunctions pass lookup diags
  = Panic "runtime error: index out of range [-1]".
Proof.
  intros Hin Hrs Hnil. unfold findErrorReturningFunctions.
  rewrite forEach_allFuncs. apply (forM_Panic _ _ _ f); [done|..].
  - intros [funcs ds]. unfold findErrorReturningFunctions_visit.
    by rewrite Hrs, Hnil.
  - intros g [funcs ds] _. unfold findErrorReturningFunctions_visit.
    destruct (Results g) as [rs'|]; [|by right; eexists].
    destruct (last (List rs')); [|by left].
    destruct (negb _); right; by eexists.
Qed.

Lemma findErrorReturningFunctions_empty_results_witness :
  findErrorReturningFunctions Sample.pass Sample.lookupNothing []
  = Panic "runtime error: index out of range [-1]".
Proof.
  apply (findErrorReturningFunctions_empty_results Sample.pass
           Sample.lookupNothing [] Sample.Nothing (mkFieldList 1615 [])).
  - vm_compute. repeat first [by left | right].
  - reflexivity.
  - reflexivity.
Defined.

(** ** The claims and the facts of a package *)

Section Claims.
Variable pass : Pass.

Lemma findClaimedErrorCodes_snoc funcs f diags :
  (findClaimedErrorCodes pass (funcs ++ [f]) diags).1
  = match findErrorDocs f with
    | (codes, None) =>
      if (size codes =? 0)%nat then (findClaimedErrorCodes pass funcs diags).1
      else <[funcNode f := (f, codes)]>
             (findClaimedErrorCodes pass funcs diags).1
    | (_, Some _) => (findClaimedErrorCodes pass funcs diags).1
    end.
Proof.
  unfold findClaimedErrorCodes. rewrite foldl_app. cbn [foldl].
  destruct (foldl _ _ funcs) as [result ds]. cbn [fst].
  destruct (findErrorDocs f) as [codes [err|]]; [done|].
  destruct (size codes =? 0)%nat; [|done].
  destruct (_ && _); [done|]. by destruct (IsExported _ _).
Qed.

(** X8: the claims [findClaimedErrorCodes] returns map the address of a
    declaration to the declaration and the codes of its docstring exactly
    when the declaration is one of the given functions, its docstring is
    well formed and it declares a code.  The functions are told apart by
    their address. *)
Theorem findClaimedErrorCodes_lookup funcs diags n f codes :
  (∀ g h, g ∈ funcs → h ∈ funcs → funcNode g = funcNode h → g = h) →
  (findClaimedErrorCodes pass funcs diags).1 !! n = Some (f, codes) ↔
  f ∈ funcs ∧ funcNode f = n ∧ findErrorDocs f = (codes, None) ∧ codes ≠ ∅.
Proof.
  induction funcs as [|g funcs IH] using rev_ind; intros Hinj.
  { cbn. rewrite lookup_empty. split; [done|]. by intros [?%elem_of_nil _]. }
  rewrite findClaimedErrorCodes_snoc.
  assert ((findClaimedErrorCodes pass funcs diags).1 !! n = Some (f, codes) ↔
          f ∈ funcs ∧ funcNode f = n ∧ findErrorDocs f = (codes, None)
          ∧ codes ≠ ∅) as IH'.
  { apply IH. intros. apply Hinj; [set_solver..|done]. }
  clear IH.
  assert (∀ h, h ∈ funcs → funcNode h = funcNode g → h = g) as Hsame.
  { intros. apply Hinj; [set_solver..|done]. }
  rewrite elem_of_app, list_elem_of_singleton.
  destruct (findErrorDocs g) as [codes' [err|]] eqn:Hdocs.
  - rewrite IH'. split; [tauto|]. intros [[Hf| ->] (Hn & Hd & Hne)]; [tauto|].
    congruence.
  - destruct (size codes' =? 0)%nat eqn:Hsize.
    + rewrite IH'. split; [tauto|].
      intros [[Hf| ->] (Hn & Hd & Hne)]; [tauto|].
      apply Nat.eqb_eq, size_empty_iff in Hsize.
      rewrite Hdocs in Hd. injection Hd as <-. by destruct Hne; apply leibniz_equiv.
    + apply Nat.eqb_neq in Hsize.
      destruct (decide (n = funcNode g)) as [->|Hn].
      * rewrite lookup_insert_eq. split.
        -- intros [= <- <-]. split_and!; try done; [by right|].
           intros ->. by rewrite size_empty in Hsize.
        -- intros [[Hf| ->] (Hnode & Hd & Hne)].
           ++ apply Hsame in Hf as ->; [|done]. congruence.
           ++ congruence.
      * rewrite lookup_insert_ne by done. rewrite IH'. split; [tauto|].
        intros [[Hf| ->] (Hnode & Hd & Hne)]; [tauto|]. congruence.
Qed.

(** X9: [exportFunctionErrorCodes] gives the function object [fn] the
    sorted slice of the codes its declaration claims, whatever fact it had,
    when one declaration of the claims defines [fn]. *)
Theorem exportFunctionErrorCodes_lookup claims facts n f codes fn :
  claims !! n = Some (f, codes) →
  Defs pass (FuncName f) = Some (TFunc fn) →
  (∀ n' f' codes', claims !! n' = Some (f', codes') →
     Defs pass (FuncName f') = Some (TFunc fn) → n' = n) →
  exportFunctionErrorCodes pass claims facts !! fn
  = Some (mkErrorCodes (slice codes)).
Proof.
  unfold exportFunctionErrorCodes. revert n f codes.
  apply (map_fold_weak_ind (λ r (m : gmap nat (FuncDecl * codeSet)), ∀ n f codes,
    m !! n = Some (f, codes) →
    Defs pass (FuncName f) = Some (TFunc fn) →
    (∀ n' f' codes', m !! n' = Some (f', codes') →
       Defs pass (FuncName f') = Some (TFunc fn) → n' = n) →
    r !! fn = Some (mkErrorCodes (slice codes)))).
  { intros n f codes Hl. by rewrite lookup_empty in Hl. }
  intros i [g codes'] m r Hi IH n f codes Hl Hdef Huniq.
  destruct (decide (i = n)) as [->|Hne].
  - rewrite lookup_insert_eq in Hl. injection Hl as -> ->.
    rewrite Hdef. by rewrite lookup_insert_eq.
  - rewrite lookup_insert_ne in Hl by done.
    assert (r !! fn = Some (mkErrorCodes (slice codes))) as Hr.
    { apply (IH n f codes Hl Hdef). intros n' f' c' Hn' Hd'.
      apply (Huniq n' f' c'); [|done].
      rewrite lookup_insert_ne; [done|]. intros <-. congruence. }
    destruct (Defs pass (FuncName g)) as [[fn'|]|] eqn:Hg; try done.
    destruct (decide (fn' = fn)) as [->|Hfn].
    + destruct Hne. apply (Huniq i g codes'); [|done]. by rewrite lookup_insert_eq.
    + by rewrite lookup_insert_ne.
Qed.

(** X10: [exportFunctionErrorCodes] leaves the fact of a function object
    as it is when no declaration of the claims defines the object. *)
Theorem exportFunctionErrorCodes_frame claims facts fn :
  (∀ n f codes, claims !! n = Some (f, codes) →
     Defs pass (FuncName f) ≠ Some (TFunc fn)) →
  exportFunctionErrorCodes pass claims facts !! fn = facts !! fn.
Proof.
  unfold exportFunctionErrorCodes.
  apply (map_fold_weak_ind (λ r (m : gmap nat (FuncDecl * codeSet)),
    (∀ n f codes, m !! n = Some (f, codes) →
       Defs pass (FuncName f) ≠ Some (TFunc fn)) →
    r !! fn = facts !! fn)); [done|].
  intros i [g codes'] m r Hi IH Hno.
  assert (r !! fn = facts !! fn) as Hr.
  { apply IH. intros n f codes Hl. apply (Hno n f codes).
    rewrite lookup_insert_ne; [done|]. intros <-. congruence. }
  pose proof (Hno i g codes' ltac:(by rewrite lookup_insert_eq)) as Hg.
  destruct (Defs pass (FuncName g)) as [[fn'|]|]; try done.
  rewrite lookup_insert_ne; [done|]. congruence.
Qed.
End Claims.

Lemma findClaimedErrorCodes_lookup_witness :
  (findClaimedErrorCodes Sample.pass [Sample.Declared] []).1 !! 12%nat
    = Some (Sample.Declared, {["sample-error"%string]}) ↔
  Sample.Declared ∈ [Sample.Declared] ∧ funcNode Sample.Declared = 12%nat ∧
  findErrorDocs Sample.Declared = ({["sample-error"%string]}, None) ∧
  ({["sample-error"%string]} : codeSet) ≠ ∅.
Proof.
  apply (findClaimedErrorCodes_lookup Sample.pass [Sample.Declared] [] 12
           Sample.Declared {["sample-error"%string]}).
  intros g h Hg Hh _.
  apply list_elem_of_singleton in Hg, Hh. congruence.
Defined.

Lemma exportFunctionErrorCodes_lookup_witness :
  exportFunctionErrorCodes Sample.pass
    {[12%nat := (Sample.Declared, {["sample-error"%string]})]} ∅ !! 310%nat
  = Some (mkErrorCodes (slice {["sample-error"%string]})).
Proof.
  apply (exportFunctionErrorCodes_lookup Sample.pass _ ∅ 12 Sample.Declared).
  - reflexivity.
  - reflexivity.
  - intros n' f' codes' Hl _.
    apply lookup_singleton_Some in Hl as [<- _]. reflexivity.
Defined.

Lemma exportFunctionErrorCodes_frame_witness :
  exportFunctionErrorCodes Sample.pass
    {[12%nat := (Sample.Declared, {["sample-error"%string]})]}
    {[7%nat := mkErrorCodes ["other-error"%string]]} !! 7%nat
  = ({[7%nat := mkErrorCodes ["other-error"%string]]}
       : gmap nat ErrorCodes) !! 7%nat.
Proof.
  apply (exportFunctionErrorCodes_frame Sample.pass).
  intros n f codes Hl.
  apply lookup_singleton_Some in Hl as [_ [= <- _]]. discriminate.
Defined.

(** ** What the affector engine returns *)

Section Engine.
Variable pass : Pass.
Variable objects : Objects.
Variable within : FuncDecl.

Lemma tainted_refl st : tainted pass st ([], st).
Proof. by split_and!. Qed.

Lemma tainted_step st0 result st affectors st' :
  tainted pass st0 (result, st) → tainted pass st (affectors, st') →
  tainted pass st0 (result ++ affectors, st').
Proof.
  intros (Hr & Hv & Hd) (Ha & Hv' & Hd'). cbn in *. split_and!; cbn.
  - by apply Forall_app.
  - set_solver.
  - by etrans.
Qed.

Lemma tainted_report st0 result st n msg :
  tainted pass st0 (result, st) →
  tainted pass st0
    (result, mkTaintState (visited st) (ReportRangef (taintDiags st) n msg)).
Proof.
  intros (Hr & Hv & Hd). split_and!; cbn in *; try done.
  unfold ReportRangef. by apply prefix_app_r.
Qed.

Lemma assignLoop_tainted recur exprt Lhs Rhs st0 clauses i result st :
  (∀ rhs st, ensures (tainted pass st) (recur rhs st)) →
  tainted pass st0 (result, st) →
  ensures (λ r, tainted pass st0 r.2)
          (assignLoop recur exprt Lhs Rhs i clauses result st).
Proof.
  intros Hrecur. revert i result st.
  induction clauses as [|clause clauses IH]; intros i result st Hst;
    cbn [assignLoop]; [done|].
  destruct clause; try by apply IH.
  case_bool_decide; [|by apply IH].
  destruct (_ <? _)%nat.
  - destruct (negb _); [by apply tainted_report|].
    destruct (Rhs !! 0%nat) as [[]|]; try done. apply IH.
    apply (tainted_step st0 result st _ st); [done|].
    split_and!; cbn; try done. by repeat constructor.
  - destruct (Rhs !! i) as [rhs|]; [|done].
    eapply ensures_bind; [apply Hrecur|].
    intros [affectors st'] Hst'. apply IH.
    by apply (tainted_step st0 result st).
Qed.

Lemma checkLocal_tainted exprt st :
  ensures (λ st', visited st' = visited st
                  ∧ taintDiags st `prefix_of` taintDiags st')
          (checkLocal objects exprt within st).
Proof.
  unfold checkLocal.
  destruct (Obj exprt); [|done].
  destruct (Body within); [|done]. destruct (objects !! _); [|done].
  destruct (_ || _); cbn; [|done]. split; [done|].
  unfold ReportRangef. by apply prefix_app_r.
Qed.

Lemma findAffectorsInFunc_tainted fuel : ∀ e st,
  ensures (tainted pass st) (findAffectorsInFunc pass objects fuel e within st).
Proof.
  induction fuel as [|fuel IH]; intros e st; [done|].
  destruct e; cbn [findAffectorsInFunc]; try apply tainted_refl.
  - case_bool_decide; [apply tainted_refl|].
    eapply ensures_bind; [apply checkLocal_tainted|].
    intros st1 [Hv Hd]. cbn [visited taintDiags] in Hv, Hd.
    apply (Inspect_ensures _ (tainted pass st)).
    + intros n [result st2] Hs.
      destruct n as [| |[lhs rhs| | | | |]]; try done.
      unfold findAffectors_visit. cbn [fst snd].
      by apply assignLoop_tainted.
    + split_and!; cbn; [done| |done]. rewrite Hv. set_solver.
  - cbn. split_and!; cbn; try done. by repeat constructor.
  - cbn. split_and!; cbn; try done. by repeat constructor.
  - cbn. split_and!; cbn; try done. by repeat constructor.
  - destruct (_ && _) eqn:Hb.
    + cbn. split_and!; cbn; try done. by repeat constructor.
    + apply (tainted_report st [] st), tainted_refl.
Qed.

(** X11: every expression [findAffectorsInFunc] returns is one at which it
    stops: a call, a composite literal, a basic literal, or the address of
    a value whose pointer type implements [error].  No identifier and no
    other expression is returned as an affector. *)
Theorem findAffectorsInFunc_boundary fuel e st affectors st' :
  findAffectorsInFunc pass objects fuel e within st = Done (affectors, st') →
  Forall (λ a, boundary pass a = true) affectors.
Proof.
  intros Hrun. pose proof (findAffectorsInFunc_tainted fuel e st) as Hens.
  rewrite Hrun in Hens. apply Hens.
Qed.

(** X12: [findAffectorsInFunc] only adds to the set of visited identifiers
    and to the diagnostics: the state it returns has the visited
    identifiers of the state it was given, and its diagnostics start with
    the diagnostics of that state. *)
Theorem findAffectorsInFunc_grows fuel e st affectors st' :
  findAffectorsInFunc pass objects fuel e within st = Done (affectors, st') →
  visited st ⊆ visited st' ∧ taintDiags st `prefix_of` taintDiags st'.
Proof.
  intros Hrun. pose proof (findAffectorsInFunc_tainted fuel e st) as Hens.
  rewrite Hrun in Hens. apply Hens.
Qed.

End Engine.

Lemma findAffectorsInFunc_boundary_witness :
  Forall (λ a, boundary Sample.pass a = true)
    [Sample.call 193 "create" [];
     Sample.call 195 "modify" [IdentExpr (Sample.errAt 196)]].
Proof.
  eapply (findAffectorsInFunc_boundary Sample.pass Sample.objects
            Sample.SelfAssign
            (enoughFuel Sample.SelfAssign (mkTaintState ∅ []))
            (IdentExpr (Sample.errAt 197)) (mkTaintState ∅ [])).
  vm_compute. reflexivity.
Defined.

Lemma findAffectorsInFunc_grows_witness :
  visited (mkTaintState ∅ [])
    ⊆ visited (mkTaintState {[205%nat; 201%nat; 203%nat]} []) ∧
  taintDiags (mkTaintState ∅ [])
    `prefix_of` taintDiags (mkTaintState {[205%nat; 201%nat; 203%nat]} []).
Proof.
  apply (findAffectorsInFunc_grows Sample.pass Sample.objects Sample.Cycle
           (enoughFuel Sample.Cycle (mkTaintState ∅ []))
           (IdentExpr (Sample.aAt 205)) (mkTaintState ∅ [])
           [Sample.newError; Sample.newError]).
  by vm_compute.
Defined.

(** ** The engine without the set of visited identifiers *)

Section EarlierEngine.
Variable pass : Pass.
Variable within : FuncDecl.

Lemma forM_not_Done {A S} (body : A → S → outcome S) l x s :
  x ∈ l → (∀ s r, body x s ≠ Done r) → ∀ r, forM body l s ≠ Done r.
Proof.
  intros Hx Hbody. revert s.
  induction l as [|y l IH]; intros s r; [by apply elem_of_nil in Hx|].
  cbn [forM]. apply elem_of_cons in Hx as [<-|Hx].
  - pose proof (Hbody s) as Hs. destruct (body x s); [|done..].
    by destruct (Hs a).
  - destruct (body y s); [|done..]. by apply IH.
Qed.

Lemma assignLoop_not_Done recur exprt Lhs Rhs clauset rhs :
  (length Rhs <? length Lhs)%nat = false →
  Obj clauset = Obj exprt →
  (∀ st r, recur rhs st ≠ Done r) →
  ∀ clauses i k result st r,
    clauses !! k = Some (IdentExpr clauset) → Rhs !! (i + k)%nat = Some rhs →
    assignLoop recur exprt Lhs Rhs i clauses result st ≠ Done r.
Proof.
  intros Hlen Hobj Hrecur.
  induction clauses as [|clause clauses IH]; intros i k result st r Hk Hrhs;
    [done|].
  cbn [assignLoop]. destruct k as [|k].
  - injection Hk as ->. rewrite bool_decide_eq_true_2 by done.
    rewrite Hlen. rewrite Nat.add_0_r in Hrhs. rewrite Hrhs.
    pose proof (Hrecur st) as Hst. destruct (recur rhs st) as [a| |]; [|done..].
    by destruct (Hst a).
  - cbn in Hk.
    assert (∀ result st r,
              assignLoop recur exprt Lhs Rhs (S i) clauses result st ≠ Done r)
      as Hrest.
    { intros. apply (IH (S i) k); [done|].
      by replace (S i + k)%nat with (i + S k)%nat by lia. }
    destruct clause; try apply Hrest.
    case_bool_decide; [|apply Hrest].
    rewrite Hlen. destruct (Rhs !! i) as [rhs'|]; [|done].
    destruct (recur rhs' st) as [[affectors st']| |]; [|done..].
    cbn. apply Hrest.
Qed.

Lemma Earlier_findAffectorsInFunc_not_Done (cycle : option nat → Prop) body exprt
    fuel st r :
  Body within = Some body →
  (∀ o, cycle o →
     ∃ lhs rhs i clauset rhst,
       AssignStmt lhs rhs ∈ Stmts body ∧ (length lhs ≤ length rhs)%nat ∧
       lhs !! i = Some (IdentExpr clauset) ∧
       rhs !! i = Some (IdentExpr rhst) ∧
       Obj clauset = o ∧ cycle (Obj rhst)) →
  cycle (Obj exprt) →
  Earlier.findAffectorsInFunc pass fuel (IdentExpr exprt) within st ≠ Done r.
Proof.
  intros Hbody Hcycle. revert exprt st r.
  induction fuel as [|fuel IH]; intros exprt st r Hc; [done|].
  destruct (Hcycle _ Hc)
    as (lhs & rhs & i & clauset & rhst & Hin & Hlen & Hl & Hr & Hobj & Hnext).
  cbn [Earlier.findAffectorsInFunc]. unfold Inspect. rewrite Hbody.
  apply (forM_not_Done _ _ (AssignStmt lhs rhs)); [done|].
  intros s r'. rewrite walkStmt_unfold.
  cbn [findAffectors_visit].
  assert (∀ res st0 r0,
    assignLoop (λ rhs st, Earlier.findAffectorsInFunc pass fuel rhs within st)
      exprt lhs rhs 0 lhs res st0 ≠ Done r0) as Hloop.
  { intros. apply (assignLoop_not_Done _ _ _ _ clauset (IdentExpr rhst))
      with (k := i); try done.
    - apply Nat.ltb_ge. lia.
    - intros. by apply IH. }
  pose proof (Hloop s.1 s.2) as Hs.
  destruct (assignLoop _ _ _ _ _ _ _ _) as [a| |]; [|done..].
  by destruct (Hs a).
Qed.

(** X13: the revision of [findAffectorsInFunc] without the set of visited
    identifiers returns no result on a cycle of assignments.  When the
    statements of the body assign to every variable of [cycle] an
    identifier of a variable of [cycle] (as in [a = b; b = a], or
    [err = err]), the trace of an identifier of [cycle] returns for no
    depth of recursion: the recursion does not end, or the code
    panics. *)
Theorem Earlier_findAffectorsInFunc_cycle (cycle : option nat → Prop) body
    exprt fuel st :
  Body within = Some body →
  (∀ o, cycle o →
     ∃ lhs rhs i clauset rhst,
       AssignStmt lhs rhs ∈ Stmts body ∧ (length lhs ≤ length rhs)%nat ∧
       lhs !! i = Some (IdentExpr clauset) ∧
       rhs !! i = Some (IdentExpr rhst) ∧
       Obj clauset = o ∧ cycle (Obj rhst)) →
  cycle (Obj exprt) →
  Earlier.findAffectorsInFunc pass fuel (IdentExpr exprt) within st = OutOfFuel
  ∨ ∃ msg,
      Earlier.findAffectorsInFunc pass fuel (IdentExpr exprt) within st
      = Panic msg.
Proof.
  intros Hbody Hcycle Hc.
  pose proof (λ r, Earlier_findAffectorsInFunc_not_Done cycle body exprt fuel
                     st r Hbody Hcycle Hc) as Hno.
  destruct (Earlier.findAffectorsInFunc _ _ _ _ _) as [r|msg|].
  - by destruct (Hno r).
  - right. by exists msg.
  - by left.
Qed.

End EarlierEngine.

Lemma Earlier_findAffectorsInFunc_cycle_witness :
  Earlier.findAffectorsInFunc Sample.pass 7 (IdentExpr (Sample.aAt 205))
    Sample.Cycle (mkTaintState ∅ []) = OutOfFuel
  ∨ ∃ msg,
      Earlier.findAffectorsInFunc Sample.pass 7 (IdentExpr (Sample.aAt 205))
        Sample.Cycle (mkTaintState ∅ []) = Panic msg.
Proof.
  apply (Earlier_findAffectorsInFunc_cycle Sample.pass Sample.Cycle
           (λ o, o = Some 50%nat ∨ o = Some 51%nat)
           (mkBlock 1100 (Stmts (default (mkBlock 0 [] 0)
                                   (Body Sample.Cycle))) 1200)).
  - reflexivity.
  - intros o [->| ->].
    + exists [IdentExpr (Sample.aAt 200)], [IdentExpr (Sample.bAt 201)],
        0%nat, (Sample.aAt 200), (Sample.bAt 201).
      split_and!; try reflexivity; [|by right].
      cbn. repeat first [by left | right].
    + exists [IdentExpr (Sample.bAt 202)], [IdentExpr (Sample.aAt 203)],
        0%nat, (Sample.bAt 202), (Sample.aAt 203).
      split_and!; try reflexivity; [|by left].
      cbn. repeat first [by left | right].
  - by left.
Defined.

(** ** The cache of the facts of the error types *)

Section Cache.
Variable pass : Pass.
Variable objects : Objects.
Variable lookup : funcLookup.

(** X14: once [getErrorTypeForError] has returned a fact for an error type,
    a later call for the type returns the same fact from the cache: it
    reports nothing, analyses nothing and leaves the cache as it is. *)
Theorem getErrorTypeForError_memo err facts diags fact e facts' diags' later :
  getErrorTypeForError pass objects lookup err facts diags
    = Done ((Some fact, e), facts', diags') →
  getErrorTypeForError pass objects lookup err facts' later
    = Done ((Some fact, None), facts', later).
Proof.
  unfold getErrorTypeForError.
  destruct (getNamedType err) as [namedErr|]; [|done].
  destruct (facts !! namedErr) as [cached|] eqn:Hcached.
  { intros [= <- _ <- _]. by rewrite Hcached. }
  destruct (getCodeFuncFromError pass lookup err) as [[[funcDecl receiver]|]| |];
    try done.
  cbn [mbind outcome_bind].
  destruct (analyseCodeMethod _ _ _ _ _) as [[[computed|] ds]| |]; try done.
  intros [= <- _ <- _]. by rewrite lookup_insert_eq.
Qed.

Lemma getErrorTypeForError_keeps err facts diags result facts' diags' :
  map_Forall (λ _, wellFormed) facts →
  getErrorTypeForError pass objects lookup err facts diags
    = Done (result, facts', diags') →
  facts ⊆ facts' ∧ map_Forall (λ _, wellFormed) facts' ∧
  from_option wellFormed True result.1.
Proof.
  intros Hwf. unfold getErrorTypeForError.
  destruct (getNamedType err) as [namedErr|].
  2:{ by intros [= <- <- _]. }
  destruct (facts !! namedErr) as [cached|] eqn:Hcached.
  { intros [= <- <- _]. split_and!; try done. by eapply Hwf. }
  destruct (getCodeFuncFromError pass lookup err) as [[[funcDecl receiver]|]| |];
    try done.
  2:{ by intros [= <- <- _]. }
  cbn [mbind outcome_bind].
  destruct (analyseCodeMethod _ _ _ _ _) as [[[computed|] ds]| |] eqn:Hrun;
    try done.
  2:{ by intros [= <- <- _]. }
  intros [= <- <- _]. apply analyseCodeMethod_fact in Hrun.
  split_and!; try done.
  - by apply insert_subseteq.
  - by apply map_Forall_insert_2.
Qed.

(** X15: [getErrorTypeForError] keeps the facts of the cache: no fact is
    dropped or replaced.  When the facts of the cache are well formed, so
    are the facts of the cache after the call and the fact returned. *)
Theorem getErrorTypeForError_facts err facts diags result facts' diags' :
  map_Forall (λ _, wellFormed) facts →
  getErrorTypeForError pass objects lookup err facts diags
    = Done (result, facts', diags') →
  facts ⊆ facts' ∧ map_Forall (λ _, wellFormed) facts' ∧
  from_option wellFormed True result.1.
Proof. apply getErrorTypeForError_keeps. Qed.

(** ** The code of a field, read off the constructor *)

Lemma keyLoop_valid elts name code :
  keyLoop pass elts name = Some (inl code) → isErrorCodeValid code = true.
Proof.
  induction elts as [|elt elts IH]; [done|]. cbn [keyLoop].
  destruct elt as [| | | | | | | |key value| |]; try done.
  destruct key; try done.
  destruct (String.eqb _ _); [|done].
  destruct (ConstValue pass value) as [v|]; [|done].
  intros [= Hc]. by eapply getErrorCodeFromConstant_valid.
Qed.

Lemma extractFieldErrorCodes_code e funcDecl errorType code :
  extractFieldErrorCodes pass e funcDecl errorType = Done (inl code) →
  isErrorCodeValid code = true.
Proof.
  induction e; cbn [extractFieldErrorCodes];
    destruct (errorType ≫= TypeField) as [field|]; try done.
  - destruct (keyLoop pass elts (FieldName field)) as [r|] eqn:Hk.
    { intros [= ->]. by eapply keyLoop_valid. }
    destruct (_ <? _); [|done]. destruct (_ <? 0); [done|].
    destruct (_ ≫= _) as [v|]; [|done].
    intros [= Hc]. by eapply getErrorCodeFromConstant_valid.
  - by case_bool_decide.
Qed.

(** X16: every code [extractFieldErrorCodes] returns passes
    [isErrorCodeValid]. *)
Theorem extractFieldErrorCodes_valid e funcDecl errorType code :
  extractFieldErrorCodes pass e funcDecl errorType = Done (inl code) →
  isErrorCodeValid code = true.
Proof. apply extractFieldErrorCodes_code. Qed.

(** X17: on a well-formed fact [extractFieldErrorCodes] does not panic,
    whatever the expression: the position of the field is not negative,
    so that the index into the elements of a composite literal is in
    range when it is below their number. *)
Theorem extractFieldErrorCodes_returns e funcDecl fact :
  wellFormed fact →
  ∃ result, extractFieldErrorCodes pass e funcDecl (Some fact) = Done result.
Proof.
  intros (_ & Hpos & _).
  induction e; cbn [extractFieldErrorCodes mbind option_bind];
    destruct (TypeField fact) as [field|]; try by eexists.
  - destruct (keyLoop pass elts (FieldName field)); [by eexists|].
    destruct (_ <? _); [|by eexists].
    specialize (Hpos field eq_refl).
    destruct (Position field <? 0) eqn:Hneg; [lia|].
    destruct (_ ≫= _); by eexists.
  - case_bool_decide; [done|by eexists].
Qed.

(** X18: in a composite literal whose elements start with [key: value]
    pairs, the code is read off the first pair whose key is the name of
    the field and whose value is a constant, whatever the position of the
    pair and whatever follows it. *)
Theorem extractFieldErrorCodes_keyed type pre key value post funcDecl fact
    field v :
  TypeField fact = Some field →
  Forall (λ elt, ∃ k x, elt = KeyValueExpr (IdentExpr k) x ∧
                        (Name k = FieldName field → ConstValue pass x = None))
         pre →
  Name key = FieldName field → ConstValue pass value = Some v →
  extractFieldErrorCodes pass
    (CompositeLit type (pre ++ KeyValueExpr (IdentExpr key) value :: post))
    funcDecl (Some fact)
  = Done (getErrorCodeFromConstant v).
Proof.
  intros Hfield Hpre Hkey Hvalue. cbn [extractFieldErrorCodes mbind option_bind].
  rewrite Hfield.
  assert (keyLoop pass (pre ++ KeyValueExpr (IdentExpr key) value :: post)
            (FieldName field) = Some (getErrorCodeFromConstant v)) as ->; [|done].
  induction Hpre as [|elt pre (k & x & -> & Hx) _ IH]; cbn [app keyLoop].
  - rewrite Hkey, String.eqb_refl. by rewrite Hvalue.
  - destruct (String.eqb_spec (FieldName field) (Name k)) as [Heq|]; [|done].
    by rewrite Hx.
Qed.

(** X19: in a composite literal whose first element is no [key: value]
    pair, the code is read off the element at the position of the field,
    when that element is a constant. *)
Theorem extractFieldErrorCodes_positional type elts funcDecl fact field elt v :
  TypeField fact = Some field →
  (∀ key value, head elts ≠ Some (KeyValueExpr key value)) →
  0 ≤ Position field →
  elts !! Z.to_nat (Position field) = Some elt →
  ConstValue pass elt = Some v →
  extractFieldErrorCodes pass (CompositeLit type elts) funcDecl (Some fact)
  = Done (getErrorCodeFromConstant v).
Proof.
  intros Hfield Hfirst Hpos Helt Hv.
  cbn [extractFieldErrorCodes mbind option_bind].
  assert (keyLoop pass elts (FieldName field) = None) as Hkey.
  { destruct elts as [|first rest]; [done|].
    destruct first; try done. by destruct (Hfirst first1 first2). }
  rewrite Hfield, Hkey. apply lookup_lt_Some in Helt as Hlt.
  rewrite (proj2 (Z.ltb_lt _ _)) by lia.
  rewrite (proj2 (Z.ltb_ge _ _)) by lia.
  rewrite Helt. cbn. by rewrite Hv.
Qed.

(** ** The codes of the affectors *)

Lemma extractErrorCodes_step_valid funcDecl affector result facts diags :
  set_Forall (λ code, isErrorCodeValid code = true) result →
  map_Forall (λ _, wellFormed) facts →
  ensures (λ s, set_Forall (λ code, isErrorCodeValid code = true) s.1.1 ∧
                facts ⊆ s.1.2 ∧ map_Forall (λ _, wellFormed) s.1.2)
    (extractErrorCodes_step pass objects lookup funcDecl affector
       (result, facts, diags)).
Proof.
  intros Hres Hwf. unfold extractErrorCodes_step.
  destruct (negb _); [done|].
  destruct (getErrorTypeForError _ _ _ _ _ _)
    as [[[[errorType err] facts'] diags']| |] eqn:Hrun; [|done..].
  apply getErrorTypeForError_keeps in Hrun as (Hsub & Hwf' & Hfact); [|done].
  cbn [mbind outcome_bind fst] in *.
  destruct err; [done|]. destruct errorType as [fact|]; [|done].
  cbn in Hfact. pose proof Hfact as (Hcodes & _).
  assert (set_Forall (λ code, isErrorCodeValid code = true)
            (if (0 <? length (TypeCodes fact))%nat
             then unionInplace result (sliceToSet (TypeCodes fact))
             else result)) as Hres'.
  { destruct (_ <? _)%nat; [|done].
    apply set_Forall_union; [done|].
    intros code Hin%elem_of_list_to_set.
    rewrite Forall_forall in Hcodes. by apply Hcodes. }
  destruct (TypeField fact); [|done].
  destruct (extractFieldErrorCodes _ _ _ _) as [[code|msg]| |] eqn:Hex; try done.
  unfold add. cbn [ensures fst snd]. split_and!; try done.
  apply set_Forall_union; [|done]. apply set_Forall_singleton.
  by eapply extractFieldErrorCodes_code.
Qed.

(** X20: when the facts of the cache are well formed, every code
    [extractErrorCodesFromAffectors] returns passes [isErrorCodeValid], and
    the cache after the call keeps the facts it had and is well formed. *)
Theorem extractErrorCodesFromAffectors_valid funcDecl affectors facts diags
    result facts' diags' :
  map_Forall (λ _, wellFormed) facts →
  extractErrorCodesFromAffectors pass objects lookup funcDecl affectors
    facts diags = Done (result, facts', diags') →
  set_Forall (λ code, isErrorCodeValid code = true) result ∧
  facts ⊆ facts' ∧ map_Forall (λ _, wellFormed) facts'.
Proof.
  intros Hwf Hrun. unfold extractErrorCodesFromAffectors in Hrun.
  pose proof (forM_ensures
    (extractErrorCodes_step pass objects lookup funcDecl)
    (λ s, set_Forall (λ code, isErrorCodeValid code = true) s.1.1 ∧
          facts ⊆ s.1.2 ∧ map_Forall (λ _, wellFormed) s.1.2)
    affectors (∅, facts, diags)) as Hens.
  rewrite Hrun in Hens. apply Hens; [|by split_and!].
  intros affector [[res fs] ds] _ (Hres & Hsub & Hfs). cbn [fst snd] in *.
  eapply ensures_impl; [by apply extractErrorCodes_step_valid|].
  intros [[res' fs'] ds'] (? & ? & ?). cbn [fst snd] in *.
  split_and!; try done. by etrans.
Qed.

(** X21: affectors whose type does not implement [Error] and [Code] give no
    code and leave the cache as it is: each of them is reported as
    "expression does not define an error code", in the order of the
    loop. *)
Theorem extractErrorCodesFromAffectors_no_code funcDecl affectors facts diags :
  Forall (λ a, checkErrorTypeHasLegibleCode pass a = false) affectors →
  extractErrorCodesFromAffectors pass objects lookup funcDecl affectors
    facts diags
  = Done (∅, facts,
          diags ++ ((λ a, mkDiagnostic (AtNode (NExpr a))
                            "expression does not define an error code")
                    <$> affectors)).
Proof.
  unfold extractErrorCodesFromAffectors. intros Hall. revert diags.
  induction Hall as [|a affectors Ha _ IH]; intros diags; cbn [forM fmap list_fmap].
  - by rewrite app_nil_r.
  - unfold extractErrorCodes_step at 1. rewrite Ha. cbn [negb].
    rewrite IH. unfold ReportRangef. by rewrite <- app_assoc.
Qed.

End Cache.

Lemma getErrorTypeForError_memo_witness :
  getErrorTypeForError Sample.pass Sample.objects Sample.lookupCode
    (Pointer Sample.ErrorT) {[2%nat := Sample.factOfError]} []
  = Done ((Some Sample.factOfError, None), {[2%nat := Sample.factOfError]}, []).
Proof.
  eapply (getErrorTypeForError_memo Sample.pass Sample.objects
            Sample.lookupCode (Pointer Sample.ErrorT) ∅ []).
  vm_compute. reflexivity.
Defined.

Lemma getErrorTypeForError_facts_witness :
  (∅ : gmap nat ErrorType) ⊆ {[2%nat := Sample.factOfError]} ∧
  map_Forall (λ _, wellFormed)
    ({[2%nat := Sample.factOfError]} : gmap nat ErrorType) ∧
  from_option wellFormed True
    ((Some Sample.factOfError, None) : option ErrorType * option string).1.
Proof.
  apply (getErrorTypeForError_facts Sample.pass Sample.objects
           Sample.lookupCode (Pointer Sample.ErrorT) ∅ []
           (Some Sample.factOfError, None) {[2%nat := Sample.factOfError]} []).
  - apply map_Forall_empty.
  - by vm_compute.
Defined.

Lemma extractFieldErrorCodes_valid_witness :
  isErrorCodeValid "sample-error" = true.
Proof.
  apply (extractFieldErrorCodes_valid Sample.pass Sample.newSampleError
           Sample.Declared (Some Sample.factOfError)).
  by vm_compute.
Defined.

Lemma extractFieldErrorCodes_returns_witness :
  ∃ result,
    extractFieldErrorCodes Sample.pass Sample.newSampleError Sample.Declared
      (Some Sample.factOfError) = Done result.
Proof.
  apply (extractFieldErrorCodes_returns Sample.pass Sample.newSampleError
           Sample.Declared Sample.factOfError).
  split_and!; cbn.
  - constructor.
  - by intros field [= <-].
  - by right.
Defined.

Lemma extractFieldErrorCodes_keyed_witness :
  extractFieldErrorCodes Sample.pass Sample.keyedError Sample.Declared
    (Some Sample.factOfError)
  = Done (getErrorCodeFromConstant (mkConstant KString (fmt_q "sample-error"))).
Proof.
  apply (extractFieldErrorCodes_keyed Sample.pass _
           [KeyValueExpr (IdentExpr (Sample.ident 331 "Other" None))
                         (BasicLit (fmt_q ""))]
           (Sample.ident 332 "TheCode" None)
           (BasicLit (fmt_q "sample-error")) [] Sample.Declared
           Sample.factOfError (mkErrorCodeField "TheCode" 0)).
  - reflexivity.
  - constructor; [|constructor]. eexists _, _. split; [reflexivity|].
    cbn. discriminate.
  - reflexivity.
  - reflexivity.
Defined.

Lemma extractFieldErrorCodes_positional_witness :
  extractFieldErrorCodes Sample.pass
    (CompositeLit (Some (IdentExpr (Sample.ident 312 "Error" (Some 11%nat))))
       [BasicLit (fmt_q "sample-error"); BasicLit (fmt_q "")])
    Sample.Declared (Some Sample.factOfError)
  = Done (getErrorCodeFromConstant (mkConstant KString (fmt_q "sample-error"))).
Proof.
  apply (extractFieldErrorCodes_positional Sample.pass _ _ Sample.Declared
           Sample.factOfError (mkErrorCodeField "TheCode" 0)
           (BasicLit (fmt_q "sample-error"))).
  - reflexivity.
  - intros key value. discriminate.
  - cbn. lia.
  - reflexivity.
  - reflexivity.
Defined.

Lemma extractErrorCodesFromAffectors_valid_witness :
  set_Forall (λ code, isErrorCodeValid code = true)
    ({["sample-error"%string]} : codeSet) ∧
  (∅ : gmap nat ErrorType) ⊆ {[2%nat := Sample.factOfError]} ∧
  map_Forall (λ _, wellFormed)
    ({[2%nat := Sample.factOfError]} : gmap nat ErrorType).
Proof.
  apply (extractErrorCodesFromAffectors_valid Sample.pass Sample.objects
           Sample.lookupCode Sample.Declared [Sample.newSampleError] ∅ []
           {["sample-error"%string]} {[2%nat := Sample.factOfError]} []).
  - apply map_Forall_empty.
  - by vm_compute.
Defined.

Lemma extractErrorCodesFromAffectors_no_code_witness :
  extractErrorCodesFromAffectors Sample.pass Sample.objects Sample.lookupCode
    Sample.Declared [BasicLit (fmt_q "x")] ∅ []
  = Done (∅, ∅,
          [] ++ ((λ a, mkDiagnostic (AtNode (NExpr a))
                         "expression does not define an error code")
                 <$> [BasicLit (fmt_q "x")])).
Proof.
  apply (extractErrorCodesFromAffectors_no_code Sample.pass Sample.objects
           Sample.lookupCode Sample.Declared [BasicLit (fmt_q "x")] ∅ []).
  by repeat constructor.
Defined.

(** ** The report of a mismatch *)

(** X22: [reportIfCodesDoNotMatch] reports nothing when the codes found
    are the codes claimed, and one diagnostic at the position of the
    function when they are not. *)
Theorem reportIfCodesDoNotMatch_mismatch funcDecl foundCodes claimedCodes diags :
  (foundCodes = claimedCodes ∧
   reportIfCodesDoNotMatch funcDecl foundCodes claimedCodes diags = diags) ∨
  (foundCodes ≠ claimedCodes ∧
   ∃ msg, reportIfCodesDoNotMatch funcDecl foundCodes claimedCodes diags
          = diags ++ [mkDiagnostic (AtPos (FuncPos funcDecl)) msg]).
Proof.
  unfold reportIfCodesDoNotMatch, difference. rewrite !length_slice.
  destruct (decide (foundCodes = claimedCodes)) as [->|Hne].
  - left. split; [done|]. rewrite difference_diag_L, size_empty. done.
  - right. split; [done|].
    destruct (size (foundCodes ∖ claimedCodes) =? 0)%nat eqn:Hm;
      destruct (size (claimedCodes ∖ foundCodes) =? 0)%nat eqn:Hu;
      cbn [negb app length Nat.eqb]; try by eexists.
    apply Nat.eqb_eq, size_empty_iff in Hm, Hu.
    destruct Hne. apply set_eq. intros code.
    destruct (decide (code ∈ foundCodes)), (decide (code ∈ claimedCodes));
      set_solver.
Qed.

(** ** The rendering of a fact *)

Lemma Ascii_compare_N a b : Ascii.compare a b = (N_of_ascii a ?= N_of_ascii b)%N.
Proof. reflexivity. Qed.

Lemma String_compare_trans_le a : ∀ b c,
  String.compare a b ≠ Gt → String.compare b c ≠ Gt → String.compare a c ≠ Gt.
Proof.
  induction a as [|x a IH]; intros [|y b] [|z c]; cbn; try done.
  rewrite !Ascii_compare_N.
  destruct (N.compare_spec (N_of_ascii x) (N_of_ascii y)) as [Hxy|Hxy|Hxy];
    destruct (N.compare_spec (N_of_ascii y) (N_of_ascii z)) as [Hyz|Hyz|Hyz];
    try done; intros Hab Hbc.
  - rewrite Hxy, Hyz, N.compare_refl. by apply (IH b).
  - rewrite Hxy. by rewrite (proj2 (N.compare_lt_iff _ _) Hyz).
  - rewrite <- Hyz. by rewrite (proj2 (N.compare_lt_iff _ _) Hxy).
  - rewrite (proj2 (N.compare_lt_iff _ _)); [done|]. lia.
Qed.

#[local] Instance strLe_trans : Transitive strLe.
Proof.
  intros a b c. unfold strLe, String.leb. intros Hab Hbc.
  pose proof (String_compare_trans_le a b c) as Ht.
  destruct (String.compare a b); destruct (String.compare b c);
    destruct (String.compare a c); try done; by destruct Ht.
Qed.

#[local] Instance strLe_antisym : AntiSymm (=) strLe.
Proof. intros a b. apply String.leb_antisym. Qed.

#[local] Instance strLe_total : Total strLe.
Proof. intros a b. apply String.leb_total. Qed.

Lemma sort_Strings_Permutation l k :
  l ≡ₚ k → sort_Strings l = sort_Strings k.
Proof.
  intros Hp. unfold sort_Strings.
  apply (Sorted_unique strLe); [apply Sorted_merge_sort; apply _..|].
  by rewrite !merge_sort_Permutation.
Qed.

(** X23: the rendering [String] of the fact of a function, and the slice
    the call leaves in the fact, do not depend on the order in which the
    fact holds its codes. *)
Theorem ErrorCodes_String_order e1 e2 :
  Codes e1 ≡ₚ Codes e2 → ErrorCodes_String e1 = ErrorCodes_String e2.
Proof.
  intros Hp. unfold ErrorCodes_String. by rewrite (sort_Strings_Permutation _ _ Hp).
Qed.

Lemma ErrorCodes_String_order_witness :
  ErrorCodes_String (mkErrorCodes ["b-error"; "a-error"]%string)
  = ErrorCodes_String (mkErrorCodes ["a-error"; "b-error"]%string).
Proof.
  apply (ErrorCodes_String_order (mkErrorCodes ["b-error"; "a-error"]%string)
           (mkErrorCodes ["a-error"; "b-error"]%string)).
  cbn. apply Permutation_swap.
Defined.

(** ** The results of a component, again *)

Section UnifyMore.
Context {ExprPtr : Type} `{Countable ExprPtr}.
Implicit Types (m : gmap nat (@funcAnalysisResult ExprPtr _ _)).

(** X24: [unifyAnalysisResultForComponent] leaves the analysis result of
    every function outside the component as it is. *)
Theorem unifyAnalysisResultForComponent_frame m component k :
  k ∉ funcNode <$> component →
  (unifyAnalysisResultForComponent m component).2 !! k = m !! k.
Proof.
  intros Hk. unfold unifyAnalysisResultForComponent. cbn [snd].
  rewrite assign_all. by rewrite bool_decide_eq_false_2.
Qed.

(** X25: to unify the results of a component twice is to unify them once:
    the unified result and the analysis results are the same. *)
Theorem unifyAnalysisResultForComponent_idempotent m component :
  unifyAnalysisResultForComponent
    (unifyAnalysisResultForComponent m component).2 component
  = unifyAnalysisResultForComponent m component.
Proof.
  destruct component as [|f component]; [done|].
  set (c := f :: component).
  assert (∀ g, g ∈ c →
    analysisResultOf (unifyAnalysisResultForComponent m c).2 g
    = (unifyAnalysisResultForComponent m c).1) as Hmember.
  { intros g Hg. unfold analysisResultOf.
    by destruct (unifyAnalysisResultForComponent_spec m c g Hg) as [-> _]. }
  assert ((unifyAnalysisResultForComponent
             (unifyAnalysisResultForComponent m c).2 c).1
          = (unifyAnalysisResultForComponent m c).1) as Hres.
  { destruct (unifyAnalysisResultForComponent_spec
                (unifyAnalysisResultForComponent m c).2 c f ltac:(left))
      as [_ ->].
    destruct (unifyAnalysisResultForComponent m c).1 as [a cs] eqn:Hr.
    f_equal.
    - apply set_eq. intros x. rewrite elem_of_union_list. split.
      + intros (X & HX & Hx). apply list_elem_of_fmap in HX as (g & -> & Hg).
        rewrite (Hmember g Hg) in Hx. done.
      + intros Hx. exists a. split; [|done]. apply list_elem_of_fmap.
        exists f. split; [|by left]. by rewrite (Hmember f ltac:(left)).
    - apply set_eq. intros x. rewrite elem_of_union_list. split.
      + intros (X & HX & Hx). apply list_elem_of_fmap in HX as (g & -> & Hg).
        rewrite (Hmember g Hg) in Hx. done.
      + intros Hx. exists cs. split; [|done]. apply list_elem_of_fmap.
        exists f. split; [|by left]. by rewrite (Hmember f ltac:(left)). }
  rewrite (surjective_pairing (unifyAnalysisResultForComponent _ c)).
  rewrite (surjective_pairing (unifyAnalysisResultForComponent m c)) at 3.
  f_equal; [done|].
  apply map_eq. intros k. unfold unifyAnalysisResultForComponent in *.
  cbn [fst snd] in *. rewrite !assign_all.
  case_bool_decide; [|done]. by rewrite Hres.
Qed.

End UnifyMore.

Lemma unifyAnalysisResultForComponent_frame_witness :
  (unifyAnalysisResultForComponent
     ({[10%nat := Sample.resultA; 11%nat := Sample.resultB]}
        : gmap nat (@funcAnalysisResult nat _ _))
     [Sample.funcA]).2 !! 11%nat
  = ({[10%nat := Sample.resultA; 11%nat := Sample.resultB]}
       : gmap nat (@funcAnalysisResult nat _ _)) !! 11%nat.
Proof.
  apply (unifyAnalysisResultForComponent_frame
           ({[10%nat := Sample.resultA; 11%nat := Sample.resultB]}
              : gmap nat (@funcAnalysisResult nat _ _))
           [Sample.funcA] 11).
  cbn. intros Hin%list_elem_of_singleton. discriminate.
Defined.

(** ** A method [Code] that returns constants *)

Section Constants.
Variable pass : Pass.
Variable objects : Objects.
Variable funcDecl : FuncDecl.
Variable receiver : option Ident.


End Constants.


(** ** The analysis across calls *)

Section AcrossCallsFacts.
Variable pass : Pass.
Variable resolver : Resolver.
Variable objects : Objects.
Variable funcDeclAt : nat → FuncDecl.
Variable funcFacts : gmap nat ErrorCodes.
Variable lookup : funcLookup.

Local Abbreviation analyse :=
  (findAffectorsOfErrorReturnInFunc pass resolver objects funcDeclAt funcFacts
     lookup).

Local Abbreviation sound := (sound pass funcFacts).

Lemma Earlier_findAffectorsInFunc_tainted within fuel : ∀ e st,
  ensures (tainted pass st) (Earlier.findAffectorsInFunc pass fuel e within st).
Proof.
  induction fuel as [|fuel IH]; intros e st; [done|].
  destruct e; cbn [Earlier.findAffectorsInFunc];
    try (by split_and!; cbn; try done; repeat constructor).
  - apply (Inspect_ensures _ (tainted pass st)); [|by split_and!].
    intros n [result st2] Hs.
    destruct n as [| |[lhs rhs| | | | |]]; try done.
    unfold findAffectors_visit. cbn [fst snd].
    by apply assignLoop_tainted.
  - destruct (_ && _) eqn:Hb.
    + cbn. split_and!; cbn; try done. by repeat constructor.
    + apply (tainted_report pass st [] st). by split_and!.
Qed.

Lemma fromFacts_union codes1 codes2 :
  fromFacts funcFacts codes1 → fromFacts funcFacts codes2 →
  fromFacts funcFacts (union codes1 codes2).
Proof.
  intros H1 H2 code [?|?]%elem_of_union; [by apply H1|by apply H2].
Qed.

Lemma sound_join diags0 affectors codes diags newAffectors newCodes diags' :
  sound diags0 (affectors, codes, diags) →
  sound diags (newAffectors, newCodes, diags') →
  sound diags0 (affectors ++ newAffectors, union codes newCodes, diags').
Proof.
  intros (Ha & Hc & Hd) (Ha' & Hc' & Hd'). cbn in *. split_and!; cbn.
  - by apply Forall_app.
  - by apply fromFacts_union.
  - by etrans.
Qed.

Lemma sound_report diags0 affectors codes diags n msg :
  sound diags0 (affectors, codes, diags) →
  sound diags0 (affectors, codes, ReportRangef diags n msg).
Proof.
  intros (Ha & Hc & Hd). split_and!; cbn in *; try done.
  unfold ReportRangef. by apply prefix_app_r.
Qed.

Lemma findAffectors_step_sound recur diags0 x s :
  (∀ f diags, ensures (sound diags) (recur f diags)) →
  boundary pass x = true → sound diags0 s →
  ensures (sound diags0)
    (findAffectors_step resolver objects funcDeclAt funcFacts lookup recur x s).
Proof.
  intros Hrecur Hx Hs. destruct s as [[affectors codes] diags].
  assert (sound diags0 (affectors ++ [x], codes, diags)) as Happend.
  { destruct Hs as (Ha & Hc & Hd). split_and!; cbn in *; try done.
    apply Forall_app. split; [done|]. by repeat constructor. }
  assert (∀ calledFunc fn,
    ensures (sound diags0)
      match calledFunc with
      | Some calledFunc =>
        '(newAffectors, newCodes, diags) ← recur calledFunc diags;
        Done (affectors ++ newAffectors, union codes newCodes, diags)
      | None =>
        Done (affectors, codes,
              ReportRangef diags (NExpr fn)
                "called function does not declare error codes")
      end) as Henter.
  { intros [calledFunc|] fn; [|by apply sound_report].
    eapply ensures_bind; [apply Hrecur|].
    intros [[newAffectors newCodes] diags'] Hnew. by eapply sound_join. }
  unfold findAffectors_step. destruct x; try done; try exact Happend.
  destruct (Callee resolver _ ≫= _) as [fact|] eqn:Hfact.
  { cbn. destruct Hs as (Ha & Hc & Hd). split_and!; cbn in *; try done.
    apply fromFacts_union; [done|]. intros code Hin%elem_of_list_to_set.
    destruct (Callee resolver _) as [fn|]; [|done]. by exists fn, fact. }
  destruct x as [funst| | | |target sel| | | | | |]; try done.
  - destruct (Obj funst ≫= _) as [obj|]; [|done].
    destruct (ObjDecl obj) as [| |funcNode|].
    + apply (Henter None).
    + exact Happend.
    + apply (Henter (Some (funcDeclAt funcNode)) (IdentExpr funst)).
    + apply (Henter None).
  - destruct (match target with IdentExpr _ => _ | _ => _ end);
      [by apply sound_report|].
    apply (Henter (calledMethod resolver lookup (SelectorExpr target sel) sel)
             (SelectorExpr target sel)).
Qed.

Lemma findAffectors_sound fuel recur e startingFunc diags :
  (∀ f diags, ensures (sound diags) (recur f diags)) →
  ensures (sound diags)
    (findAffectors pass resolver objects funcDeclAt funcFacts lookup fuel
       recur e startingFunc diags).
Proof.
  intros Hrecur. unfold findAffectors.
  eapply ensures_bind; [apply Earlier_findAffectorsInFunc_tainted|].
  intros [stepResults st] (Hres & _ & Hd). cbn [fst snd taintDiags] in *.
  apply (forM_ensures _ (sound diags)).
  - intros x s Hx Hs. apply findAffectors_step_sound; [done| |done].
    rewrite Forall_forall in Hres. by apply Hres.
  - split_and!; cbn; try done; by intros code ?%elem_of_empty.
Qed.

Lemma findAffectorsOfErrorReturnInFunc_sound fuel : ∀ funcDecl diags,
  ensures (sound diags) (analyse fuel funcDecl diags).
Proof.
  induction fuel as [|fuel IH]; intros funcDecl diags; [done|].
  cbn [findAffectorsOfErrorReturnInFunc].
  apply (Inspect_ensures _ (sound diags)).
  - intros n [[affectors codes] ds] Hs.
    destruct n as [[]| |[]]; try done. cbn [errorReturn_visit].
    destruct (resultExpression funcDecl results) as [result| |]; [|done..].
    cbn [mbind outcome_bind].
    eapply ensures_bind; [by apply findAffectors_sound|].
    intros [[newAffectors newCodes] ds'] Hnew. by eapply sound_join.
  - split_and!; cbn; try done; by intros code ?%elem_of_empty.
Qed.

(** X27: every code [findAffectorsOfErrorReturnInFunc] returns is a code of
    the fact of a function: the analysis across calls takes codes from
    the facts of the functions called, and from nowhere else. *)
Theorem findAffectorsOfErrorReturnInFunc_codes fuel funcDecl diags affectors
    codes diags' code :
  analyse fuel funcDecl diags = Done (affectors, codes, diags') →
  code ∈ codes →
  ∃ fn fact, funcFacts !! fn = Some fact ∧ code ∈ Codes fact.
Proof.
  intros Hrun. pose proof (findAffectorsOfErrorReturnInFunc_sound fuel funcDecl diags) as Hs.
  rewrite Hrun in Hs. apply Hs.
Qed.

(** X28: every affector [findAffectorsOfErrorReturnInFunc] returns is a
    call, a composite literal, a basic literal, or the address of a value
    whose pointer type implements [error]; the diagnostics it leaves start
    with the diagnostics reported before. *)
Theorem findAffectorsOfErrorReturnInFunc_affectors fuel funcDecl diags
    affectors codes diags' :
  analyse fuel funcDecl diags = Done (affectors, codes, diags') →
  Forall (λ a, boundary pass a = true) affectors ∧ diags `prefix_of` diags'.
Proof.
  intros Hrun. pose proof (findAffectorsOfErrorReturnInFunc_sound fuel funcDecl diags) as Hs.
  rewrite Hrun in Hs. destruct Hs as (? & _ & ?). done.
Qed.

(** A function that returns the result of a call *)

Lemma analyse_return_call fuel funcDecl body results fn args callee fact diags :
  Body funcDecl = Some body → Stmts body = [ReturnStmt results] →
  last results = Some (CallExpr fn args) →
  Callee resolver (CallExpr fn args) = Some callee →
  funcFacts !! callee = Some fact →
  analyse (S (S fuel)) funcDecl diags
  = Done ([], list_to_set (Codes fact), diags).
Proof.
  intros Hbody Hstmts Hlast Hcallee Hfact.
  cbn [findAffectorsOfErrorReturnInFunc]. unfold Inspect.
  rewrite Hbody, Hstmts. cbn [forM]. rewrite walkStmt_unfold.
  cbn [errorReturn_visit]. unfold resultExpression. rewrite Hlast.
  cbn [mbind outcome_bind]. unfold findAffectors.
  cbn [Earlier.findAffectorsInFunc mbind outcome_bind forM taintDiags].
  unfold findAffectors_step. rewrite Hcallee. cbn [mbind option_bind].
  rewrite Hfact. cbn. unfold union, sliceToSet.
  do 2 f_equal. f_equal. set_solver.
Qed.

(** X29: for a function whose body is one return statement that returns
    the result of a call to a function with a fact, the last loop of
    [runVerify] compares the claimed codes with the codes of that fact:
    the function called is not analysed, nothing else is reported, and the
    facts of the error types are left as they are. *)
Theorem verifyClaim_return_call fuel funcDecl body results fn args callee fact
    claimedCodes typeFacts diags :
  Body funcDecl = Some body → Stmts body = [ReturnStmt results] →
  last results = Some (CallExpr fn args) →
  Callee resolver (CallExpr fn args) = Some callee →
  funcFacts !! callee = Some fact →
  verifyClaim pass resolver objects funcDeclAt funcFacts lookup (S (S fuel))
    funcDecl claimedCodes typeFacts diags
  = Done (typeFacts,
          reportIfCodesDoNotMatch funcDecl (list_to_set (Codes fact))
            claimedCodes diags).
Proof.
  intros Hbody Hstmts Hlast Hcallee Hfact. unfold verifyClaim.
  rewrite (analyse_return_call fuel funcDecl body results fn args callee fact)
    by done.
  cbn. unfold union. by rewrite (right_id_L ∅ (∪)).
Qed.

(** A function that calls itself *)

Lemma analyse_recursion_not_Done funcDecl body results fn args obj funcNode :
  Body funcDecl = Some body → ReturnStmt results ∈ Stmts body →
  last results = Some (CallExpr (IdentExpr fn) args) →
  Callee resolver (CallExpr (IdentExpr fn) args) ≫= (funcFacts !!.) = None →
  Obj fn ≫= (objects !!.) = Some obj →
  ObjDecl obj = DeclFuncDecl funcNode → funcDeclAt funcNode = funcDecl →
  ∀ fuel diags r, analyse fuel funcDecl diags ≠ Done r.
Proof.
  intros Hbody Hin Hlast Hcallee Hobj Hdecl Hself.
  induction fuel as [|fuel IH]; intros diags r; [done|].
  cbn [findAffectorsOfErrorReturnInFunc]. unfold Inspect. rewrite Hbody.
  apply (forM_not_Done _ _ (ReturnStmt results)); [done|].
  intros [[affectors codes] ds] r'. rewrite walkStmt_unfold.
  cbn [errorReturn_visit]. unfold resultExpression. rewrite Hlast.
  cbn [mbind outcome_bind]. unfold findAffectors.
  destruct fuel as [|fuel']; [done|].
  cbn [Earlier.findAffectorsInFunc mbind outcome_bind forM taintDiags].
  unfold findAffectors_step. rewrite Hcallee, Hobj, Hdecl, Hself.
  pose proof (IH ds) as Hno.
  destruct (analyse (S fuel') funcDecl ds) as [a| |]; [|done..].
  by destruct (Hno a).
Qed.

(** X30: [findAffectorsOfErrorReturnInFunc] returns no result for a
    function that returns the result of a call to itself, when the call
    has no fact: for every depth the analysis is still following the
    call, or has panicked. *)
Theorem findAffectorsOfErrorReturnInFunc_recursion funcDecl body results fn
    args obj funcNode fuel diags :
  Body funcDecl = Some body → ReturnStmt results ∈ Stmts body →
  last results = Some (CallExpr (IdentExpr fn) args) →
  Callee resolver (CallExpr (IdentExpr fn) args) ≫= (funcFacts !!.) = None →
  Obj fn ≫= (objects !!.) = Some obj →
  ObjDecl obj = DeclFuncDecl funcNode → funcDeclAt funcNode = funcDecl →
  analyse fuel funcDecl diags = OutOfFuel
  ∨ ∃ msg, analyse fuel funcDecl diags = Panic msg.
Proof.
  intros Hbody Hin Hlast Hcallee Hobj Hdecl Hself.
  pose proof (λ r, analyse_recursion_not_Done funcDecl body results fn args obj
                     funcNode Hbody Hin Hlast Hcallee Hobj Hdecl Hself fuel
                     diags r) as Hno.
  destruct (analyse fuel funcDecl diags) as [r|msg|].
  - by destruct (Hno r).
  - right. by exists msg.
  - by left.
Qed.

End AcrossCallsFacts.

Lemma findAffectorsOfErrorReturnInFunc_codes_witness :
  ∃ fn fact,
    Sample.funcFacts !! fn = Some fact ∧ "sample-error"%string ∈ Codes fact.
Proof.
  apply (findAffectorsOfErrorReturnInFunc_codes Sample.pass Sample.resolver
           Sample.objects (λ _, Sample.Declared) Sample.funcFacts
           Sample.lookupCode 2 Sample.Caller [] []
           {["sample-error"%string]} []).
  - by vm_compute.
  - by apply elem_of_singleton.
Defined.

Lemma findAffectorsOfErrorReturnInFunc_affectors_witness :
  Forall (λ a, boundary Sample.pass a = true) [Sample.newSampleError] ∧
  ([] : list Diagnostic) `prefix_of` [].
Proof.
  apply (findAffectorsOfErrorReturnInFunc_affectors Sample.pass
           Sample.resolver Sample.objects (λ _, Sample.Declared)
           Sample.funcFacts Sample.lookupCode 2 Sample.Declared []
           [Sample.newSampleError] ∅ []).
  by vm_compute.
Defined.

Lemma verifyClaim_return_call_witness :
  verifyClaim Sample.pass Sample.resolver Sample.objects
    (λ _, Sample.Declared) Sample.funcFacts Sample.lookupCode 2 Sample.Caller
    {["sample-error"%string]} ∅ []
  = Done (∅,
          reportIfCodesDoNotMatch Sample.Caller
            (list_to_set (Codes (mkErrorCodes ["sample-error"%string])))
            {["sample-error"%string]} []).
Proof.
  apply (verifyClaim_return_call Sample.pass Sample.resolver Sample.objects
           (λ _, Sample.Declared) Sample.funcFacts Sample.lookupCode 0
           Sample.Caller
           (mkBlock 1920 [ReturnStmt [Sample.call 351 "Declared" []]] 1945)
           [Sample.call 351 "Declared" []]
           (IdentExpr (Sample.ident 351 "Declared" None)) [] 310).
  - reflexivity.
  - reflexivity.
  - reflexivity.
  - reflexivity.
  - reflexivity.
Defined.

Lemma findAffectorsOfErrorReturnInFunc_recursion_witness :
  findAffectorsOfErrorReturnInFunc Sample.pass Sample.resolver
    Sample.objectsRecursive (λ _, Sample.Recursive) Sample.funcFacts
    Sample.lookupCode 9 Sample.Recursive [] = OutOfFuel
  ∨ ∃ msg,
      findAffectorsOfErrorReturnInFunc Sample.pass Sample.resolver
        Sample.objectsRecursive (λ _, Sample.Recursive) Sample.funcFacts
        Sample.lookupCode 9 Sample.Recursive [] = Panic msg.
Proof.
  apply (findAffectorsOfErrorReturnInFunc_recursion Sample.pass
           Sample.resolver Sample.objectsRecursive (λ _, Sample.Recursive)
           Sample.funcFacts Sample.lookupCode Sample.Recursive
           (mkBlock 2029 [ReturnStmt [Sample.recursiveCall]] 2060)
           [Sample.recursiveCall]
           (Sample.ident 361 "recursive" (Some 60%nat))
           [OtherExpr "BinaryExpr" [IdentExpr (Sample.ident 362 "n" None);
                                    BasicLit "1"]]
           (mkObject Fun "recursive" (DeclFuncDecl 17) 2005) 17).
  - reflexivity.
  - by left.
  - reflexivity.
  - reflexivity.
  - reflexivity.
  - reflexivity.
  - reflexivity.
Defined.
